(** * MeteoRuta: weather acquisition, fusion and risk classification

    A shallow embedding of the weather orchestrator service
    (services/weather-orchestrator/src): the Redis client wrapper, the
    per-provider rate limiter, the four provider adapters' response
    parsers, the acquisition loop, the fusion of provider records and the
    risk classifier, followed by the properties proved about them.

    Conventions of the embedding.
    - A JavaScript number is the rational its JSON text denotes ([Q]);
      comparisons are exact.  Where the spreads between sources, the wind
      speed of a wind vector and the estimated time of a waypoint are
      computed, the operands are rounded to doubles and the operations
      are those of binary64 ([Double]).
    - A valid [Date] is its epoch time in milliseconds ([Z]); a field that
      the source fills with [toISOString()] carries that time.  An Invalid
      Date is [None] where the code can produce one.
    - [null] is [None]; a property that may be missing from an upstream
      response is an [option] as well.
    - Asynchronous functions are sequential computations over a [World]
      (the Redis server, the clock, the upstream services); a thrown
      exception is the [Thrown] outcome.  Logging is not modelled. *)

From Stdlib Require Import QArith Qminmax Qround Qabs ZArith Ascii String List Sorted Lia Lqa
  DecimalString SpecFloat.
From stdpp Require Import gmap strings list.
Import ListNotations.

Local Open Scope Z_scope.

(** ** JavaScript values and numbers *)

(** The values a request body can hold where the code expects a number. *)
Inductive jsval : Type :=
| JUndefined
| JNull
| JBool (b : bool)
| JNum (q : Q)
| JStr (s : string)
| JObject.

(** ToBoolean. *)
Definition truthy (v : jsval) : bool :=
  match v with
  | JUndefined | JNull => false
  | JBool b => b
  | JNum q => negb (Qeq_bool q 0)
  | JStr s => negb (String.eqb s "")
  | JObject => true
  end.

(** [a > b] and [a < b] on numbers. *)
Definition js_gt (a b : Q) : bool := negb (Qle_bool a b).
Definition js_lt (a b : Q) : bool := negb (Qle_bool b a).

(** ToNumber of a field that is a number or [null]: [null] converts to 0. *)
Definition to_number (v : option Q) : Q :=
  match v with
  | Some q => q
  | None => 0%Q
  end.

(** ToBoolean of a field that is a number or [null]. *)
Definition truthy_num (v : option Q) : bool :=
  match v with
  | Some q => negb (Qeq_bool q 0)
  | None => false
  end.

Definition decimal (n : Z) : string :=
  NilZero.string_of_uint (N.to_uint (Z.to_N n)).

Fixpoint zeros (n : nat) : string :=
  match n with
  | O => ""
  | S n' => ("0" ++ zeros n')%string
  end.

Definition zero_pad (width : nat) (s : string) : string :=
  (zeros (width - String.length s) ++ s)%string.

(** [Number.prototype.toFixed(digits)]: the sign, then the nearest multiple
    of [10^-digits] of the absolute value (the larger one on a tie). *)
Definition toFixed (digits : nat) (x : Q) : string :=
  let scale := 10 ^ Z.of_nat digits in
  let n := Qfloor (Qabs x * inject_Z scale + (1 # 2))%Q in
  let sign := if js_lt x 0 then "-"%string else ""%string in
  let int_part := decimal (n / scale) in
  match digits with
  | O => (sign ++ int_part)%string
  | _ => (sign ++ int_part ++ "." ++ zero_pad digits (decimal (n mod scale)))%string
  end.

(** [Math.max(...values)] and [Math.min(...values)] for a non-empty array
    [values = first :: others]. *)
Definition Math_max (first : Q) (others : list Q) : Q := fold_left Qmax others first.
Definition Math_min (first : Q) (others : list Q) : Q := fold_left Qmin others first.

(** [array.filter(v => v !== null)] on an array of numbers and nulls. *)
Fixpoint non_null (l : list (option Q)) : list Q :=
  match l with
  | [] => []
  | Some q :: l' => q :: non_null l'
  | None :: l' => non_null l'
  end.

(** A number that may also be one of the non-finite values [Math.min],
    [Math.max], a division by zero and an overflow produce. *)
Inductive number : Type :=
| Finite (q : Q)
| Infinity
| NegInfinity
| NaN.

(** ** Binary64 arithmetic *)

(** The doubles and their operations are those of the standard library's
    specification of IEEE 754, at precision 53 and maximal exponent 1024,
    rounding to nearest, ties to even. *)
Module Double.
Definition prec : Z := 53.
Definition emax : Z := 1024.

(** The double nearest to a rational: the value of a number literal and of
    a number read from JSON. *)
Definition of_Q (q : Q) : spec_float :=
  match Qnum q with
  | Z0 => S754_zero false
  | Zpos n =>
      let '(m, e, l) := SFdiv_core_binary prec emax (Zpos n) 0 (Zpos (Qden q)) 0 in
      binary_round_aux prec emax false m e l
  | Zneg n =>
      let '(m, e, l) := SFdiv_core_binary prec emax (Zpos n) 0 (Zpos (Qden q)) 0 in
      binary_round_aux prec emax true m e l
  end.

(** The number a double stands for; the sign of a zero is dropped. *)
Definition value (x : spec_float) : number :=
  match x with
  | S754_zero _ => Finite 0
  | S754_infinity false => Infinity
  | S754_infinity true => NegInfinity
  | S754_nan => NaN
  | S754_finite s m e =>
      let n := if s then Zneg m else Zpos m in
      Finite (if 0 <=? e then inject_Z (n * 2 ^ e) else n # Z.to_pos (2 ^ (- e)))
  end.

Definition add : spec_float -> spec_float -> spec_float := SFadd prec emax.
Definition sub : spec_float -> spec_float -> spec_float := SFsub prec emax.
Definition mul : spec_float -> spec_float -> spec_float := SFmul prec emax.
Definition sqrt : spec_float -> spec_float := SFsqrt prec emax.
End Double.

(** [a - b] on numbers. *)
Definition js_sub (a b : Q) : number :=
  Double.value (Double.sub (Double.of_Q a) (Double.of_Q b)).

(** [a > b] for a computed [a]; a comparison with NaN is false. *)
Definition number_gt (a : number) (b : Q) : bool :=
  match a with
  | Finite q => js_gt q b
  | Infinity => true
  | NegInfinity | NaN => false
  end.

(** ** Outcomes of computations that may throw *)

Inductive outcome (A : Type) : Type :=
| Ok (a : A)
| Thrown (message : string).
Arguments Ok {A} a.
Arguments Thrown {A} message.

(** ** Data model *)

(** The four weather sources, keys of [providers] in index.js. *)
Inductive Provider : Type := meteoblue | aemet | windy | meteored.

Definition provider_name (p : Provider) : string :=
  match p with
  | meteoblue => "meteoblue"
  | aemet => "aemet"
  | windy => "windy"
  | meteored => "meteored"
  end.

#[global] Instance Provider_eq_dec : EqDecision Provider.
Proof. solve_decision. Defined.

(** Wind direction is compass text for some providers and a number for
    others. *)
Inductive WindDirection : Type :=
| DirText (s : string)
| DirNum (q : Q).

(** The object every adapter's [parseResponse] builds: always these eleven
    keys. *)
Module ProviderRecord.
Record t : Type := mk {
  temperature : option Q;
  windSpeed : option Q;
  windDirection : option WindDirection;
  precipitation : option Q;
  humidity : option Q;
  pressure : option Q;
  cloudCover : option Q;
  visibility : option Q;
  timestamp : Z;
  provider : string;
  confidence : Q
}.
End ProviderRecord.

(** An element of [weatherSources] in [getWeatherForPoint]. *)
Module Source.
Record t : Type := mk {
  provider : Provider;
  data : ProviderRecord.t;
  cached : bool
}.
End Source.

(** The object [mergeWeatherData] returns.  [timestamp] and [provider] are
    not keys of the literal it starts from; they appear when
    [Object.assign] copies the primary record into it. *)
Module FusedRecord.
Record t : Type := mk {
  temperature : option Q;
  windSpeed : option Q;
  windDirection : option WindDirection;
  precipitation : option Q;
  humidity : option Q;
  pressure : option Q;
  cloudCover : option Q;
  visibility : option Q;
  sources : list Provider;
  primary : Provider;
  confidence : Q;
  warnings : list string;
  timestamp : option Z;
  provider : option string
}.

(** The part of a fused record that mirrors a provider record. *)
Definition base (m : t) : option ProviderRecord.t :=
  match timestamp m, provider m with
  | Some ts, Some name =>
      Some (ProviderRecord.mk (temperature m) (windSpeed m) (windDirection m)
              (precipitation m) (humidity m) (pressure m) (cloudCover m)
              (visibility m) ts name (confidence m))
  | _, _ => None
  end.

Definition push_warning (w : string) (m : t) : t :=
  mk (temperature m) (windSpeed m) (windDirection m) (precipitation m)
     (humidity m) (pressure m) (cloudCover m) (visibility m)
     (sources m) (primary m) (confidence m) (warnings m ++ [w])
     (timestamp m) (provider m).
End FusedRecord.

(** ** Fusion (index.js, mergeWeatherData and helpers) *)

(** Prioridad: meteoblue > aemet > windy > meteored. *)
Definition priority (p : Provider) : Z :=
  match p with
  | meteoblue => 4
  | aemet => 3
  | windy => 2
  | meteored => 1
  end.

(** The comparator handed to [sort]. *)
Definition compareFn (a b : Source.t) : Z :=
  priority (Source.provider b) - priority (Source.provider a).

(** [Array.prototype.sort] is stable; with a consistent comparator its
    result is the one a stable insertion sort computes. *)
Fixpoint sort_insert (x : Source.t) (l : list Source.t) : list Source.t :=
  match l with
  | [] => [x]
  | y :: l' => if compareFn x y <=? 0 then x :: y :: l' else y :: sort_insert x l'
  end.

Definition Array_sort (l : list Source.t) : list Source.t :=
  fold_right sort_insert [] l.

Definition calculateConfidence (sources : list Source.t) : Q :=
  if (length sources =? 1)%nat then 0.75%Q
  else if (length sources =? 2)%nat then 0.85%Q
  else if (3 <=? length sources)%nat then 0.95%Q
  else 0.5%Q.

(** [Object.assign(merged, primaryData)]: every own key of the provider
    record overwrites the key of the same name in [merged]; [confidence] is
    one of them, [timestamp] and [provider] are added. *)
Definition Object_assign (merged : FusedRecord.t) (primaryData : ProviderRecord.t)
  : FusedRecord.t :=
  FusedRecord.mk
    (ProviderRecord.temperature primaryData)
    (ProviderRecord.windSpeed primaryData)
    (ProviderRecord.windDirection primaryData)
    (ProviderRecord.precipitation primaryData)
    (ProviderRecord.humidity primaryData)
    (ProviderRecord.pressure primaryData)
    (ProviderRecord.cloudCover primaryData)
    (ProviderRecord.visibility primaryData)
    (FusedRecord.sources merged)
    (FusedRecord.primary merged)
    (ProviderRecord.confidence primaryData)
    (FusedRecord.warnings merged)
    (Some (ProviderRecord.timestamp primaryData))
    (Some (ProviderRecord.provider primaryData)).

(** [range.toFixed(1)] of a computed range. *)
Definition range_toFixed (range : number) : string :=
  match range with
  | Finite q => toFixed 1 q
  | Infinity => "Infinity"
  | NegInfinity => "-Infinity"
  | NaN => "NaN"
  end.

Definition temperature_warning (tempRange : number) : string :=
  ("Gran variación en temperatura entre fuentes: " ++ range_toFixed tempRange ++ "°C")%string.

Definition wind_warning (windRange : number) : string :=
  ("Gran variación en viento entre fuentes: " ++ range_toFixed windRange ++ " km/h")%string.

Definition temperatures_of (sources : list Source.t) : list Q :=
  non_null (map (fun s => ProviderRecord.temperature (Source.data s)) sources).

Definition windSpeeds_of (sources : list Source.t) : list Q :=
  non_null (map (fun s => ProviderRecord.windSpeed (Source.data s)) sources).

(** The ranges are differences of doubles: [Math.max] and [Math.min] pick
    elements of the array, the subtraction rounds. *)
Definition detectWeatherInconsistencies (merged : FusedRecord.t) (sources : list Source.t)
  : FusedRecord.t :=
  if (length sources <? 2)%nat then merged
  else
    let merged :=
      match temperatures_of sources with
      | t0 :: ((_ :: _) as others) =>
          let tempRange := js_sub (Math_max t0 others) (Math_min t0 others) in
          if number_gt tempRange 5
          then FusedRecord.push_warning (temperature_warning tempRange) merged
          else merged
      | _ => merged
      end in
    match windSpeeds_of sources with
    | w0 :: ((_ :: _) as others) =>
        let windRange := js_sub (Math_max w0 others) (Math_min w0 others) in
        if number_gt windRange 15 then FusedRecord.push_warning (wind_warning windRange) merged
        else merged
    | _ => merged
    end.

(** [sort] works in place, so after the first statement [sources] and
    [sortedSources] are the same sorted array; reading element 0 of an empty
    array and then its [provider] throws a TypeError. *)
Definition mergeWeatherData (sources : list Source.t) : outcome FusedRecord.t :=
  let sortedSources := Array_sort sources in
  let sources := sortedSources in
  match sortedSources with
  | [] => Thrown "Cannot read properties of undefined (reading 'provider')"
  | first :: _ =>
      let merged :=
        FusedRecord.mk None None None None None None None None
          (map Source.provider sources)
          (Source.provider first)
          (calculateConfidence sources)
          []
          None None in
      let primaryData := Source.data first in
      let merged := Object_assign merged primaryData in
      Ok (if (1 <? length sources)%nat
          then detectWeatherInconsistencies merged sources
          else merged)
  end.

(** ** Route results and the risk classifier (index.js, identifyRisks) *)

(** A waypoint of the request; [lat] and [lon] are whatever the body holds.
    [estimatedTimeFromStart] is a number of minutes or missing. *)
Record Waypoint : Type := {
  lat : jsval;
  lon : jsval;
  estimatedTimeFromStart : option Q
}.

(** An element of the array [getWeatherForWaypoints] returns. *)
Module WeatherResult.
Record t : Type := mk {
  waypoint : Waypoint;
  weather : option FusedRecord.t;
  error : option string;
  timestamp : Z
}.
End WeatherResult.

Module Risk.
Inductive type : Type := wind | precipitation | temperature | visibility.
Inductive level : Type := high | medium.

(** A template literal with one interpolated number, kept unrendered. *)
Record message : Type := msg {
  prefix : string;
  value : Q;
  suffix : string
}.

Record t : Type := mk {
  type_ : type;
  level_ : level;
  message_ : message;
  location : string;
  coordinates : jsval * jsval;
  timestamp : Z
}.
End Risk.

#[global] Instance Risk_type_eq_dec : EqDecision Risk.type.
Proof. solve_decision. Defined.

Module riskThresholds.
Definition windSpeed : Q := 25.
Definition precipitation : Q := 5.
Definition temperature_min : Q := 0.
Definition temperature_max : Q := 35.
Definition visibility : Q := 1000.
End riskThresholds.

(** The body of the [forEach] callback for a result that has weather. *)
Definition risks_of_weather (weather : FusedRecord.t) (result : WeatherResult.t)
    (index : nat) : list Risk.t :=
  let waypoint := WeatherResult.waypoint result in
  let location := ("Punto " ++ decimal (Z.of_nat index + 1))%string in
  let coordinates := (lat waypoint, lon waypoint) in
  let alert ty lv m := Risk.mk ty lv m location coordinates (WeatherResult.timestamp result) in
  let windSpeed := to_number (FusedRecord.windSpeed weather) in
  let precipitation := to_number (FusedRecord.precipitation weather) in
  let temperature := to_number (FusedRecord.temperature weather) in
  let visibility := to_number (FusedRecord.visibility weather) in
  (if js_gt windSpeed riskThresholds.windSpeed
   then [alert Risk.wind (if js_gt windSpeed 40 then Risk.high else Risk.medium)
           (Risk.msg "Viento fuerte: " windSpeed " km/h")]
   else [])
  ++
  (if js_gt precipitation riskThresholds.precipitation
   then [alert Risk.precipitation (if js_gt precipitation 15 then Risk.high else Risk.medium)
           (Risk.msg "Lluvia intensa: " precipitation " mm/h")]
   else [])
  ++
  (if js_lt temperature riskThresholds.temperature_min
      || js_gt temperature riskThresholds.temperature_max
   then [alert Risk.temperature Risk.medium
           (Risk.msg "Temperatura extrema: " temperature "°C")]
   else [])
  ++
  (if truthy_num (FusedRecord.visibility weather)
      && js_lt visibility riskThresholds.visibility
   then [alert Risk.visibility (if js_lt visibility 500 then Risk.high else Risk.medium)
           (Risk.msg "Visibilidad reducida: " visibility "m")]
   else []).

Definition risks_of_result (result : WeatherResult.t) (index : nat) : list Risk.t :=
  match WeatherResult.weather result with
  | None => []
  | Some weather => risks_of_weather weather result index
  end.

(** [weatherResults.forEach((result, index) => ...)], pushing to [risks]. *)
Fixpoint identifyRisks_from (index : nat) (weatherResults : list WeatherResult.t)
  : list Risk.t :=
  match weatherResults with
  | [] => []
  | result :: rest => risks_of_result result index ++ identifyRisks_from (S index) rest
  end.

Definition identifyRisks (weatherResults : list WeatherResult.t) : list Risk.t :=
  identifyRisks_from 0 weatherResults.

(** [getUsedSources]: the providers of all fused records, each once, in
    order of first appearance (insertion order of the [Set]). *)
Definition getUsedSources (weatherResults : list WeatherResult.t) : list Provider :=
  fold_left
    (fun sources result =>
       match WeatherResult.weather result with
       | Some weather =>
           fold_left (fun acc source =>
                        if bool_decide (source ∈ acc) then acc else acc ++ [source])
                     (FusedRecord.sources weather) sources
       | None => sources
       end)
    weatherResults [].

(** ** Provider adapters (providers/*.js) *)

(** What an adapter's [catch] block can receive: an HTTP error response
    with its status (and the error text of its body, if any), a request
    aborted on timeout ([ECONNABORTED]), or any other error with its
    message (a network failure, or an [Error] thrown inside the [try]). *)
Inductive RequestError : Type :=
| HttpError (status : Z) (detail : option string)
| Aborted
| OtherError (message : string).

(** What the HTTP client hands back: the decoded body or a failure. *)
Inductive NetResult (A : Type) : Type :=
| Responded (data : A)
| Failed (error : RequestError).
Arguments Responded {A} data.
Arguments Failed {A} error.

(** [Math.round]: the nearest integer, the larger one on a tie. *)
Definition Math_round (q : Q) : Q := inject_Z (Qfloor (q + (1 # 2))%Q).

(** [hoursOff <= h] for [hoursOff = timeDifference / (1000 * 60 * 60)]. *)
Definition hoursOff_le (timeDifference : Z) (h : Q) : bool :=
  Qle_bool (inject_Z timeDifference / inject_Z (1000 * 60 * 60))%Q h.

(** The scan for the time slot nearest to the target: [i] is the index of
    the head of [times]. *)
Fixpoint closest_scan (times : list Z) (target : Z) (i closestIndex : nat) (minDiff : Z)
  : nat * Z :=
  match times with
  | [] => (closestIndex, minDiff)
  | t :: rest =>
      let diff := Z.abs (t - target) in
      if diff <? minDiff then closest_scan rest target (S i) i diff
      else closest_scan rest target (S i) closestIndex minDiff
  end.

(** A series value at an index: a missing series, an index past its end and
    a [null] element all read as [null]. *)
Definition series_at (series : option (list (option Q))) (index : nat) : option Q :=
  match series with
  | None => None
  | Some values =>
      match nth_error values index with
      | Some v => v
      | None => None
      end
  end.

(** [v || 0] on a number or [null]. *)
Definition or_zero (v : option Q) : Q :=
  if truthy_num v then to_number v else 0%Q.

Module Meteoblue.
Record Data1h : Type := {
  time : option (list Z);
  temperature : option (list (option Q));
  windspeed : option (list (option Q));
  winddirection : option (list (option Q));
  precipitation : option (list (option Q));
  relativehumidity : option (list (option Q));
  sealevelpressure : option (list (option Q));
  totalcloudcover : option (list (option Q));
  visibility : option (list (option Q))
}.

Record Response : Type := { data_1h : option Data1h }.

Definition name : string := "meteoblue".

Definition getValueAtIndex := series_at.

Definition calculateConfidence (timeDifference : Z) : Q :=
  if hoursOff_le timeDifference 1 then 0.95%Q
  else if hoursOff_le timeDifference 3 then 0.85%Q
  else if hoursOff_le timeDifference 6 then 0.75%Q
  else if hoursOff_le timeDifference 12 then 0.65%Q
  else 0.50%Q.

(** The [try] block of [parseResponse]. *)
Definition parse (data : Response) (targetTimestamp : Z) : outcome ProviderRecord.t :=
  match data_1h data with
  | None => Thrown "Invalid meteoblue response format"
  | Some d =>
      match time d with
      | None => Thrown "Invalid meteoblue response format"
      | Some [] => Thrown "Cannot read properties of undefined (reading 'getTime')"
      | Some ((t0 :: rest) as times) =>
          let '(closestIndex, minDiff) :=
            closest_scan rest targetTimestamp 1 0 (Z.abs (t0 - targetTimestamp)) in
          let weatherData :=
            ProviderRecord.mk
              (getValueAtIndex (temperature d) closestIndex)
              (getValueAtIndex (windspeed d) closestIndex)
              (option_map DirNum (getValueAtIndex (winddirection d) closestIndex))
              (Some (or_zero (getValueAtIndex (precipitation d) closestIndex)))
              (getValueAtIndex (relativehumidity d) closestIndex)
              (getValueAtIndex (sealevelpressure d) closestIndex)
              (getValueAtIndex (totalcloudcover d) closestIndex)
              (getValueAtIndex (visibility d) closestIndex)
              (nth closestIndex times t0)
              name
              (calculateConfidence minDiff) in
          match ProviderRecord.temperature weatherData,
                ProviderRecord.windSpeed weatherData with
          | Some _, Some _ => Ok weatherData
          | _, _ => Thrown "Missing critical weather data from meteoblue"
          end
      end
  end.

Definition parseResponse (data : Response) (targetTimestamp : Z)
  : outcome ProviderRecord.t :=
  match parse data targetTimestamp with
  | Ok weatherData => Ok weatherData
  | Thrown message => Thrown ("Error parsing meteoblue data: " ++ message)
  end.

(** [handleError] always throws; this is the message it throws. *)
Definition handleError (error : RequestError) : string :=
  match error with
  | HttpError status detail =>
      if status =? 429 then "meteoblue rate limit exceeded"
      else if (status =? 401) || (status =? 403) then "meteoblue API key invalid or expired"
      else if status =? 400 then
        ("meteoblue API request error: " ++
           match detail with
           | Some e => if String.eqb e "" then "Invalid request" else e
           | None => "Invalid request"
           end)%string
      else ("meteoblue API error: " ++ decimal status)%string
  | Aborted => "meteoblue API timeout"
  | OtherError message => ("meteoblue connection error: " ++ message)%string
  end.

(** [getWeatherForPoint], given whether the key is configured and what the
    one request to the service comes back with. *)
Definition getWeatherForPoint (apiKey : bool) (net : NetResult Response) (timestamp : Z)
  : outcome ProviderRecord.t :=
  if negb apiKey then Thrown "meteoblue API key not configured"
  else
    match net with
    | Responded data =>
        match parseResponse data timestamp with
        | Ok weatherData => Ok weatherData
        | Thrown message => Thrown (handleError (OtherError message))
        end
    | Failed error => Thrown (handleError error)
    end.

(** [parseResponse] when the target is an Invalid Date: every time
    difference is NaN and no comparison with NaN holds, so slot 0 stays the
    closest one and the confidence is that of the last band. *)
Definition parse_invalid (data : Response) : outcome ProviderRecord.t :=
  match data_1h data with
  | None => Thrown "Invalid meteoblue response format"
  | Some d =>
      match time d with
      | None => Thrown "Invalid meteoblue response format"
      | Some [] => Thrown "Cannot read properties of undefined (reading 'getTime')"
      | Some (t0 :: _) =>
          let closestIndex := 0%nat in
          let weatherData :=
            ProviderRecord.mk
              (getValueAtIndex (temperature d) closestIndex)
              (getValueAtIndex (windspeed d) closestIndex)
              (option_map DirNum (getValueAtIndex (winddirection d) closestIndex))
              (Some (or_zero (getValueAtIndex (precipitation d) closestIndex)))
              (getValueAtIndex (relativehumidity d) closestIndex)
              (getValueAtIndex (sealevelpressure d) closestIndex)
              (getValueAtIndex (totalcloudcover d) closestIndex)
              (getValueAtIndex (visibility d) closestIndex)
              t0
              name
              0.50%Q in
          match ProviderRecord.temperature weatherData,
                ProviderRecord.windSpeed weatherData with
          | Some _, Some _ => Ok weatherData
          | _, _ => Thrown "Missing critical weather data from meteoblue"
          end
      end
  end.

Definition parseResponse_invalid (data : Response) : outcome ProviderRecord.t :=
  match parse_invalid data with
  | Ok weatherData => Ok weatherData
  | Thrown message => Thrown ("Error parsing meteoblue data: " ++ message)
  end.

(** [getWeatherForPoint] when [timestamp] is an Invalid Date. *)
Definition getWeatherForPoint_invalid (apiKey : bool) (net : NetResult Response)
  : outcome ProviderRecord.t :=
  if negb apiKey then Thrown "meteoblue API key not configured"
  else
    match net with
    | Responded data =>
        match parseResponse_invalid data with
        | Ok weatherData => Ok weatherData
        | Thrown message => Thrown (handleError (OtherError message))
        end
    | Failed error => Thrown (handleError error)
    end.
End Meteoblue.

Module Windy.
(** The response body: the time axis [ts] and the series named
    [<parameter>-surface].  A series that is missing or not an array is
    [None]. *)
Record Response : Type := {
  ts : option (list Z);
  temp_surface : option (list (option Q));
  wind_u_surface : option (list (option Q));
  wind_v_surface : option (list (option Q));
  precip_surface : option (list (option Q));
  rh_surface : option (list (option Q));
  pressure_surface : option (list (option Q));
  cloudcover_surface : option (list (option Q))
}.

Definition name : string := "windy".

Definition getParameterValue := series_at.

(** [Math.round(Math.sqrt(windU * windU + windV * windV) * 3.6)], every
    operation on doubles; [Math.round] itself is exact.  A speed that
    overflows the doubles is Infinity in the code; the records of the model
    hold finite numbers only, and it reads as null here. *)
Definition calculateWindSpeed (data : Response) (index : nat) : option Q :=
  match getParameterValue (wind_u_surface data) index,
        getParameterValue (wind_v_surface data) index with
  | Some windU, Some windV =>
      let u := Double.of_Q windU in
      let v := Double.of_Q windV in
      let windSpeed := Double.sqrt (Double.add (Double.mul u u) (Double.mul v v)) in
      match Double.value (Double.mul windSpeed (Double.of_Q 3.6)) with
      | Finite kmh => Some (Math_round kmh)
      | _ => None
      end
  | _, _ => None
  end.

Definition calculateConfidence (timeDifference : Z) : Q :=
  if hoursOff_le timeDifference 1 then 0.90%Q
  else if hoursOff_le timeDifference 3 then 0.80%Q
  else if hoursOff_le timeDifference 6 then 0.70%Q
  else if hoursOff_le timeDifference 12 then 0.60%Q
  else 0.45%Q.

Definition parse (data : Response) (targetTimestamp : Z) : outcome ProviderRecord.t :=
  match ts data with
  | None => Thrown "Invalid Windy response format"
  | Some [] => Thrown "Invalid time value"
  | Some ((t0 :: rest) as times) =>
      let '(closestIndex, minDiff) :=
        closest_scan rest targetTimestamp 1 0 (Z.abs (t0 - targetTimestamp)) in
      Ok (ProviderRecord.mk
            (getParameterValue (temp_surface data) closestIndex)
            (calculateWindSpeed data closestIndex)
            (option_map DirNum (getParameterValue (wind_u_surface data) closestIndex))
            (Some (or_zero (getParameterValue (precip_surface data) closestIndex)))
            (getParameterValue (rh_surface data) closestIndex)
            (getParameterValue (pressure_surface data) closestIndex)
            (getParameterValue (cloudcover_surface data) closestIndex)
            None
            (nth closestIndex times t0)
            name
            (calculateConfidence minDiff))
  end.

Definition parseResponse (data : Response) (targetTimestamp : Z)
  : outcome ProviderRecord.t :=
  match parse data targetTimestamp with
  | Ok weatherData => Ok weatherData
  | Thrown message => Thrown ("Error parsing Windy data: " ++ message)
  end.

Definition handleError (error : RequestError) : string :=
  match error with
  | HttpError status detail =>
      if status =? 429 then "Windy rate limit exceeded"
      else if (status =? 401) || (status =? 403) then "Windy API key invalid or expired"
      else if status =? 400 then
        ("Windy API request error: " ++
           match detail with
           | Some e => if String.eqb e "" then "Invalid request" else e
           | None => "Invalid request"
           end)%string
      else ("Windy API error: " ++ decimal status)%string
  | Aborted => "Windy API timeout"
  | OtherError message => ("Windy connection error: " ++ message)%string
  end.

Definition getWeatherForPoint (apiKey : bool) (net : NetResult Response) (timestamp : Z)
  : outcome ProviderRecord.t :=
  if negb apiKey then Thrown "Windy API key not configured"
  else
    match net with
    | Responded data =>
        match parseResponse data timestamp with
        | Ok weatherData => Ok weatherData
        | Thrown message => Thrown (handleError (OtherError message))
        end
    | Failed error => Thrown (handleError error)
    end.

(** [parseResponse] when the target is an Invalid Date: slot 0 stays the
    closest one, with the confidence of the last band. *)
Definition parse_invalid (data : Response) : outcome ProviderRecord.t :=
  match ts data with
  | None => Thrown "Invalid Windy response format"
  | Some [] => Thrown "Invalid time value"
  | Some (t0 :: _) =>
      let closestIndex := 0%nat in
      Ok (ProviderRecord.mk
            (getParameterValue (temp_surface data) closestIndex)
            (calculateWindSpeed data closestIndex)
            (option_map DirNum (getParameterValue (wind_u_surface data) closestIndex))
            (Some (or_zero (getParameterValue (precip_surface data) closestIndex)))
            (getParameterValue (rh_surface data) closestIndex)
            (getParameterValue (pressure_surface data) closestIndex)
            (getParameterValue (cloudcover_surface data) closestIndex)
            None
            t0
            name
            0.45%Q)
  end.

Definition parseResponse_invalid (data : Response) : outcome ProviderRecord.t :=
  match parse_invalid data with
  | Ok weatherData => Ok weatherData
  | Thrown message => Thrown ("Error parsing Windy data: " ++ message)
  end.

(** [getWeatherForPoint] when [timestamp] is an Invalid Date. *)
Definition getWeatherForPoint_invalid (apiKey : bool) (net : NetResult Response)
  : outcome ProviderRecord.t :=
  if negb apiKey then Thrown "Windy API key not configured"
  else
    match net with
    | Responded data =>
        match parseResponse_invalid data with
        | Ok weatherData => Ok weatherData
        | Thrown message => Thrown (handleError (OtherError message))
        end
    | Failed error => Thrown (handleError error)
    end.
End Windy.

(** ASCII [toLowerCase] and [includes] for the sky descriptions. *)
Definition lower_ascii (c : ascii) : ascii :=
  let n := Ascii.nat_of_ascii c in
  if ((65 <=? n) && (n <=? 90))%nat then Ascii.ascii_of_nat (n + 32) else c.

Fixpoint toLowerCase (s : string) : string :=
  match s with
  | EmptyString => EmptyString
  | String c rest => String (lower_ascii c) (toLowerCase rest)
  end.

Fixpoint includes (haystack needle : string) : bool :=
  String.prefix needle haystack
  || match haystack with
     | EmptyString => false
     | String _ rest => includes rest needle
     end.

Module Aemet.
(** A [{maxima, minima, media}] object; each field, when present, by the
    integer [parseInt] reads from it. *)
Record Range : Type := {
  maxima : option Z;
  minima : option Z;
  media : option Z
}.

Record Viento : Type := {
  velocidad : option Z;
  direccion : option string
}.

Record Precipitacion : Type := { value : option Q }.
Record EstadoCielo : Type := { descripcion : option string }.

(** One day of the municipal forecast.  A list field that is missing or
    not an array is [None]. *)
Record Dia : Type := {
  temperatura : option Range;
  viento : option (list Viento);
  precipitacion : option (list Precipitacion);
  humedadRelativa : option Range;
  estadoCielo : option (list EstadoCielo)
}.

Record Prediccion : Type := { dia : option (list Dia) }.
Record Forecast : Type := { prediccion : option Prediccion }.

Definition name : string := "aemet".

Definition extractTemperature (tempData : option Range) : option Q :=
  match tempData with
  | None => None
  | Some tempData =>
      match maxima tempData, minima tempData, media tempData with
      | Some v, _, _ => Some (inject_Z v)
      | None, Some v, _ => Some (inject_Z v)
      | None, None, Some v => Some (inject_Z v)
      | None, None, None => Some 20%Q
      end
  end.

Definition extractWindSpeed (windData : option (list Viento)) : option Q :=
  match windData with
  | None | Some [] => Some 10%Q
  | Some (wind :: _) =>
      match velocidad wind with
      | Some v => Some (inject_Z v)
      | None => Some 10%Q
      end
  end.

Definition extractWindDirection (windData : option (list Viento)) : option WindDirection :=
  match windData with
  | None | Some [] => Some (DirText "Variable")
  | Some (wind :: _) =>
      match direccion wind with
      | Some d => Some (DirText (if String.eqb d "" then "Variable" else d))
      | None => Some (DirText "Variable")
      end
  end.

Definition extractPrecipitation (precipData : option (list Precipitacion)) : option Q :=
  match precipData with
  | None | Some [] => Some 0%Q
  | Some (precip :: _) =>
      match value precip with
      | Some v => Some v
      | None => Some 0%Q
      end
  end.

Definition extractHumidity (humidityData : option Range) : option Q :=
  match humidityData with
  | None => None
  | Some humidityData =>
      match maxima humidityData, minima humidityData, media humidityData with
      | Some v, _, _ => Some (inject_Z v)
      | None, Some v, _ => Some (inject_Z v)
      | None, None, Some v => Some (inject_Z v)
      | None, None, None => None
      end
  end.

Definition extractCloudCover (skyData : option (list EstadoCielo)) : option Q :=
  match skyData with
  | None | Some [] => None
  | Some (sky :: _) =>
      match descripcion sky with
      | None => None
      | Some d =>
          if String.eqb d "" then None
          else
            let desc := toLowerCase d in
            if includes desc "despejado" then Some 10%Q
            else if includes desc "poco nuboso" then Some 25%Q
            else if includes desc "intervalos" then Some 50%Q
            else if includes desc "nuboso" then Some 75%Q
            else if includes desc "cubierto" then Some 90%Q
            else Some 50%Q
      end
  end.

(** The [try] block of [parseResponse]; [forecastData] is [None] when the
    body is not an array. *)
Definition parse (forecastData : option (list Forecast)) (targetTimestamp : Z)
  : outcome ProviderRecord.t :=
  match forecastData with
  | None | Some [] => Thrown "No forecast data available from AEMET"
  | Some (forecast :: _) =>
      match prediccion forecast with
      | None => Thrown "Invalid AEMET forecast structure"
      | Some p =>
          match dia p with
          | None | Some [] => Thrown "Invalid AEMET forecast structure"
          | Some (today :: _) =>
              Ok (ProviderRecord.mk
                    (extractTemperature (temperatura today))
                    (extractWindSpeed (viento today))
                    (extractWindDirection (viento today))
                    (extractPrecipitation (precipitacion today))
                    (extractHumidity (humedadRelativa today))
                    None
                    (extractCloudCover (estadoCielo today))
                    None
                    targetTimestamp
                    name
                    0.80%Q)
          end
      end
  end.

Definition parseResponse (forecastData : option (list Forecast)) (targetTimestamp : Z)
  : outcome ProviderRecord.t :=
  match parse forecastData targetTimestamp with
  | Ok weatherData => Ok weatherData
  | Thrown message => Thrown ("Error parsing AEMET data: " ++ message)
  end.

Definition isSpanishTerritory (lat lon : Q) : bool :=
  Qle_bool 27 lat && Qle_bool lat 44 && Qle_bool (-18) lon && Qle_bool lon 5.

Definition handleError (error : RequestError) : string :=
  match error with
  | HttpError status _ =>
      if status =? 429 then "AEMET rate limit exceeded"
      else if (status =? 401) || (status =? 403) then "AEMET API key invalid or expired"
      else if status =? 404 then "AEMET data not found for location"
      else ("AEMET API error: " ++ decimal status)%string
  | Aborted => "AEMET API timeout"
  | OtherError message => ("AEMET connection error: " ++ message)%string
  end.

(** The answer to the first request: [estado], [descripcion], and what
    the second request, to the URL in [datos], comes back with. *)
Record Envelope : Type := {
  estado : Z;
  descripcion_estado : string;
  datos : NetResult (option (list Forecast))
}.

(** [getMunicipalityForecast]: two requests; an [estado] other than 200
    is thrown as a plain error. *)
Definition getMunicipalityForecast (net : NetResult Envelope)
  : NetResult (option (list Forecast)) :=
  match net with
  | Failed error => Failed error
  | Responded envelope =>
      if negb (estado envelope =? 200)
      then Failed (OtherError ("AEMET API error: " ++ descripcion_estado envelope))
      else datos envelope
  end.

Definition getWeatherForPoint (apiKey : bool) (lat lon : Q) (net : NetResult Envelope)
    (timestamp : Z) : outcome ProviderRecord.t :=
  if negb apiKey then Thrown "AEMET API key not configured"
  else if negb (isSpanishTerritory lat lon)
  then Thrown (handleError (OtherError "AEMET only covers Spanish territory"))
  else
    match getMunicipalityForecast net with
    | Responded forecast =>
        match parseResponse forecast timestamp with
        | Ok weatherData => Ok weatherData
        | Thrown message => Thrown (handleError (OtherError message))
        end
    | Failed error => Thrown (handleError error)
    end.

(** [parseResponse] when the target is an Invalid Date: after the checks
    of the structure, [targetDate.toISOString()] throws a RangeError. *)
Definition parse_invalid (forecastData : option (list Forecast)) : outcome ProviderRecord.t :=
  match forecastData with
  | None | Some [] => Thrown "No forecast data available from AEMET"
  | Some (forecast :: _) =>
      match prediccion forecast with
      | None => Thrown "Invalid AEMET forecast structure"
      | Some p =>
          match dia p with
          | None | Some [] => Thrown "Invalid AEMET forecast structure"
          | Some (today :: _) => Thrown "Invalid time value"
          end
      end
  end.

Definition parseResponse_invalid (forecastData : option (list Forecast))
  : outcome ProviderRecord.t :=
  match parse_invalid forecastData with
  | Ok weatherData => Ok weatherData
  | Thrown message => Thrown ("Error parsing AEMET data: " ++ message)
  end.

(** [getWeatherForPoint] when [timestamp] is an Invalid Date. *)
Definition getWeatherForPoint_invalid (apiKey : bool) (lat lon : Q) (net : NetResult Envelope)
  : outcome ProviderRecord.t :=
  if negb apiKey then Thrown "AEMET API key not configured"
  else if negb (isSpanishTerritory lat lon)
  then Thrown (handleError (OtherError "AEMET only covers Spanish territory"))
  else
    match getMunicipalityForecast net with
    | Responded forecast =>
        match parseResponse_invalid forecast with
        | Ok weatherData => Ok weatherData
        | Thrown message => Thrown (handleError (OtherError message))
        end
    | Failed error => Thrown (handleError error)
    end.
End Aemet.

Module Meteored.
Record Temperature : Type := { max : Q; min : Q }.
Record Wind : Type := { speed : option Q; direction : option string }.

Record Forecast : Type := {
  date : Z;
  temperature : option Temperature;
  temp : option Q;
  wind : option Wind;
  precipitation : option Q;
  rain : option Q;
  humidity : option Q;
  pressure : option Q;
  cloudiness : option Q;
  clouds : option Q
}.

(** [weather.forecast], [None] when it is not an array. *)
Record Weather : Type := { forecast : option (list Forecast) }.
Record Response : Type := { weather : option Weather }.

Definition name : string := "meteored".

Definition extractTemperature (f : Forecast) : option Q :=
  match temperature f with
  | Some t => Some (Math_round ((max t + min t) / 2)%Q)
  | None =>
      if truthy_num (temp f) then Some (Math_round (to_number (temp f))) else None
  end.

Definition extractWindSpeed (f : Forecast) : option Q :=
  match wind f with
  | Some w =>
      if truthy_num (speed w) then Some (Math_round (to_number (speed w))) else None
  | None => None
  end.

Definition extractWindDirection (f : Forecast) : option WindDirection :=
  match wind f with
  | Some w =>
      match direction w with
      | Some d => Some (DirText (if String.eqb d "" then "Variable" else d))
      | None => Some (DirText "Variable")
      end
  | None => Some (DirText "Variable")
  end.

Definition extractPrecipitation (f : Forecast) : option Q :=
  if truthy_num (precipitation f) then precipitation f
  else if truthy_num (rain f) then rain f
  else Some 0%Q.

Definition extractHumidity (f : Forecast) : option Q :=
  if truthy_num (humidity f) then Some (Math_round (to_number (humidity f))) else None.

Definition extractPressure (f : Forecast) : option Q :=
  if truthy_num (pressure f) then Some (Math_round (to_number (pressure f))) else None.

Definition extractCloudCover (f : Forecast) : option Q :=
  if truthy_num (cloudiness f) then Some (Math_round (to_number (cloudiness f)))
  else if truthy_num (clouds f) then Some (Math_round (to_number (clouds f)))
  else None.

Definition calculateConfidence (timeDifference : Z) : Q :=
  if hoursOff_le timeDifference 2 then 0.75%Q
  else if hoursOff_le timeDifference 6 then 0.65%Q
  else if hoursOff_le timeDifference 12 then 0.55%Q
  else if hoursOff_le timeDifference 24 then 0.45%Q
  else 0.35%Q.

(** [for (const forecast of forecasts)]: the forecast nearest in time. *)
Fixpoint closest_forecast (forecasts : list Forecast) (target : Z)
    (closestForecast : Forecast) (minDiff : Z) : Forecast * Z :=
  match forecasts with
  | [] => (closestForecast, minDiff)
  | f :: rest =>
      let diff := Z.abs (date f - target) in
      if diff <? minDiff then closest_forecast rest target f diff
      else closest_forecast rest target closestForecast minDiff
  end.

Definition parse (data : Response) (targetTimestamp : Z) : outcome ProviderRecord.t :=
  match weather data with
  | None => Thrown "Invalid Meteored response format"
  | Some w =>
      match forecast w with
      | None => Thrown "Invalid Meteored response format"
      | Some [] => Thrown "Cannot read properties of undefined (reading 'date')"
      | Some ((f0 :: _) as forecasts) =>
          let '(closestForecast, minDiff) :=
            closest_forecast forecasts targetTimestamp f0
              (Z.abs (date f0 - targetTimestamp)) in
          Ok (ProviderRecord.mk
                (extractTemperature closestForecast)
                (extractWindSpeed closestForecast)
                (extractWindDirection closestForecast)
                (extractPrecipitation closestForecast)
                (extractHumidity closestForecast)
                (extractPressure closestForecast)
                (extractCloudCover closestForecast)
                None
                targetTimestamp
                name
                (calculateConfidence minDiff))
      end
  end.

Definition parseResponse (data : Response) (targetTimestamp : Z)
  : outcome ProviderRecord.t :=
  match parse data targetTimestamp with
  | Ok weatherData => Ok weatherData
  | Thrown message => Thrown ("Error parsing Meteored data: " ++ message)
  end.

Definition handleError (error : RequestError) : string :=
  match error with
  | HttpError status _ =>
      if status =? 429 then "Meteored rate limit exceeded"
      else if (status =? 401) || (status =? 403) then "Meteored API key invalid or expired"
      else if status =? 404 then "Meteored location not found"
      else ("Meteored API error: " ++ decimal status)%string
  | Aborted => "Meteored API timeout"
  | OtherError message => ("Meteored connection error: " ++ message)%string
  end.

Definition getWeatherForPoint (apiKey : bool) (net : NetResult Response) (timestamp : Z)
  : outcome ProviderRecord.t :=
  if negb apiKey then Thrown "Meteored API key not configured"
  else
    match net with
    | Responded data =>
        match parseResponse data timestamp with
        | Ok weatherData => Ok weatherData
        | Thrown message => Thrown (handleError (OtherError message))
        end
    | Failed error => Thrown (handleError error)
    end.

(** [parseResponse] when the target is an Invalid Date: after the checks
    of the structure, [targetDate.toISOString()] throws a RangeError. *)
Definition parse_invalid (data : Response) : outcome ProviderRecord.t :=
  match weather data with
  | None => Thrown "Invalid Meteored response format"
  | Some w =>
      match forecast w with
      | None => Thrown "Invalid Meteored response format"
      | Some [] => Thrown "Cannot read properties of undefined (reading 'date')"
      | Some (f0 :: _) => Thrown "Invalid time value"
      end
  end.

Definition parseResponse_invalid (data : Response) : outcome ProviderRecord.t :=
  match parse_invalid data with
  | Ok weatherData => Ok weatherData
  | Thrown message => Thrown ("Error parsing Meteored data: " ++ message)
  end.

(** [getWeatherForPoint] when [timestamp] is an Invalid Date. *)
Definition getWeatherForPoint_invalid (apiKey : bool) (net : NetResult Response)
  : outcome ProviderRecord.t :=
  if negb apiKey then Thrown "Meteored API key not configured"
  else
    match net with
    | Responded data =>
        match parseResponse_invalid data with
        | Ok weatherData => Ok weatherData
        | Thrown message => Thrown (handleError (OtherError message))
        end
    | Failed error => Thrown (handleError error)
    end.
End Meteored.

(** ** The world the service runs in *)

(** Per-hour API statistics, the JSON [logApiCall] stores. *)
Record ApiStats : Type := {
  stat_calls : Q;
  stat_successes : Q;
  stat_errors : Q;
  stat_totalResponseTime : Q;
  stat_avgResponseTime : Q
}.

(** A Redis string, by what it encodes: a decimal counter, the JSON of a
    provider record, or the JSON of API statistics. *)
Inductive Stored : Type :=
| SInt (n : Z)
| SRecord (r : ProviderRecord.t)
| SStats (s : ApiStats).

(** A key of the Redis server: its value and, if it is volatile, the time
    (epoch milliseconds) at which it expires. *)
Record Entry : Type := {
  stored : Stored;
  expireAt : option Z
}.

(** The upstream services: what each one answers to the [n]-th adapter call
    of the process, for the coordinates asked. *)
Record Upstream : Type := {
  meteoblue_api : nat -> Q -> Q -> NetResult Meteoblue.Response;
  aemet_api : nat -> Q -> Q -> NetResult Aemet.Envelope;
  windy_api : nat -> Q -> Q -> NetResult Windy.Response;
  meteored_api : nat -> Q -> Q -> NetResult Meteored.Response
}.

(** What does not change while the process runs: which API keys the
    environment sets, the upstream services, and the rendering of a time as
    the first 13 characters of its ISO string (date and hour). *)
Record Env : Type := {
  apiKey : Provider -> bool;
  upstream : Upstream;
  isoHour : Z -> string
}.

(** An adapter invocation: provider, latitude, longitude, and the time of
    the target [Date], [None] for an Invalid Date. *)
Definition Call : Type := Provider * Q * Q * option Z.

Record World : Type := {
  env : Env;
  (** [RedisClient.client] is not null *)
  client : bool;
  (** [RedisClient.isConnected] *)
  isConnected : bool;
  (** the server answers commands; when it does not, a command's promise
      rejects *)
  responsive : bool;
  (** the keys of the Redis server *)
  db : gmap string Entry;
  (** [Date.now()], epoch milliseconds *)
  now : Z;
  (** the adapter invocations made so far, oldest first *)
  calls : list Call
}.

Definition with_db (d : gmap string Entry) (w : World) : World :=
  {| env := env w; client := client w; isConnected := isConnected w;
     responsive := responsive w; db := d; now := now w; calls := calls w |}.

Definition with_calls (c : list Call) (w : World) : World :=
  {| env := env w; client := client w; isConnected := isConnected w;
     responsive := responsive w; db := db w; now := now w; calls := c |}.

(** Time passes between requests. *)
Definition advance (ms : Z) (w : World) : World :=
  {| env := env w; client := client w; isConnected := isConnected w;
     responsive := responsive w; db := db w; now := now w + ms; calls := calls w |}.

(** A computation: from a world to an outcome and the world after it. *)
Definition M (A : Type) : Type := World -> outcome A * World.

Definition ret {A} (a : A) : M A := fun w => (Ok a, w).
Definition throw {A} (message : string) : M A := fun w => (Thrown message, w).

Definition bind {A B} (m : M A) (k : A -> M B) : M B :=
  fun w =>
    match m w with
    | (Ok a, w') => k a w'
    | (Thrown message, w') => (Thrown message, w')
    end.

(** [try { m } catch (error) { handler(error.message) }]. *)
Definition try_catch {A} (m : M A) (handler : string -> M A) : M A :=
  fun w =>
    match m w with
    | (Ok a, w') => (Ok a, w')
    | (Thrown message, w') => handler message w'
    end.

Definition lift {A} (o : outcome A) : M A := fun w => (o, w).

Notation "'let*' x ':=' m 'in' k" := (bind m (fun x => k))
  (at level 10, x pattern, m at level 100, k at level 200).

(** ** The Redis server, as the client library reaches it *)

Module Server.
Definition expired (e : Entry) (t : Z) : bool :=
  match expireAt e with
  | Some deadline => deadline <=? t
  | None => false
  end.

(** The entry of a key that exists and has not expired. *)
Definition live (w : World) (key : string) : option Entry :=
  match db w !! key with
  | Some e => if expired e (now w) then None else Some e
  | None => None
  end.

(** A command reaches the server only when the server is responsive. *)
Definition command {A} (run : World -> outcome A * World) : M A :=
  fun w => if responsive w then run w else (Thrown "Connection is closed.", w).

Definition GET (key : string) : M (option Stored) :=
  command (fun w => (Ok (option_map stored (live w key)), w)).

Definition SET (key : string) (v : Stored) : M unit :=
  command (fun w => (Ok tt, with_db (<[key := {| stored := v; expireAt := None |}]> (db w)) w)).

(** SETEX refuses an expiry that is not positive. *)
Definition SETEX (key : string) (seconds : Z) (v : Stored) : M unit :=
  command (fun w =>
    if seconds <=? 0 then (Thrown "ERR invalid expire time in 'setex' command", w)
    else
      (Ok tt,
       with_db (<[key := {| stored := v; expireAt := Some (now w + seconds * 1000) |}]> (db w))
         w)).

(** INCR: a missing (or expired) key counts from 0 and is created without
    expiry; an existing counter keeps its expiry.  The 64-bit range of a
    Redis counter is not modelled. *)
Definition INCR (key : string) : M Z :=
  command (fun w =>
    match live w key with
    | None =>
        (Ok 1, with_db (<[key := {| stored := SInt 1; expireAt := None |}]> (db w)) w)
    | Some e =>
        match stored e with
        | SInt n =>
            (Ok (n + 1),
             with_db (<[key := {| stored := SInt (n + 1); expireAt := expireAt e |}]> (db w)) w)
        | _ => (Thrown "ERR value is not an integer or out of range", w)
        end
    end).

(** EXPIRE on a live key; a deadline that is not in the future leaves the
    key expired, that is, gone. *)
Definition EXPIRE (key : string) (seconds : Z) : M unit :=
  command (fun w =>
    match live w key with
    | None => (Ok tt, w)
    | Some e =>
        (Ok tt,
         with_db (<[key := {| stored := stored e;
                              expireAt := Some (now w + seconds * 1000) |}]> (db w)) w)
    end).

(** TTL in seconds, rounded; -2 for a missing key, -1 for a key without
    expiry. *)
Definition TTL (key : string) : M Z :=
  command (fun w =>
    match live w key with
    | None => (Ok (-2), w)
    | Some e =>
        match expireAt e with
        | None => (Ok (-1), w)
        | Some deadline => (Ok ((deadline - now w + 500) / 1000), w)
        end
    end).
End Server.

(** ** cache/redisClient.js *)

Module RedisClient.
(** [connect()].  The client object is created with [lazyConnect: true]:
    the library opens no connection until [client.connect()] is called or a
    command is sent through the client.  The handlers registered here are the
    only writers of [isConnected] after the constructor: it becomes [true]
    on the client's ['connect'] event and [false] on ['error'] and
    ['close'].  Creating the client emits none of them. *)
Definition connect (w : World) : World :=
  {| env := env w; client := true; isConnected := isConnected w;
     responsive := responsive w; db := db w; now := now w; calls := calls w |}.

(** [constructor()], run once, when the module is first required. *)
Definition constructor_ (w : World) : World :=
  connect {| env := env w; client := false; isConnected := false;
             responsive := responsive w; db := db w; now := now w; calls := calls w |}.

Definition isAvailable (w : World) : bool := client w && isConnected w.

Definition get (key : string) : M (option Stored) :=
  fun w =>
    if negb (isAvailable w) then (Ok None, w)
    else try_catch (Server.GET key) (fun _ => ret None) w.

(** [set(key, value, ttl = null)]; [if (ttl)] takes a zero [ttl] for
    none. *)
Definition set (key : string) (value : Stored) (ttl : option Z) : M bool :=
  fun w =>
    if negb (isAvailable w) then (Ok false, w)
    else
      try_catch
        (let* _ :=
           match ttl with
           | Some seconds =>
               if seconds =? 0 then Server.SET key value
               else Server.SETEX key seconds value
           | None => Server.SET key value
           end in
         ret true)
        (fun _ => ret false) w.

Definition setex (key : string) (ttl : Z) (value : Stored) : M bool :=
  set key value (Some ttl).

Definition incr (key : string) : M Z :=
  fun w =>
    if negb (isAvailable w) then (Ok 1, w)
    else try_catch (Server.INCR key) (fun _ => ret 1) w.

Definition expire (key : string) (seconds : Z) : M bool :=
  fun w =>
    if negb (isAvailable w) then (Ok false, w)
    else try_catch (let* _ := Server.EXPIRE key seconds in ret true)
                   (fun _ => ret false) w.

Definition ttl (key : string) : M Z :=
  fun w =>
    if negb (isAvailable w) then (Ok (-1), w)
    else try_catch (Server.TTL key) (fun _ => ret (-1)) w.
End RedisClient.

(** ** cache/rateLimiter.js *)

Module RateLimiter.
Record Limit : Type := { max : Z; window : Z }.

(** Límites por API (por hora), as the constructor sets them. *)
Definition limits : gmap string Limit :=
  <["meteoblue" := {| max := 200; window := 3600 |}]>
  (<["aemet" := {| max := 500; window := 3600 |}]>
  (<["windy" := {| max := 400; window := 3600 |}]>
  (<["meteored" := {| max := 300; window := 3600 |}]> ∅))).

Definition key_of (apiName userId : string) : string :=
  ("ratelimit:" ++ apiName ++ ":" ++ userId)%string.

Definition checkRateLimit (limits : gmap string Limit) (apiName userId : string) : M bool :=
  try_catch
    (let key := key_of apiName userId in
     match limits !! apiName with
     | None => ret true
     | Some limit =>
         let* current := RedisClient.incr key in
         let* _ :=
           (if current =? 1 then RedisClient.expire key (window limit) else ret false) in
         if current >? max limit
         then (let* ttl := RedisClient.ttl key in ret false)
         else ret true
     end)
    (fun _ => ret true).

Definition stats_key (apiName : string) (w : World) : string :=
  ("api_stats:" ++ apiName ++ ":" ++ isoHour (env w) (now w))%string.

(** [JSON.parse] of a stored statistics string. *)
Definition parse_stats (v : Stored) : outcome ApiStats :=
  match v with
  | SStats s => Ok s
  | _ => Thrown "Unexpected token in JSON"
  end.

(** [logApiCall(apiName, success = true, responseTime = 0)]. *)
Definition logApiCall (apiName : string) (success : bool) (responseTime : Q) : M unit :=
  try_catch
    (fun w =>
       let key := stats_key apiName w in
       let stats :=
         {| stat_calls := 1;
            stat_successes := if success then 1 else 0;
            stat_errors := if success then 0 else 1;
            stat_totalResponseTime := responseTime;
            stat_avgResponseTime := responseTime |} in
       (let* existing := RedisClient.get key in
        let* stats :=
          match existing with
          | Some v =>
              let* existingStats := lift (parse_stats v) in
              let calls := (stat_calls stats + stat_calls existingStats)%Q in
              let total :=
                (stat_totalResponseTime stats + stat_totalResponseTime existingStats)%Q in
              ret {| stat_calls := calls;
                     stat_successes := (stat_successes stats + stat_successes existingStats)%Q;
                     stat_errors := (stat_errors stats + stat_errors existingStats)%Q;
                     stat_totalResponseTime := total;
                     stat_avgResponseTime := (total / calls)%Q |}
          | None => ret stats
          end in
        let* _ := RedisClient.setex key 86400 (SStats stats) in
        ret tt) w)
    (fun _ => ret tt).
End RateLimiter.

(** ** Acquisition (index.js, getWeatherForPoint and getWeatherForWaypoints) *)

Definition providerPriority : list Provider := [meteoblue; aemet; windy; meteored].

(** The receiver of [.toFixed(3)]: anything but a number throws a
    TypeError. *)
Definition number_of (v : jsval) : outcome Q :=
  match v with
  | JNum q => Ok q
  | JUndefined | JNull => Thrown "Cannot read properties of undefined (reading 'toFixed')"
  | _ => Thrown "toFixed is not a function"
  end.

(** An integer as a template literal renders it. *)
Definition integer_string (n : Z) : string := NilZero.string_of_int (Z.to_int n).

Definition cacheKey_of (providerName : Provider) (lat lon : Q) (timestamp : Z) : string :=
  ("weather:" ++ provider_name providerName ++ ":" ++ toFixed 3 lat ++ ":" ++ toFixed 3 lon
     ++ ":" ++ integer_string (timestamp / 3600000))%string.

(** [JSON.parse(cached)] of a cached provider record. *)
Definition parse_record (v : Stored) : outcome ProviderRecord.t :=
  match v with
  | SRecord r => Ok r
  | _ => Thrown "Unexpected token in JSON"
  end.

(** [provider.getWeatherForPoint(lat, lon, timestamp)]: the invocation is
    recorded, the service of that provider answers, the adapter parses. *)
Definition adapter_call (p : Provider) (lat lon : Q) (timestamp : Z) : M ProviderRecord.t :=
  fun w =>
    let n := length (calls w) in
    let key := apiKey (env w) p in
    let services := upstream (env w) in
    let result :=
      match p with
      | meteoblue => Meteoblue.getWeatherForPoint key (meteoblue_api services n lat lon) timestamp
      | aemet => Aemet.getWeatherForPoint key lat lon (aemet_api services n lat lon) timestamp
      | windy => Windy.getWeatherForPoint key (windy_api services n lat lon) timestamp
      | meteored => Meteored.getWeatherForPoint key (meteored_api services n lat lon) timestamp
      end in
    (result, with_calls (calls w ++ [(p, lat, lon, Some timestamp)]) w).

(** The [try] block of the loop body for one provider.  [weatherSources] is
    the array as it stands; the result is the array after the block. *)
Definition acquire_try (providerName : Provider) (point : Waypoint) (timestamp : Z)
    (weatherSources : list Source.t) : M (list Source.t) :=
  let* lat := lift (number_of (lat point)) in
  let* lon := lift (number_of (lon point)) in
  let cacheKey := cacheKey_of providerName lat lon timestamp in
  let* cached := RedisClient.get cacheKey in
  match cached with
  | Some text =>
      let* data := lift (parse_record text) in
      ret (weatherSources ++ [Source.mk providerName data true])
  | None =>
      let* canMakeRequest :=
        RateLimiter.checkRateLimit RateLimiter.limits (provider_name providerName) "global" in
      if negb canMakeRequest then ret weatherSources
      else
        let* weatherData := adapter_call providerName lat lon timestamp in
        let* _ := RedisClient.setex cacheKey 1800 (SRecord weatherData) in
        let weatherSources := weatherSources ++ [Source.mk providerName weatherData false] in
        let* _ := RateLimiter.logApiCall (provider_name providerName) true 0 in
        ret weatherSources
  end.

(** One iteration of [for (const providerName of providerPriority)].  The
    [catch] block sees the array as it was before the [try]: the only
    statement after the [push] is [logApiCall], which never throws. *)
Definition acquire (providerName : Provider) (point : Waypoint) (timestamp : Z)
    (weatherSources : list Source.t) : M (list Source.t) :=
  fun w =>
    if negb (apiKey (env w) providerName) then (Ok weatherSources, w)
    else
      try_catch (acquire_try providerName point timestamp weatherSources)
        (fun _ =>
           let* _ := RateLimiter.logApiCall (provider_name providerName) false 0 in
           ret weatherSources) w.

(** The provider loop of [getWeatherForPoint]. *)
Fixpoint collect (providers : list Provider) (point : Waypoint) (timestamp : Z)
    (weatherSources : list Source.t) : M (list Source.t) :=
  match providers with
  | [] => ret weatherSources
  | providerName :: rest =>
      let* weatherSources := acquire providerName point timestamp weatherSources in
      collect rest point timestamp weatherSources
  end.

Definition NoWeatherData : string :=
  "No se pudieron obtener datos meteorológicos de ninguna fuente".

Definition getWeatherForPoint (point : Waypoint) (timestamp : Z) : M FusedRecord.t :=
  let* weatherSources := collect providerPriority point timestamp [] in
  match weatherSources with
  | [] => throw NoWeatherData
  | _ => lift (mergeWeatherData weatherSources)
  end.

(** *** Acquisition for an Invalid Date

    [getWeatherForPoint] is also reached with a [timestamp] that is an
    Invalid Date.  [timestamp.getTime()] is NaN then, and the cache key ends
    in [NaN]. *)

Definition cacheKey_invalid (providerName : Provider) (lat lon : Q) : string :=
  ("weather:" ++ provider_name providerName ++ ":" ++ toFixed 3 lat ++ ":" ++ toFixed 3 lon
     ++ ":NaN")%string.

Definition adapter_call_invalid (p : Provider) (lat lon : Q) : M ProviderRecord.t :=
  fun w =>
    let n := length (calls w) in
    let key := apiKey (env w) p in
    let services := upstream (env w) in
    let result :=
      match p with
      | meteoblue => Meteoblue.getWeatherForPoint_invalid key (meteoblue_api services n lat lon)
      | aemet => Aemet.getWeatherForPoint_invalid key lat lon (aemet_api services n lat lon)
      | windy => Windy.getWeatherForPoint_invalid key (windy_api services n lat lon)
      | meteored => Meteored.getWeatherForPoint_invalid key (meteored_api services n lat lon)
      end in
    (result, with_calls (calls w ++ [(p, lat, lon, None)]) w).

Definition acquire_try_invalid (providerName : Provider) (point : Waypoint)
    (weatherSources : list Source.t) : M (list Source.t) :=
  let* lat := lift (number_of (lat point)) in
  let* lon := lift (number_of (lon point)) in
  let cacheKey := cacheKey_invalid providerName lat lon in
  let* cached := RedisClient.get cacheKey in
  match cached with
  | Some text =>
      let* data := lift (parse_record text) in
      ret (weatherSources ++ [Source.mk providerName data true])
  | None =>
      let* canMakeRequest :=
        RateLimiter.checkRateLimit RateLimiter.limits (provider_name providerName) "global" in
      if negb canMakeRequest then ret weatherSources
      else
        let* weatherData := adapter_call_invalid providerName lat lon in
        let* _ := RedisClient.setex cacheKey 1800 (SRecord weatherData) in
        let weatherSources := weatherSources ++ [Source.mk providerName weatherData false] in
        let* _ := RateLimiter.logApiCall (provider_name providerName) true 0 in
        ret weatherSources
  end.

Definition acquire_invalid (providerName : Provider) (point : Waypoint)
    (weatherSources : list Source.t) : M (list Source.t) :=
  fun w =>
    if negb (apiKey (env w) providerName) then (Ok weatherSources, w)
    else
      try_catch (acquire_try_invalid providerName point weatherSources)
        (fun _ =>
           let* _ := RateLimiter.logApiCall (provider_name providerName) false 0 in
           ret weatherSources) w.

Fixpoint collect_invalid (providers : list Provider) (point : Waypoint)
    (weatherSources : list Source.t) : M (list Source.t) :=
  match providers with
  | [] => ret weatherSources
  | providerName :: rest =>
      let* weatherSources := acquire_invalid providerName point weatherSources in
      collect_invalid rest point weatherSources
  end.

Definition getWeatherForPoint_invalid (point : Waypoint) : M FusedRecord.t :=
  let* weatherSources := collect_invalid providerPriority point [] in
  match weatherSources with
  | [] => throw NoWeatherData
  | _ => lift (mergeWeatherData weatherSources)
  end.

(** *** The waypoints of a route *)

(** Truncation toward zero. *)
Definition Qtrunc (q : Q) : Z := Z.quot (Qnum q) (Zpos (Qden q)).

(** [new Date(value)] on a number: the time of the date, [None] for an
    Invalid Date.  A value that is not finite, or beyond 8.64e15 ms on either
    side of the epoch, gives an Invalid Date; any other is truncated. *)
Definition TimeClip (value : number) : option Z :=
  match value with
  | Finite time =>
      if Qle_bool (Qabs time) 8640000000000000 then Some (Qtrunc time) else None
  | Infinity | NegInfinity | NaN => None
  end.

(** [new Date(now.getTime() + (waypoint.estimatedTimeFromStart || 0) * 60000)],
    the sum and the product on doubles. *)
Definition estimatedTime_of (now : Z) (waypoint : Waypoint) : option Z :=
  let minutes := Double.of_Q (or_zero (estimatedTimeFromStart waypoint)) in
  TimeClip (Double.value
              (Double.add (Double.of_Q (inject_Z now))
                          (Double.mul minutes (Double.of_Q 60000)))).

(** [estimatedTime.toISOString()] throws this RangeError on an Invalid
    Date. *)
Definition InvalidTimeValue : string := "Invalid time value".

(** The loop of [getWeatherForWaypoints], [now] being read once before it.
    Both the [try] block and the [catch] block end by rendering the estimated
    time with [toISOString()]: with an Invalid Date the [try] block throws
    after the acquisition, the [catch] block throws in turn, and the error
    leaves the loop. *)
Fixpoint waypoints_loop (now : Z) (waypoints : list Waypoint) (results : list WeatherResult.t)
  : M (list WeatherResult.t) :=
  match waypoints with
  | [] => ret results
  | waypoint :: rest =>
      let* results :=
        match estimatedTime_of now waypoint with
        | Some estimatedTime =>
            try_catch
              (let* weatherData := getWeatherForPoint waypoint estimatedTime in
               ret (results ++ [WeatherResult.mk waypoint (Some weatherData) None estimatedTime]))
              (fun message =>
                 ret (results ++ [WeatherResult.mk waypoint None (Some message) estimatedTime]))
        | None =>
            try_catch
              (let* weatherData := getWeatherForPoint_invalid waypoint in
               throw InvalidTimeValue)
              (fun message => throw InvalidTimeValue)
        end in
      waypoints_loop now rest results
  end.

Definition getWeatherForWaypoints (waypoints : list Waypoint) : M (list WeatherResult.t) :=
  fun w => waypoints_loop (now w) waypoints [] w.

(** ** HTTP endpoints (index.js) *)

(** What [req.body.waypoints] holds, by the cases the guard tells apart:
    a falsy value (missing, null, ...), a truthy value that is not an
    array, or an array of waypoints. *)
Inductive WaypointsField : Type :=
| WaypointsFalsy
| WaypointsNotArray
| WaypointsArray (waypoints : list Waypoint).

Inductive ResponseBody : Type :=
| ErrorBody (error details : string)
| RouteBody (weatherData : list WeatherResult.t) (risks : list Risk.t)
    (sources : list Provider) (processedAt : Z)
| PointBody (weather : FusedRecord.t) (location : jsval * jsval) (timestamp processedAt : Z).

Record Response : Type := {
  status : Z;
  body : ResponseBody
}.

(** [app.post('/weather-for-route', ...)].  The [summary] of the response
    is a function of [weatherData] that never throws; it is left out. *)
Definition weather_for_route (waypoints : WaypointsField) : World -> Response * World :=
  fun w =>
    match waypoints with
    | WaypointsFalsy | WaypointsNotArray | WaypointsArray [] =>
        ({| status := 400;
            body := ErrorBody "Waypoints requeridos"
                      "Se requiere un array de waypoints válido" |}, w)
    | WaypointsArray waypoints =>
        match getWeatherForWaypoints waypoints w with
        | (Ok weatherResults, w') =>
            ({| status := 200;
                body := RouteBody weatherResults (identifyRisks weatherResults)
                          (getUsedSources weatherResults) (now w') |}, w')
        | (Thrown message, w') =>
            ({| status := 500;
                body := ErrorBody "Error obteniendo datos meteorológicos" message |}, w')
        end
    end.

(** [app.post('/weather-for-point', ...)].  [timestamp] is the time a
    truthy [req.body.timestamp] denotes, [None] for a falsy one. *)
Definition weather_for_point (lat lon : jsval) (timestamp : option Z)
  : World -> Response * World :=
  fun w =>
    if negb (truthy lat) || negb (truthy lon) then
      ({| status := 400;
          body := ErrorBody "Coordenadas requeridas"
                    "Se requieren latitud y longitud válidas" |}, w)
    else
      let targetTimestamp :=
        match timestamp with
        | Some t => t
        | None => now w
        end in
      let point := {| lat := lat; lon := lon; estimatedTimeFromStart := None |} in
      match getWeatherForPoint point targetTimestamp w with
      | (Ok weatherData, w') =>
          ({| status := 200;
              body := PointBody weatherData (lat, lon) targetTimestamp (now w') |}, w')
      | (Thrown message, w') =>
          ({| status := 500;
              body := ErrorBody "Error obteniendo datos meteorológicos" message |}, w')
      end.

(** ** The route summary (index.js, generateWeatherSummary) *)

(** [Math.min(...values)] and [Math.max(...values)] for any array. *)
Definition Math_min_of (values : list Q) : number :=
  match values with
  | [] => Infinity
  | first :: others => Finite (Math_min first others)
  end.

Definition Math_max_of (values : list Q) : number :=
  match values with
  | [] => NegInfinity
  | first :: others => Finite (Math_max first others)
  end.

(** [values.reduce((a, b) => a + b, 0)]. *)
Definition sum_reduce (values : list Q) : Q := fold_left Qplus values 0%Q.

(** [Math.round(sum / values.length)]; for an empty array 0 / 0 is NaN. *)
Definition rounded_average (values : list Q) : number :=
  match values with
  | [] => NaN
  | _ :: _ =>
      Finite (Math_round (sum_reduce values / inject_Z (Z.of_nat (length values)))%Q)
  end.

Module Summary.
Record Range : Type := {
  min : number;
  max : number;
  avg : number
}.

Inductive t : Type :=
| Message (message : string)
| Stats (temperatureRange windRange : Range) (totalPrecipitation : Q)
    (dataPoints : nat) (coveragePercentage : Q).
End Summary.

(** [weatherResults.filter(r => r.weather)], by the weather of each. *)
Fixpoint validResults_of (weatherResults : list WeatherResult.t) : list FusedRecord.t :=
  match weatherResults with
  | [] => []
  | result :: rest =>
      match WeatherResult.weather result with
      | Some weather => weather :: validResults_of rest
      | None => validResults_of rest
      end
  end.

Definition range_of (values : list Q) : Summary.Range :=
  {| Summary.min := Math_min_of values;
     Summary.max := Math_max_of values;
     Summary.avg := rounded_average values |}.

Definition generateWeatherSummary (weatherResults : list WeatherResult.t) : Summary.t :=
  let validResults := validResults_of weatherResults in
  match validResults with
  | [] => Summary.Message "No se pudieron obtener datos meteorológicos válidos"
  | _ :: _ =>
      let temperatures := non_null (map FusedRecord.temperature validResults) in
      let windSpeeds := non_null (map FusedRecord.windSpeed validResults) in
      let precipitations := non_null (map FusedRecord.precipitation validResults) in
      Summary.Stats
        (range_of temperatures)
        (range_of windSpeeds)
        (sum_reduce precipitations)
        (length validResults)
        (Math_round (inject_Z (Z.of_nat (length validResults))
                     / inject_Z (Z.of_nat (length weatherResults)) * 100)%Q)
  end.

(** ** More of cache/redisClient.js: del, exists, flushall *)

Module ServerKeys.
Definition DEL (key : string) : M unit :=
  Server.command (fun w => (Ok tt, with_db (delete key (db w)) w)).

(** EXISTS answers 1 for a live key and 0 otherwise. *)
Definition EXISTS (key : string) : M Z :=
  Server.command (fun w =>
    (Ok (match Server.live w key with Some _ => 1 | None => 0 end), w)).

Definition FLUSHALL : M unit :=
  Server.command (fun w => (Ok tt, with_db ∅ w)).
End ServerKeys.

Module RedisClientKeys.
Definition del (key : string) : M bool :=
  fun w =>
    if negb (RedisClient.isAvailable w) then (Ok false, w)
    else try_catch (let* _ := ServerKeys.DEL key in ret true) (fun _ => ret false) w.

Definition exists_ (key : string) : M bool :=
  fun w =>
    if negb (RedisClient.isAvailable w) then (Ok false, w)
    else try_catch (let* result := ServerKeys.EXISTS key in ret (result =? 1))
                   (fun _ => ret false) w.

Definition flushall : M bool :=
  fun w =>
    if negb (RedisClient.isAvailable w) then (Ok false, w)
    else try_catch (let* _ := ServerKeys.FLUSHALL in ret true) (fun _ => ret false) w.
End RedisClientKeys.

(** ** More of cache/rateLimiter.js: status, reset, limits, statistics *)

Module RateLimiterStatus.
(** [parseInt] of a stored string: the counter it spells, or NaN for
    JSON text. *)
Definition parseInt_stored (v : Stored) : option Z :=
  match v with
  | SInt n => Some n
  | _ => None
  end.

(** [getRemainingRequests]; [None] is [null].  A stored string is never
    empty, so [current ? parseInt(current) : 0] parses whatever is there. *)
Definition getRemainingRequests (limits : gmap string RateLimiter.Limit)
    (apiName userId : string) : M (option number) :=
  try_catch
    (let key := RateLimiter.key_of apiName userId in
     match limits !! apiName with
     | None => ret None
     | Some limit =>
         let* current := RedisClient.get key in
         match current with
         | Some text =>
             match parseInt_stored text with
             | Some used =>
                 ret (Some (Finite (inject_Z (Z.max 0 (RateLimiter.max limit - used)))))
             | None => ret (Some NaN)
             end
         | None => ret (Some (Finite (inject_Z (Z.max 0 (RateLimiter.max limit - 0)))))
         end
     end)
    (fun _ => ret None).

(** [getResetTime]: the time at which the window ends, [None] for [null]. *)
Definition getResetTime (apiName userId : string) : M (option Z) :=
  try_catch
    (let key := RateLimiter.key_of apiName userId in
     let* ttl := RedisClient.ttl key in
     if ttl >? 0 then (fun w => (Ok (Some (now w + ttl * 1000)), w))
     else ret None)
    (fun _ => ret None).

Record Status : Type := {
  limit : Z;
  remaining : option number;
  resetTime : option Z;
  windowSeconds : Z
}.

Definition getStatus (limits : gmap string RateLimiter.Limit) (apiName userId : string)
  : M (option Status) :=
  try_catch
    (match limits !! apiName with
     | None => ret None
     | Some l =>
         let* remaining := getRemainingRequests limits apiName userId in
         let* resetTime := getResetTime apiName userId in
         ret (Some {| limit := RateLimiter.max l;
                      remaining := remaining;
                      resetTime := resetTime;
                      windowSeconds := RateLimiter.window l |})
     end)
    (fun _ => ret None).

Definition resetLimits (apiName userId : string) : M bool :=
  try_catch
    (let key := RateLimiter.key_of apiName userId in
     let* _ := RedisClientKeys.del key in
     ret true)
    (fun _ => ret false).

(** [setLimit] replaces or adds the entry of [this.limits]. *)
Definition setLimit (limits : gmap string RateLimiter.Limit) (apiName : string)
    (maxRequests windowSeconds : Z) : gmap string RateLimiter.Limit :=
  <[apiName := {| RateLimiter.max := maxRequests; RateLimiter.window := windowSeconds |}]> limits.

(** What [getApiStats] returns; [successRate] and [errorRate] are set only
    when there were calls. *)
Record Report : Type := {
  totalCalls : Q;
  successes : Q;
  errors : Q;
  avgResponseTime : Q;
  hourlyBreakdown : list (string * ApiStats);
  successRate : option Q;
  errorRate : option Q
}.

Definition hour_key (apiName : string) (hour : string) : string :=
  ("api_stats:" ++ apiName ++ ":" ++ hour)%string.

(** The loop [for (let i = 0; i < hours; i++)], with [remaining] iterations
    to go from index [i]. *)
Fixpoint hours_loop (iso : Z -> string) (apiName : string) (now : Z)
    (remaining : nat) (i : Z) (stats : Report) : M Report :=
  match remaining with
  | O => ret stats
  | S remaining' =>
      let hour := iso (now - i * 60 * 60 * 1000) in
      let* hourStats := RedisClient.get (hour_key apiName hour) in
      match hourStats with
      | Some text =>
          let* parsed := lift (RateLimiter.parse_stats text) in
          hours_loop iso apiName now remaining' (i + 1)
            {| totalCalls := (totalCalls stats + stat_calls parsed)%Q;
               successes := (successes stats + stat_successes parsed)%Q;
               errors := (errors stats + stat_errors parsed)%Q;
               avgResponseTime := avgResponseTime stats;
               hourlyBreakdown := hourlyBreakdown stats ++ [(hour, parsed)];
               successRate := successRate stats;
               errorRate := errorRate stats |}
      | None => hours_loop iso apiName now remaining' (i + 1) stats
      end
  end.

(** [getApiStats(apiName, hours = 24)]; [None] is the [null] of the
    [catch]. *)
Definition getApiStats (apiName : string) (hours : nat) : M (option Report) :=
  try_catch
    (fun w =>
       (let* stats :=
          hours_loop (isoHour (env w)) apiName (now w) hours 0
            {| totalCalls := 0; successes := 0; errors := 0; avgResponseTime := 0;
               hourlyBreakdown := []; successRate := None; errorRate := None |} in
        if js_gt (totalCalls stats) 0
        then ret (Some {| totalCalls := totalCalls stats;
                          successes := successes stats;
                          errors := errors stats;
                          avgResponseTime := avgResponseTime stats;
                          hourlyBreakdown := hourlyBreakdown stats;
                          successRate := Some (successes stats / totalCalls stats * 100)%Q;
                          errorRate := Some (errors stats / totalCalls stats * 100)%Q |})
        else ret (Some stats)) w)
    (fun _ => ret None).
End RateLimiterStatus.

(** ** The status endpoint (index.js, GET /providers-status) *)

Record ProviderStatus : Type := {
  available : bool;
  configured : bool;
  rateLimitStatus : option RateLimiterStatus.Status;
  status_error : option string
}.

(** The loop over [Object.entries(providers)], in the order the object
    lists them. *)
Fixpoint providers_status_loop (providers : list Provider)
    (status : list (string * ProviderStatus)) : M (list (string * ProviderStatus)) :=
  match providers with
  | [] => ret status
  | p :: rest =>
      let* status :=
        try_catch
          (fun w =>
             (let* rateLimitStatus :=
                RateLimiterStatus.getStatus RateLimiter.limits (provider_name p) "global" in
              ret (status ++ [(provider_name p,
                               {| available := apiKey (env w) p;
                                  configured := apiKey (env w) p;
                                  rateLimitStatus := rateLimitStatus;
                                  status_error := None |})])) w)
          (fun message =>
             fun w =>
               (Ok (status ++ [(provider_name p,
                                {| available := false;
                                   configured := apiKey (env w) p;
                                   rateLimitStatus := None;
                                   status_error := Some message |})]), w)) in
      providers_status_loop rest status
  end.

Definition providers_status : M (list (string * ProviderStatus)) :=
  providers_status_loop [meteoblue; aemet; windy; meteored] [].

(** ** Notions the properties are stated with *)

(** [p] is the provider of highest priority weight among [providers]. *)
Definition highest_priority (providers : list Provider) (p : Provider) : Prop :=
  In p providers /\ forall q, In q providers -> priority q <= priority p.

(** [d] is the spread of [values]: their maximum minus their minimum. *)
Definition spread_of (values : list Q) (d : Q) : Prop :=
  exists hi lo,
    In hi values /\ In lo values /\
    (forall v, In v values -> (lo <= v)%Q /\ (v <= hi)%Q) /\
    (d == hi - lo)%Q.

(** The spread of an array of at least two numbers as the code computes
    it: the double nearest to the difference of the doubles of its maximum
    and its minimum. *)
Definition computed_spread (values : list Q) : option number :=
  match values with
  | first :: ((_ :: _) as others) =>
      Some (js_sub (Math_max first others) (Math_min first others))
  | _ => None
  end.

(** The store is reachable: the client exists, is connected, and the
    server answers. *)
Definition store_up (w : World) : Prop :=
  RedisClient.isAvailable w = true /\ responsive w = true.

(** The store is unavailable: the client is missing or disconnected, or the
    server does not answer. *)
Definition store_down (w : World) : Prop :=
  RedisClient.isAvailable w = false \/ responsive w = false.

(** A live counter under [key]: its value and expiry deadline. *)
Definition counter_at (w : World) (key : string) (n : Z) (deadline : option Z) : Prop :=
  Server.live w key = Some {| stored := SInt n; expireAt := deadline |}.

(** Successive rate-limit checks for one provider and scope, each after the
    given delay (milliseconds) from the previous one; the answers, oldest
    first, and the world after the last check. *)
Fixpoint run_checks (limits : gmap string RateLimiter.Limit) (apiName userId : string)
    (delays : list Z) (w : World) : list bool * World :=
  match delays with
  | [] => ([], w)
  | d :: rest =>
      match RateLimiter.checkRateLimit limits apiName userId (advance d w) with
      | (Ok allowed, w') =>
          let '(answers, w'') := run_checks limits apiName userId rest w' in
          (allowed :: answers, w'')
      | (Thrown _, w') => ([], w')
      end
  end.

(** The answers of a limiter that allows the checks numbered up to [m] and
    denies the later ones, for the checks numbered [from], [from + 1], ...
    ([count] of them). *)
Definition answers_up_to (m : Z) (from : Z) (count : nat) : list bool :=
  map (fun i => from + Z.of_nat i <=? m) (seq 0 count).

Definition sum_list (l : list Z) : Z := fold_right Z.add 0 l.

Definition call_provider (c : Call) : Provider :=
  let '(p, _, _, _) := c in p.

(** The adapter invocations made so far for one provider. *)
Definition calls_of (p : Provider) (w : World) : list Call :=
  List.filter (fun c => bool_decide (call_provider c = p)) (calls w).

(** What a computation may do to the world, for a set of protected keys and
    a set of permitted adapter calls: the environment, the connection and
    the clock stay, protected keys keep their entries, and the calls made
    are permitted ones. *)
Definition changes_only (protected : string -> Prop) (permitted : Call -> Prop)
    (w w' : World) : Prop :=
  env w' = env w /\
  client w' = client w /\ isConnected w' = isConnected w /\ responsive w' = responsive w /\
  now w' = now w /\
  (forall k, protected k -> db w' !! k = db w !! k) /\
  (exists made, calls w' = calls w ++ made /\ Forall permitted made).

Definition respects {A} (protected : string -> Prop) (permitted : Call -> Prop) (m : M A)
  : Prop :=
  forall w o w', m w = (o, w') -> changes_only protected permitted w w'.

(** The route results, waypoint by waypoint, of a route whose estimated
    times are all valid dates: each waypoint is acquired in the world the
    previous one left; a successful acquisition gives an entry with the
    fused record and no error, a failed one an entry with null weather and
    the [NoWeatherData] message, and the route goes on. *)
Inductive route_entries (now : Z)
  : World -> list Waypoint -> list WeatherResult.t -> World -> Prop :=
| route_done (w : World) : route_entries now w [] [] w
| route_ok (w w1 w2 : World) (waypoint : Waypoint) (rest : list Waypoint)
    (estimatedTime : Z) (weatherData : FusedRecord.t) (results : list WeatherResult.t) :
    estimatedTime_of now waypoint = Some estimatedTime ->
    getWeatherForPoint waypoint estimatedTime w = (Ok weatherData, w1) ->
    route_entries now w1 rest results w2 ->
    route_entries now w (waypoint :: rest)
      (WeatherResult.mk waypoint (Some weatherData) None estimatedTime
         :: results) w2
| route_failed (w w1 w2 : World) (waypoint : Waypoint) (rest : list Waypoint)
    (estimatedTime : Z) (results : list WeatherResult.t) :
    estimatedTime_of now waypoint = Some estimatedTime ->
    getWeatherForPoint waypoint estimatedTime w = (Thrown NoWeatherData, w1) ->
    route_entries now w1 rest results w2 ->
    route_entries now w (waypoint :: rest)
      (WeatherResult.mk waypoint None (Some NoWeatherData) estimatedTime :: results) w2.

(** The estimated time of the waypoint is a valid date. *)
Definition valid_time (now : Z) (waypoint : Waypoint) : Prop :=
  exists estimatedTime, estimatedTime_of now waypoint = Some estimatedTime.


(** ** Sample inputs *)

(** A day of an AEMET municipal forecast and the record the adapter makes
    of it. *)
Definition sample_aemet_forecast : list Aemet.Forecast :=
  [ {| Aemet.prediccion := Some {| Aemet.dia := Some
        [ {| Aemet.temperatura :=
               Some {| Aemet.maxima := Some 31; Aemet.minima := Some 18; Aemet.media := None |};
             Aemet.viento :=
               Some [ {| Aemet.velocidad := Some 15; Aemet.direccion := Some "NO" |} ];
             Aemet.precipitacion := Some [ {| Aemet.value := Some 0%Q |} ];
             Aemet.humedadRelativa :=
               Some {| Aemet.maxima := Some 60; Aemet.minima := Some 35; Aemet.media := None |};
             Aemet.estadoCielo := Some [ {| Aemet.descripcion := Some "Despejado" |} ] |} ] |} |} ].

Definition sample_aemet_record : ProviderRecord.t :=
  ProviderRecord.mk (Some 31%Q) (Some 15%Q) (Some (DirText "NO")) (Some 0%Q) (Some 60%Q)
    None (Some 10%Q) None 1756720800000 "aemet" 0.80%Q.

(** Records of other providers for the same point. *)
Definition sample_meteoblue_record : ProviderRecord.t :=
  ProviderRecord.mk (Some 24%Q) (Some 12%Q) (Some (DirNum 270)) (Some 0%Q) (Some 55%Q)
    (Some 1015%Q) (Some 20%Q) (Some 20000%Q) 1756720800000 "meteoblue" 0.95%Q.

Definition sample_windy_record : ProviderRecord.t :=
  ProviderRecord.mk (Some 26%Q) (Some 14%Q) (Some (DirNum 3)) (Some 0%Q) None
    None None None 1756720800000 "windy" 0.90%Q.

(** The same Windy answer with another self-reported confidence. *)
Definition sample_windy_record_late : ProviderRecord.t :=
  ProviderRecord.mk (Some 26%Q) (Some 14%Q) (Some (DirNum 3)) (Some 0%Q) None
    None None None 1756720800000 "windy" 0.45%Q.

(** Three sources whose temperatures are 24, 26 and 31. *)
Definition sample_sources : list Source.t :=
  [Source.mk meteoblue sample_meteoblue_record false;
   Source.mk aemet sample_aemet_record false;
   Source.mk windy sample_windy_record true].

(** Two sources whose temperatures are the doubles of 5.7 and 0.7:
    6417629469002957 / 2^50 and 3152519739159347 / 2^52, which are 2^-52
    more than 5 apart. *)
Definition boundary_sources : list Source.t :=
  [Source.mk meteoblue
     (ProviderRecord.mk (Some (6417629469002957 # 1125899906842624)) (Some 12%Q)
        (Some (DirNum 270)) (Some 0%Q) None None None None 1756720800000 "meteoblue" 0.95%Q)
     false;
   Source.mk windy
     (ProviderRecord.mk (Some (3152519739159347 # 4503599627370496)) (Some 14%Q)
        (Some (DirNum 3)) (Some 0%Q) None None None None 1756720800000 "windy" 0.90%Q)
     false].

(** A route result in dense fog: visibility 0 m, everything else calm. *)
Definition sample_fog_result : WeatherResult.t :=
  WeatherResult.mk
    {| lat := JNum 40.4168; lon := JNum (-3.7038); estimatedTimeFromStart := Some 30%Q |}
    (Some (FusedRecord.mk (Some 12%Q) (Some 10%Q) (Some (DirNum 270)) (Some 0%Q) (Some 98%Q)
             (Some 1015%Q) (Some 100%Q) (Some 0%Q) [meteoblue] meteoblue 0.95%Q []
             (Some 1756720800000) (Some "meteoblue")))
    None
    1756720800000.

(** The same result with a visibility of 1 m. *)
Definition sample_mist_result : WeatherResult.t :=
  WeatherResult.mk
    {| lat := JNum 40.4168; lon := JNum (-3.7038); estimatedTimeFromStart := Some 30%Q |}
    (Some (FusedRecord.mk (Some 12%Q) (Some 10%Q) (Some (DirNum 270)) (Some 0%Q) (Some 98%Q)
             (Some 1015%Q) (Some 100%Q) (Some 1%Q) [meteoblue] meteoblue 0.95%Q []
             (Some 1756720800000) (Some "meteoblue")))
    None
    1756720800000.

(** A Windy answer with two time slots. *)
Definition sample_windy_response : Windy.Response :=
  {| Windy.ts := Some [1756720800000; 1756731600000];
     Windy.temp_surface := Some [Some 26%Q; Some 23%Q];
     Windy.wind_u_surface := Some [Some 3%Q; Some 4%Q];
     Windy.wind_v_surface := Some [Some 4%Q; Some 3%Q];
     Windy.precip_surface := Some [Some 0%Q; Some 0%Q];
     Windy.rh_surface := None;
     Windy.pressure_surface := None;
     Windy.cloudcover_surface := None |}.

(** Upstream services of which Windy and AEMET answer, meteoblue times out
    and Meteored reports an unknown location. *)
Definition sample_upstream : Upstream :=
  {| meteoblue_api := fun _ _ _ => Failed Aborted;
     aemet_api := fun _ _ _ =>
       Responded {| Aemet.estado := 200; Aemet.descripcion_estado := "exito";
                    Aemet.datos := Responded (Some sample_aemet_forecast) |};
     windy_api := fun _ _ _ => Responded sample_windy_response;
     meteored_api := fun _ _ _ => Failed (HttpError 404 None) |}.

Definition sample_env : Env :=
  {| apiKey := fun _ => true;
     upstream := sample_upstream;
     isoHour := fun _ => "2025-09-01T10" |}.

(** A process whose client is connected to an empty store. *)
Definition sample_world : World :=
  {| env := sample_env; client := true; isConnected := true; responsive := true;
     db := ∅; now := 1756720000000; calls := [] |}.

(** The same process with the Redis connection lost. *)
Definition sample_world_disconnected : World :=
  {| env := sample_env; client := true; isConnected := false; responsive := true;
     db := ∅; now := 1756720000000; calls := [] |}.

Definition sample_point : Waypoint :=
  {| lat := JNum 40.4168; lon := JNum (-3.7038); estimatedTimeFromStart := Some 30%Q |}.

(** Upstream answers that lack the temperature and the wind: a Windy body
    with only its time axis, an AEMET day with neither [temperatura] nor
    [viento], and a Meteored forecast with neither. *)
Definition bare_windy_response : Windy.Response :=
  {| Windy.ts := Some [1756720800000];
     Windy.temp_surface := None;
     Windy.wind_u_surface := None;
     Windy.wind_v_surface := None;
     Windy.precip_surface := Some [Some 0%Q];
     Windy.rh_surface := Some [Some 40%Q];
     Windy.pressure_surface := None;
     Windy.cloudcover_surface := None |}.

Definition bare_aemet_envelope : Aemet.Envelope :=
  {| Aemet.estado := 200;
     Aemet.descripcion_estado := "exito";
     Aemet.datos :=
       Responded (Some
         [ {| Aemet.prediccion := Some {| Aemet.dia := Some
               [ {| Aemet.temperatura := None;
                    Aemet.viento := None;
                    Aemet.precipitacion := None;
                    Aemet.humedadRelativa := None;
                    Aemet.estadoCielo := None |} ] |} |} ]) |}.

Definition bare_meteored_response : Meteored.Response :=
  {| Meteored.weather := Some {| Meteored.forecast := Some
       [ {| Meteored.date := 1756720800000;
            Meteored.temperature := None;
            Meteored.temp := None;
            Meteored.wind := None;
            Meteored.precipitation := None;
            Meteored.rain := None;
            Meteored.humidity := Some 40%Q;
            Meteored.pressure := None;
            Meteored.cloudiness := None;
            Meteored.clouds := None |} ] |} |}.

(** A first acquisition for [sample_point] in [sample_world]: its sources
    and the world it leaves. *)
Definition sample_first_acquisition : outcome (list Source.t) * World :=
  collect providerPriority sample_point 1756720900000 [] sample_world.


Definition sample_world1 : World := snd sample_first_acquisition.

(** The record the Windy adapter makes of [sample_windy_response]. *)
Definition sample_windy_fetched : ProviderRecord.t :=
  ProviderRecord.mk (Some 26%Q) (Some 18%Q) (Some (DirNum 3)) (Some 0%Q) None
    None None None 1756720800000 "windy" 0.90%Q.

(** A point some 30 m from [sample_point]. *)
Definition sample_point_nearby : Waypoint :=
  {| lat := JNum 40.41712; lon := JNum (-3.70421); estimatedTimeFromStart := None |}.

(** The first acquisition of the service as it starts: the client of the
    store exists and is not connected. *)
Definition sample_started_acquisition : outcome (list Source.t) * World :=
  collect providerPriority sample_point 1756720900000 []
    (RedisClient.constructor_ sample_world).

Definition sample_sources_started : list Source.t :=
  match fst sample_started_acquisition with
  | Ok sources => sources
  | Thrown _ => []
  end.

Definition sample_world_started1 : World := snd sample_started_acquisition.

(** A waypoint 1e20 minutes from the start of the route, and a service
    with no API key set. *)
Definition sample_point_far : Waypoint :=
  {| lat := JNum 40.4168; lon := JNum (-3.7038);
     estimatedTimeFromStart := Some (inject_Z (10 ^ 20)) |}.

Definition sample_world_unconfigured : World :=
  {| env := {| apiKey := fun _ => false; upstream := sample_upstream;
               isoHour := isoHour sample_env |};
     client := true; isConnected := false; responsive := true; db := ∅;
     now := 1756720900000; calls := [] |}.

(** ** More notions and sample inputs *)

(** [a] may come before [b] in an array sorted by the comparator. *)
Definition descending (a b : Provider) : Prop := priority b <= priority a.





(** A meteoblue body with two hourly slots, and the record the adapter
    makes of it for a target ten minutes after the first slot. *)
Definition sample_meteoblue_response : Meteoblue.Response :=
  {| Meteoblue.data_1h := Some
       {| Meteoblue.time := Some [1756720800000; 1756724400000];
          Meteoblue.temperature := Some [Some 27%Q; Some 28%Q];
          Meteoblue.windspeed := Some [Some 12%Q; Some 14%Q];
          Meteoblue.winddirection := Some [Some 270%Q; Some 280%Q];
          Meteoblue.precipitation := None;
          Meteoblue.relativehumidity := None;
          Meteoblue.sealevelpressure := None;
          Meteoblue.totalcloudcover := None;
          Meteoblue.visibility := None |} |}.

Definition sample_meteoblue_parsed : ProviderRecord.t :=
  ProviderRecord.mk (Some 27%Q) (Some 12%Q) (Some (DirNum 270)) (Some 0%Q) None
    None None None 1756720800000 "meteoblue" 0.95%Q.

(** A Meteored body with two forecasts, the first without any reading and
    the second with readings of zero. *)
Definition sample_meteored_response : Meteored.Response :=
  {| Meteored.weather := Some {| Meteored.forecast := Some
       [ {| Meteored.date := 1756720800000; Meteored.temperature := None;
            Meteored.temp := None; Meteored.wind := None;
            Meteored.precipitation := None; Meteored.rain := None;
            Meteored.humidity := None; Meteored.pressure := None;
            Meteored.cloudiness := None; Meteored.clouds := None |};
         {| Meteored.date := 1756731600000; Meteored.temperature := None;
            Meteored.temp := Some 0%Q;
            Meteored.wind := Some {| Meteored.speed := Some 0%Q;
                                     Meteored.direction := Some "N" |};
            Meteored.precipitation := Some 0%Q; Meteored.rain := None;
            Meteored.humidity := Some 0%Q; Meteored.pressure := Some 1013%Q;
            Meteored.cloudiness := Some 0%Q; Meteored.clouds := None |} ] |} |}.

(** The record fused for [sample_point] by the first acquisition: AEMET
    and Windy answered. *)
Definition sample_fused : FusedRecord.t :=
  FusedRecord.mk (Some 31%Q) (Some 15%Q) (Some (DirText "NO")) (Some 0%Q) (Some 60%Q)
    None (Some 10%Q) None [aemet; windy] aemet 0.80%Q [] (Some 1756720900000) (Some "aemet").

(** The store of a process that has used up Windy's hourly budget. *)
Definition sample_world_exhausted : World :=
  with_db (<["ratelimit:windy:global" :=
              {| stored := SInt 400; expireAt := Some 1756723600000 |}]> ∅) sample_world.

(** The sample process after meteoblue's rate-limit check, and after the
    call to its adapter that follows. *)
Definition sample_world_checked : World :=
  snd (RateLimiter.checkRateLimit RateLimiter.limits "meteoblue" "global" sample_world).

Definition sample_world_called : World :=
  snd (adapter_call meteoblue 40.4168 (-3.7038) 1756720900000 sample_world_checked).

(** * Properties *)

(** ** Numbers *)

Lemma js_gt_true (a b : Q) : js_gt a b = true <-> (b < a)%Q.
Proof.
  unfold js_gt. rewrite negb_true_iff, <- not_true_iff_false, Qle_bool_iff.
  split; [apply Qnot_le_lt | apply Qlt_not_le].
Qed.

Lemma js_gt_false (a b : Q) : js_gt a b = false <-> (a <= b)%Q.
Proof. unfold js_gt. rewrite negb_false_iff. apply Qle_bool_iff. Qed.

Lemma js_lt_true (a b : Q) : js_lt a b = true <-> (a < b)%Q.
Proof.
  unfold js_lt. rewrite negb_true_iff, <- not_true_iff_false, Qle_bool_iff.
  split; [apply Qnot_le_lt | apply Qlt_not_le].
Qed.

Lemma js_lt_false (a b : Q) : js_lt a b = false <-> (b <= a)%Q.
Proof. unfold js_lt. rewrite negb_false_iff. apply Qle_bool_iff. Qed.

Lemma js_gt_comp (a a' b : Q) : (a == a')%Q -> js_gt a b = js_gt a' b.
Proof. intros E. unfold js_gt. now rewrite E. Qed.

Lemma Qmax_pick (a b : Q) : Qmax a b = a \/ Qmax a b = b.
Proof. unfold Qmax, GenericMinMax.gmax. destruct (a ?= b)%Q; auto. Qed.

Lemma Qmin_pick (a b : Q) : Qmin a b = a \/ Qmin a b = b.
Proof. unfold Qmin, GenericMinMax.gmin. destruct (a ?= b)%Q; auto. Qed.

(** [Math.max] returns one of its arguments, and bounds all of them. *)
Lemma Math_max_in (others : list Q) (first : Q) :
  In (Math_max first others) (first :: others).
Proof.
  unfold Math_max. revert first.
  induction others as [|x others IH]; intros first; simpl; [now left|].
  destruct (IH (Qmax first x)) as [E | H]; [| now right; right].
  rewrite <- E.
  destruct (Qmax_pick first x) as [-> | ->]; [now left | now right; left].
Qed.

Lemma Math_max_upper (others : list Q) (first v : Q) :
  In v (first :: others) -> (v <= Math_max first others)%Q.
Proof.
  unfold Math_max. revert first v.
  induction others as [|x others IH]; intros first v; simpl.
  - intros [-> | []]. apply Qle_refl.
  - intros [-> | [-> | H]].
    + eapply Qle_trans; [apply Q.le_max_l | apply IH; now left].
    + eapply Qle_trans; [apply Q.le_max_r | apply IH; now left].
    + apply IH. now right.
Qed.

Lemma Math_min_in (others : list Q) (first : Q) :
  In (Math_min first others) (first :: others).
Proof.
  unfold Math_min. revert first.
  induction others as [|x others IH]; intros first; simpl; [now left|].
  destruct (IH (Qmin first x)) as [E | H]; [| now right; right].
  rewrite <- E.
  destruct (Qmin_pick first x) as [-> | ->]; [now left | now right; left].
Qed.

Lemma Math_min_lower (others : list Q) (first v : Q) :
  In v (first :: others) -> (Math_min first others <= v)%Q.
Proof.
  unfold Math_min. revert first v.
  induction others as [|x others IH]; intros first v; simpl.
  - intros [-> | []]. apply Qle_refl.
  - intros [-> | [-> | H]].
    + eapply Qle_trans; [apply IH; now left | apply Q.le_min_l].
    + eapply Qle_trans; [apply IH; now left | apply Q.le_min_r].
    + apply IH. now right.
Qed.

(** The range the code computes is the spread, whatever maximum and minimum
    the spread is witnessed by. *)
Lemma range_is_spread (first : Q) (others : list Q) (d : Q) :
  spread_of (first :: others) d ->
  (Math_max first others - Math_min first others == d)%Q.
Proof.
  intros (hi & lo & Hhi & Hlo & Hb & ->).
  assert (Math_max first others == hi)%Q as ->.
  { apply Qle_antisym.
    - apply Hb, Math_max_in.
    - now apply Math_max_upper. }
  assert (Math_min first others == lo)%Q as ->; [|reflexivity].
  apply Qle_antisym.
  - now apply Math_min_lower.
  - apply Hb, Math_min_in.
Qed.

(** ** Fusion *)

Lemma priority_inj (p q : Provider) : priority p = priority q -> p = q.
Proof. destruct p, q; simpl; intros H; try reflexivity; discriminate H. Qed.

Lemma highest_priority_unique (providers : list Provider) (p q : Provider) :
  highest_priority providers p -> highest_priority providers q -> p = q.
Proof.
  intros [Hp Hpmax] [Hq Hqmax]. apply priority_inj.
  specialize (Hpmax q Hq). specialize (Hqmax p Hp). lia.
Qed.

Lemma highest_priority_perm (l l' : list Provider) (p : Provider) :
  Permutation l l' -> highest_priority l p -> highest_priority l' p.
Proof.
  intros HP [Hin Hmax]. split.
  - eapply Permutation_in; eassumption.
  - intros q Hq. apply Hmax. eapply Permutation_in; [symmetry|]; eassumption.
Qed.

Lemma sort_insert_perm (x : Source.t) (l : list Source.t) :
  Permutation (sort_insert x l) (x :: l).
Proof.
  induction l as [|y l IH]; simpl; [reflexivity|].
  destruct (compareFn x y <=? 0); [reflexivity|].
  rewrite IH. apply perm_swap.
Qed.

Lemma Array_sort_perm (l : list Source.t) : Permutation (Array_sort l) l.
Proof.
  induction l as [|x l IH]; simpl; [reflexivity|].
  rewrite sort_insert_perm. now constructor.
Qed.

Lemma Array_sort_length (l : list Source.t) : length (Array_sort l) = length l.
Proof. apply Permutation_length, Array_sort_perm. Qed.

(** The head of the sorted array has the highest priority of all. *)
Lemma Array_sort_head (l : list Source.t) :
  l <> [] ->
  exists first rest,
    Array_sort l = first :: rest /\
    forall s, In s l -> priority (Source.provider s) <= priority (Source.provider first).
Proof.
  induction l as [|x l IH]; [congruence|]. intros _.
  destruct l as [|y l].
  - exists x, []. split; [reflexivity|]. intros s [-> | []]. lia.
  - destruct IH as (first & rest & E & Hmax); [congruence|].
    change (Array_sort (x :: y :: l)) with (sort_insert x (Array_sort (y :: l))).
    rewrite E. simpl. unfold compareFn.
    destruct (Z.leb_spec (priority (Source.provider first) - priority (Source.provider x)) 0).
    + exists x, (first :: rest). split; [reflexivity|].
      intros s [-> | Hs]; [lia|]. specialize (Hmax s Hs). lia.
    + exists first, (sort_insert x rest). split; [reflexivity|].
      intros s [-> | Hs]; [lia|]. now apply Hmax.
Qed.

(** Recording warnings leaves every other key of the merged record as it
    is. *)
Lemma detect_preserves (merged : FusedRecord.t) (sources : list Source.t) :
  let merged' := detectWeatherInconsistencies merged sources in
  FusedRecord.base merged' = FusedRecord.base merged /\
  FusedRecord.primary merged' = FusedRecord.primary merged /\
  FusedRecord.sources merged' = FusedRecord.sources merged.
Proof.
  unfold detectWeatherInconsistencies.
  destruct (length sources <? 2)%nat; [auto|].
  destruct (temperatures_of sources) as [|t0 [|t1 ts]];
    destruct (windSpeeds_of sources) as [|w0 [|w1 ws]];
    repeat match goal with |- context [if ?c then _ else _] => destruct c end;
    auto.
Qed.

(** What [mergeWeatherData] returns, in terms of the sorted array. *)
Lemma mergeWeatherData_spec (sources : list Source.t) (first : Source.t) (rest : list Source.t) :
  Array_sort sources = first :: rest ->
  exists f,
    mergeWeatherData sources = Ok f /\
    FusedRecord.primary f = Source.provider first /\
    FusedRecord.base f = Some (Source.data first) /\
    FusedRecord.sources f = map Source.provider (first :: rest).
Proof.
  intros E. unfold mergeWeatherData. rewrite E.
  eexists. split; [reflexivity|].
  destruct (1 <? length (first :: rest))%nat.
  - destruct (detect_preserves
                (Object_assign
                   (FusedRecord.mk None None None None None None None None
                      (map Source.provider (first :: rest)) (Source.provider first)
                      (calculateConfidence (first :: rest)) [] None None)
                   (Source.data first)) (first :: rest)) as (-> & -> & ->).
    repeat split. simpl. unfold FusedRecord.base. simpl. now destruct (Source.data first).
  - repeat split. unfold FusedRecord.base. simpl. now destruct (Source.data first).
Qed.

Lemma mergeWeatherData_primary (sources : list Source.t) :
  sources <> [] ->
  exists f s,
    mergeWeatherData sources = Ok f /\
    In s sources /\
    Source.provider s = FusedRecord.primary f /\
    FusedRecord.base f = Some (Source.data s) /\
    highest_priority (map Source.provider sources) (FusedRecord.primary f).
Proof.
  intros Hne.
  destruct (Array_sort_head sources Hne) as (first & rest & E & Hmax).
  destruct (mergeWeatherData_spec sources first rest E) as (f & Hf & Hp & Hb & _).
  assert (In first sources) as Hin.
  { eapply Permutation_in; [apply Array_sort_perm|]. rewrite E. now left. }
  exists f, first. rewrite Hp. repeat split; auto.
  - now apply in_map.
  - intros q Hq. apply in_map_iff in Hq as (s & <- & Hs). now apply Hmax.
Qed.

Lemma sample_aemet_record_parsed :
  Aemet.parseResponse (Some sample_aemet_forecast) 1756720800000 = Ok sample_aemet_record.
Proof. reflexivity. Qed.

(** The confidence of the merged record is the one the primary source
    reports for itself: [Object.assign] overwrites the value computed from
    the number of sources. *)
Lemma mergeWeatherData_confidence (sources : list Source.t) (f : FusedRecord.t) :
  mergeWeatherData sources = Ok f ->
  exists s,
    In s sources /\ Source.provider s = FusedRecord.primary f /\
    FusedRecord.confidence f = ProviderRecord.confidence (Source.data s).
Proof.
  intros Hf.
  assert (sources <> []) as Hne by (intros ->; discriminate Hf).
  destruct (mergeWeatherData_primary sources Hne) as (f' & s & Hf' & Hin & Hp & Hb & _).
  rewrite Hf in Hf'. injection Hf' as <-.
  exists s. repeat split; auto.
  unfold FusedRecord.base in Hb.
  destruct (FusedRecord.timestamp f), (FusedRecord.provider f); try discriminate.
  injection Hb as <-. reflexivity.
Qed.

Lemma calculateConfidence_steps (sources : list Source.t) :
  (length sources = 1%nat -> calculateConfidence sources = 0.75%Q) /\
  (length sources = 2%nat -> calculateConfidence sources = 0.85%Q) /\
  ((3 <= length sources)%nat -> calculateConfidence sources = 0.95%Q).
Proof.
  unfold calculateConfidence. repeat split; intros H.
  - now rewrite H.
  - now rewrite H.
  - destruct (length sources) as [|[|[|n]]]; try lia; reflexivity.
Qed.

(** C1 (does not hold of the code).  A single AEMET record, as the adapter
    produces it, is fused: the number of sources gives 0.75, but the merged
    record carries 0.80, the confidence AEMET reports for itself. *)
Theorem C1_confidence_overwritten_by_primary :
  let sources := [Source.mk aemet sample_aemet_record false] in
  calculateConfidence sources = 0.75%Q /\
  exists f,
    mergeWeatherData sources = Ok f /\
    FusedRecord.confidence f = 0.80%Q /\
    ~ (FusedRecord.confidence f == 0.75)%Q.
Proof.
  split; [reflexivity|].
  eexists. split; [reflexivity|]. split; [reflexivity|].
  simpl. intros H. discriminate H.
Qed.

Lemma NoDup_map_inj {A B} (f : A -> B) (l : list A) (a b : A) :
  List.NoDup (map f l) -> In a l -> In b l -> f a = f b -> a = b.
Proof.
  induction l as [|x l IH]; simpl; [intros _ []|].
  intros Hnd Ha Hb E. inversion Hnd as [|? ? Hx Hl]; subst.
  destruct Ha as [<- | Ha], Hb as [<- | Hb]; try reflexivity.
  - exfalso. apply Hx. rewrite E. now apply in_map.
  - exfalso. apply Hx. rewrite <- E. now apply in_map.
  - now apply IH.
Qed.

(** C4.  Fusing a non-empty list of sources returns one record whose
    primary is the contributing provider of highest priority weight and
    whose provider-record part is the record of a source of that provider.
    The primary is the same for every list with the same providers in any
    order and with any records (so with any confidences); for a permutation
    of a list with one source per provider, the provider-record part is the
    same as well. *)
Theorem C4_primary_is_highest_priority (sources sources' : list Source.t) :
  sources <> [] ->
  Permutation (map Source.provider sources) (map Source.provider sources') ->
  exists f f' s,
    mergeWeatherData sources = Ok f /\
    highest_priority (map Source.provider sources) (FusedRecord.primary f) /\
    In s sources /\ Source.provider s = FusedRecord.primary f /\
    FusedRecord.base f = Some (Source.data s) /\
    mergeWeatherData sources' = Ok f' /\
    FusedRecord.primary f' = FusedRecord.primary f /\
    (Permutation sources sources' ->
     List.NoDup (map Source.provider sources) ->
     FusedRecord.base f' = FusedRecord.base f).
Proof.
  intros Hne HP.
  assert (sources' <> []) as Hne'.
  { intros ->. apply Permutation_sym, Permutation_nil in HP.
    destruct sources; [congruence | discriminate HP]. }
  destruct (mergeWeatherData_primary sources Hne) as (f & s & Hf & Hin & Hp & Hb & Hh).
  destruct (mergeWeatherData_primary sources' Hne') as (f' & s' & Hf' & Hin' & Hp' & Hb' & Hh').
  assert (FusedRecord.primary f' = FusedRecord.primary f) as Hsame.
  { eapply highest_priority_unique; [exact Hh'|].
    eapply highest_priority_perm; eassumption. }
  exists f, f', s. repeat split; try assumption; try apply Hh.
  intros Hperm Hnodup. rewrite Hb, Hb'. do 2 f_equal.
  apply (NoDup_map_inj Source.provider sources); try assumption.
  - eapply Permutation_in; [symmetry; exact Hperm | exact Hin'].
  - congruence.
Qed.

Lemma C4_primary_is_highest_priority_witness :
  exists f f' s,
    mergeWeatherData
      [Source.mk windy sample_windy_record false;
       Source.mk meteoblue sample_meteoblue_record true] = Ok f /\
    highest_priority [windy; meteoblue] (FusedRecord.primary f) /\
    In s [Source.mk windy sample_windy_record false;
          Source.mk meteoblue sample_meteoblue_record true] /\
    Source.provider s = FusedRecord.primary f /\
    FusedRecord.base f = Some (Source.data s) /\
    mergeWeatherData
      [Source.mk meteoblue sample_meteoblue_record false;
       Source.mk windy sample_windy_record_late true] = Ok f' /\
    FusedRecord.primary f' = FusedRecord.primary f /\
    (Permutation
       [Source.mk windy sample_windy_record false;
        Source.mk meteoblue sample_meteoblue_record true]
       [Source.mk meteoblue sample_meteoblue_record false;
        Source.mk windy sample_windy_record_late true] ->
     List.NoDup [windy; meteoblue] ->
     FusedRecord.base f' = FusedRecord.base f).
Proof.
  apply (C4_primary_is_highest_priority
           [Source.mk windy sample_windy_record false;
            Source.mk meteoblue sample_meteoblue_record true]
           [Source.mk meteoblue sample_meteoblue_record false;
            Source.mk windy sample_windy_record_late true]).
  - discriminate.
  - simpl. apply perm_swap.
Defined.

Lemma non_null_perm (l l' : list (option Q)) :
  Permutation l l' -> Permutation (non_null l) (non_null l').
Proof.
  induction 1 as [| [x|] l l' _ IH | [x|] [y|] l | l l' l'' _ IH1 _ IH2]; simpl;
    try reflexivity; try assumption.
  - now constructor.
  - apply perm_swap.
  - now transitivity (non_null l').
Qed.

Lemma temperatures_of_sorted (sources : list Source.t) :
  Permutation (temperatures_of (Array_sort sources)) (temperatures_of sources).
Proof. apply non_null_perm, Permutation_map, Array_sort_perm. Qed.

Lemma windSpeeds_of_sorted (sources : list Source.t) :
  Permutation (windSpeeds_of (Array_sort sources)) (windSpeeds_of sources).
Proof. apply non_null_perm, Permutation_map, Array_sort_perm. Qed.

Lemma spread_of_perm (l l' : list Q) (d : Q) :
  Permutation l l' -> spread_of l d -> spread_of l' d.
Proof.
  intros HP (hi & lo & Hhi & Hlo & Hb & Hd).
  exists hi, lo. repeat split; try assumption.
  - eapply Permutation_in; eassumption.
  - eapply Permutation_in; eassumption.
  - apply Hb. eapply Permutation_in; [symmetry|]; eassumption.
  - apply Hb. eapply Permutation_in; [symmetry|]; eassumption.
Qed.

(** The range the code computes witnesses a spread. *)
Lemma spread_of_range (first : Q) (others : list Q) :
  spread_of (first :: others) (Math_max first others - Math_min first others)%Q.
Proof.
  exists (Math_max first others), (Math_min first others).
  split; [apply Math_max_in|]. split; [apply Math_min_in|].
  split; [|reflexivity].
  intros v Hv. split; [now apply Math_min_lower | now apply Math_max_upper].
Qed.

Lemma temperatures_le_sources (sources : list Source.t) :
  (length (temperatures_of sources) <= length sources)%nat.
Proof.
  unfold temperatures_of.
  induction sources as [|s sources IH]; simpl; [lia|].
  destruct (ProviderRecord.temperature (Source.data s)); simpl; lia.
Qed.

(** The spread the code computes is that of a maximum and a minimum of the
    array. *)
Lemma computed_spread_extremes (values : list Q) (d : number) :
  computed_spread values = Some d ->
  (2 <= length values)%nat /\
  exists hi lo,
    In hi values /\ In lo values /\
    (forall v, In v values -> (lo <= v)%Q /\ (v <= hi)%Q) /\
    d = js_sub hi lo.
Proof.
  destruct values as [|first [|second others]]; try discriminate.
  intros [= <-]. split; [simpl; lia|].
  exists (Math_max first (second :: others)), (Math_min first (second :: others)).
  split; [apply Math_max_in|]. split; [apply Math_min_in|].
  split; [|reflexivity].
  intros v Hv. split; [now apply Math_min_lower | now apply Math_max_upper].
Qed.

(** The warnings [detectWeatherInconsistencies] leaves on a record that had
    none, by the two computed spreads. *)
Lemma detect_warnings (merged : FusedRecord.t) (sources : list Source.t) (dT : number) :
  FusedRecord.warnings merged = [] ->
  computed_spread (temperatures_of sources) = Some dT ->
  let merged' := detectWeatherInconsistencies merged sources in
  (number_gt dT 5 = true -> (1 <= length (FusedRecord.warnings merged'))%nat) /\
  (number_gt dT 5 = false ->
   (forall dW, computed_spread (windSpeeds_of sources) = Some dW -> number_gt dW 15 = false) ->
   FusedRecord.warnings merged' = []).
Proof.
  intros Hw Hspread. unfold detectWeatherInconsistencies.
  pose proof (temperatures_le_sources sources) as Hle.
  destruct (computed_spread_extremes _ _ Hspread) as [Hlen _].
  destruct (Nat.ltb_spec (length sources) 2); [lia|].
  destruct (temperatures_of sources) as [|t0 [|t1 ts]]; try discriminate.
  assert (dT = js_sub (Math_max t0 (t1 :: ts)) (Math_min t0 (t1 :: ts))) as ->
    by (now injection Hspread).
  split.
  - intros Hgt. rewrite Hgt.
    destruct (windSpeeds_of sources) as [|w0 [|w1 ws]];
      repeat match goal with |- context [if ?c then _ else _] => destruct c end;
      simpl; rewrite ?length_app; simpl; lia.
  - intros Hle5 Hwind. rewrite Hle5.
    destruct (windSpeeds_of sources) as [|w0 [|w1 ws]]; try assumption.
    now rewrite (Hwind _ eq_refl).
Qed.

(** C8.  When at least two sources give a temperature, so that
    the code computes their spread [dT] (the double nearest to the
    difference of the doubles of the largest and the smallest temperature
    given), fusion leaves at least one warning if [dT > 5], and none if not
    and the wind spread, computed alike when at least two sources give a
    wind speed, is not over 15; with or without warnings the
    provider-record part of the result is the primary's record, and
    recording warnings changes nothing but the warnings. *)
Theorem C8_discrepancy_warnings_on_computed_spread (sources : list Source.t)
    (f : FusedRecord.t) (dT : number) :
  mergeWeatherData sources = Ok f ->
  computed_spread (temperatures_of (Array_sort sources)) = Some dT ->
  ((2 <= length (temperatures_of sources))%nat /\
   exists hi lo,
     In hi (temperatures_of sources) /\ In lo (temperatures_of sources) /\
     (forall v, In v (temperatures_of sources) -> (lo <= v)%Q /\ (v <= hi)%Q) /\
     dT = js_sub hi lo) /\
  (number_gt dT 5 = true -> (1 <= length (FusedRecord.warnings f))%nat) /\
  (number_gt dT 5 = false ->
   (forall dW, computed_spread (windSpeeds_of (Array_sort sources)) = Some dW ->
               number_gt dW 15 = false) ->
   FusedRecord.warnings f = []) /\
  (exists s, In s sources /\ Source.provider s = FusedRecord.primary f /\
             FusedRecord.base f = Some (Source.data s)) /\
  (forall merged,
     FusedRecord.base (detectWeatherInconsistencies merged sources) = FusedRecord.base merged /\
     FusedRecord.primary (detectWeatherInconsistencies merged sources)
       = FusedRecord.primary merged).
Proof.
  intros Hf Hspread.
  assert (sources <> []) as Hne by (intros ->; discriminate Hf).
  pose proof (temperatures_of_sorted sources) as HPt.
  split.
  { destruct (computed_spread_extremes _ _ Hspread) as (Hlen & hi & lo & Hhi & Hlo & Hb & Hd).
    split; [now rewrite <- (Permutation_length HPt)|].
    exists hi, lo. split; [eapply Permutation_in; eassumption|].
    split; [eapply Permutation_in; eassumption|]. split; [|exact Hd].
    intros v Hv. apply Hb. eapply Permutation_in; [symmetry|]; eassumption. }
  assert (exists s, In s sources /\ Source.provider s = FusedRecord.primary f /\
                    FusedRecord.base f = Some (Source.data s)) as Hprimary.
  { destruct (mergeWeatherData_primary sources Hne) as (f' & s & Hf' & Hin & Hp & Hb & _).
    rewrite Hf in Hf'. injection Hf' as <-. now exists s. }
  assert (forall merged,
     FusedRecord.base (detectWeatherInconsistencies merged sources) = FusedRecord.base merged /\
     FusedRecord.primary (detectWeatherInconsistencies merged sources)
       = FusedRecord.primary merged) as Hkeep.
  { intros merged. destruct (detect_preserves merged sources) as (? & ? & _). now split. }
  cut ((number_gt dT 5 = true -> (1 <= length (FusedRecord.warnings f))%nat) /\
       (number_gt dT 5 = false ->
        (forall dW, computed_spread (windSpeeds_of (Array_sort sources)) = Some dW ->
                    number_gt dW 15 = false) ->
        FusedRecord.warnings f = [])).
  { intros [? ?]. repeat split; auto; apply Hkeep. }
  destruct (Array_sort_head sources Hne) as (first & rest & E & _).
  pose proof (temperatures_le_sources (Array_sort sources)) as Hle.
  destruct (computed_spread_extremes _ _ Hspread) as [Hlen _].
  unfold mergeWeatherData in Hf. rewrite E in Hf, Hspread, Hle, Hlen |- *.
  destruct (Nat.ltb_spec 1 (length (first :: rest))); [|lia].
  injection Hf as <-.
  match goal with
  | |- context [detectWeatherInconsistencies ?m ?l] =>
      destruct (detect_warnings m l dT) as [H1 H2]
  end.
  - reflexivity.
  - exact Hspread.
  - split; [exact H1 | exact H2].
Qed.

Lemma C8_discrepancy_warnings_on_computed_spread_witness :
  exists f,
    mergeWeatherData sample_sources = Ok f /\
    (((2 <= length (temperatures_of sample_sources))%nat /\
      exists hi lo,
        In hi (temperatures_of sample_sources) /\ In lo (temperatures_of sample_sources) /\
        (forall v, In v (temperatures_of sample_sources) -> (lo <= v)%Q /\ (v <= hi)%Q) /\
        js_sub 31 24 = js_sub hi lo) /\
     (number_gt (js_sub 31 24) 5 = true -> (1 <= length (FusedRecord.warnings f))%nat) /\
     (number_gt (js_sub 31 24) 5 = false ->
      (forall dW, computed_spread (windSpeeds_of (Array_sort sample_sources)) = Some dW ->
                  number_gt dW 15 = false) ->
      FusedRecord.warnings f = []) /\
     (exists s, In s sample_sources /\ Source.provider s = FusedRecord.primary f /\
                FusedRecord.base f = Some (Source.data s)) /\
     (forall merged,
        FusedRecord.base (detectWeatherInconsistencies merged sample_sources)
          = FusedRecord.base merged /\
        FusedRecord.primary (detectWeatherInconsistencies merged sample_sources)
          = FusedRecord.primary merged)).
Proof.
  eexists. split; [reflexivity|].
  apply (C8_discrepancy_warnings_on_computed_spread sample_sources _ (js_sub 31 24)).
  - reflexivity.
  - reflexivity.
Defined.

(** A spread over 5 that leaves no warning.  The two temperatures of
    [boundary_sources] are more than 5 apart, by 2^-52; the difference the
    code computes is the double 5, which is not over 5. *)
Lemma C8_spread_over_5_without_warning :
  exists f dT,
    mergeWeatherData boundary_sources = Ok f /\
    (2 <= length (temperatures_of boundary_sources))%nat /\
    spread_of (temperatures_of boundary_sources) dT /\
    (5 < dT)%Q /\
    FusedRecord.warnings f = [].
Proof.
  eexists.
  exists ((6417629469002957 # 1125899906842624) - (3152519739159347 # 4503599627370496))%Q.
  split; [vm_compute; reflexivity|].
  split; [simpl; lia|].
  split.
  - exists (6417629469002957 # 1125899906842624), (3152519739159347 # 4503599627370496).
    simpl. split; [auto|]. split; [auto|]. split; [|reflexivity].
    intros v [<- | [<- | []]]; split; unfold Qle; simpl; lia.
  - split; [reflexivity|reflexivity].
Qed.

(** ** Risk classification *)

(** Alerts come out in waypoint order: those of a prefix of the results
    first, whatever their severity. *)
Lemma identifyRisks_from_app (l1 l2 : list WeatherResult.t) (index : nat) :
  identifyRisks_from index (l1 ++ l2)
  = identifyRisks_from index l1 ++ identifyRisks_from (index + length l1) l2.
Proof.
  revert index. induction l1 as [|r l1 IH]; intros index; simpl.
  - now rewrite Nat.add_0_r.
  - rewrite IH, <- app_assoc. now replace (S index + length l1)%nat with (index + S (length l1))%nat by lia.
Qed.

(** The alert types raised for one record, in the order they are pushed:
    each threshold is compared strictly; visibility is compared only when
    it is truthy. *)
Lemma risks_of_weather_types (weather : FusedRecord.t) (result : WeatherResult.t) (index : nat) :
  map Risk.type_ (risks_of_weather weather result index)
  = (if js_gt (to_number (FusedRecord.windSpeed weather)) 25 then [Risk.wind] else [])
    ++ (if js_gt (to_number (FusedRecord.precipitation weather)) 5
        then [Risk.precipitation] else [])
    ++ (if js_lt (to_number (FusedRecord.temperature weather)) 0
           || js_gt (to_number (FusedRecord.temperature weather)) 35
        then [Risk.temperature] else [])
    ++ (if truthy_num (FusedRecord.visibility weather)
           && js_lt (to_number (FusedRecord.visibility weather)) 1000
        then [Risk.visibility] else []).
Proof.
  unfold risks_of_weather, riskThresholds.windSpeed, riskThresholds.precipitation,
    riskThresholds.temperature_min, riskThresholds.temperature_max, riskThresholds.visibility.
  repeat match goal with |- context [if ?c then _ else _] => destruct c end; reflexivity.
Qed.

(** Wind: no alert up to 25 km/h, medium above 25, high above 40. *)
Lemma wind_alert (weather : FusedRecord.t) (result : WeatherResult.t) (index : nat) (w : Q) :
  FusedRecord.windSpeed weather = Some w ->
  let alerts := List.filter (fun a => bool_decide (Risk.type_ a = Risk.wind))
                  (risks_of_weather weather result index) in
  ((w <= 25)%Q -> alerts = []) /\
  ((25 < w)%Q -> (w <= 40)%Q -> map Risk.level_ alerts = [Risk.medium]) /\
  ((40 < w)%Q -> map Risk.level_ alerts = [Risk.high]).
Proof.
  intros Hw. unfold risks_of_weather, riskThresholds.windSpeed. rewrite Hw. simpl to_number.
  repeat split.
  - intros H. apply js_gt_false in H. rewrite H.
    repeat match goal with |- context [if ?c then _ else _] => destruct c end; reflexivity.
  - intros H1 H2. apply js_gt_true in H1. apply js_gt_false in H2. rewrite H1, H2.
    repeat match goal with |- context [if ?c then _ else _] => destruct c end; reflexivity.
  - intros H. assert (25 < w)%Q as H1 by (eapply Qlt_trans; [|exact H]; reflexivity).
    apply js_gt_true in H, H1. rewrite H, H1.
    repeat match goal with |- context [if ?c then _ else _] => destruct c end; reflexivity.
Qed.

(** Visibility: a non-zero visibility below 1000 m is alerted, high below
    500 m. *)
Lemma visibility_alert (weather : FusedRecord.t) (result : WeatherResult.t) (index : nat)
    (v : Q) :
  FusedRecord.visibility weather = Some v ->
  ~ (v == 0)%Q ->
  let alerts := List.filter (fun a => bool_decide (Risk.type_ a = Risk.visibility))
                  (risks_of_weather weather result index) in
  ((1000 <= v)%Q -> alerts = []) /\
  ((v < 1000)%Q -> (500 <= v)%Q -> map Risk.level_ alerts = [Risk.medium]) /\
  ((v < 500)%Q -> map Risk.level_ alerts = [Risk.high]).
Proof.
  intros Hv Hnz. unfold risks_of_weather, riskThresholds.visibility. rewrite Hv.
  simpl to_number. simpl truthy_num.
  assert (Qeq_bool v 0 = false) as -> by (apply not_true_iff_false; now rewrite Qeq_bool_iff).
  simpl negb. simpl andb.
  repeat split.
  - intros H. apply js_lt_false in H. rewrite H.
    repeat match goal with |- context [if ?c then _ else _] => destruct c end; reflexivity.
  - intros H1 H2. apply js_lt_true in H1. apply js_lt_false in H2. rewrite H1, H2.
    repeat match goal with |- context [if ?c then _ else _] => destruct c end; reflexivity.
  - intros H. assert (v < 1000)%Q as H1 by (eapply Qlt_trans; [exact H|]; reflexivity).
    apply js_lt_true in H, H1. rewrite H, H1.
    repeat match goal with |- context [if ?c then _ else _] => destruct c end; reflexivity.
Qed.

(** Precipitation: no alert up to 5 mm/h, medium above 5, high above 15. *)
Lemma precipitation_alert (weather : FusedRecord.t) (result : WeatherResult.t) (index : nat)
    (r : Q) :
  FusedRecord.precipitation weather = Some r ->
  let alerts := List.filter (fun a => bool_decide (Risk.type_ a = Risk.precipitation))
                  (risks_of_weather weather result index) in
  ((r <= 5)%Q -> alerts = []) /\
  ((5 < r)%Q -> (r <= 15)%Q -> map Risk.level_ alerts = [Risk.medium]) /\
  ((15 < r)%Q -> map Risk.level_ alerts = [Risk.high]).
Proof.
  intros Hr. unfold risks_of_weather, riskThresholds.precipitation. rewrite Hr.
  simpl to_number.
  repeat split.
  - intros H. apply js_gt_false in H. rewrite H.
    repeat match goal with |- context [if ?c then _ else _] => destruct c end; reflexivity.
  - intros H1 H2. apply js_gt_true in H1. apply js_gt_false in H2. rewrite H1, H2.
    repeat match goal with |- context [if ?c then _ else _] => destruct c end; reflexivity.
  - intros H. assert (5 < r)%Q as H1 by (eapply Qlt_trans; [|exact H]; reflexivity).
    apply js_gt_true in H, H1. rewrite H, H1.
    repeat match goal with |- context [if ?c then _ else _] => destruct c end; reflexivity.
Qed.

(** Temperature: a medium alert exactly outside [0, 35], never a high one. *)
Lemma temperature_alert (weather : FusedRecord.t) (result : WeatherResult.t) (index : nat)
    (t : Q) :
  FusedRecord.temperature weather = Some t ->
  let alerts := List.filter (fun a => bool_decide (Risk.type_ a = Risk.temperature))
                  (risks_of_weather weather result index) in
  ((0 <= t)%Q -> (t <= 35)%Q -> alerts = []) /\
  ((t < 0)%Q \/ (35 < t)%Q -> map Risk.level_ alerts = [Risk.medium]).
Proof.
  intros Ht. unfold risks_of_weather, riskThresholds.temperature_min,
    riskThresholds.temperature_max. rewrite Ht. simpl to_number.
  split.
  - intros H1 H2. apply js_lt_false in H1. apply js_gt_false in H2. rewrite H1, H2.
    cbn [orb].
    repeat match goal with |- context [if ?c then _ else _] => destruct c end; reflexivity.
  - intros [H | H].
    + apply js_lt_true in H. rewrite H. cbn [orb].
      repeat match goal with |- context [if ?c then _ else _] => destruct c end; reflexivity.
    + apply js_gt_true in H. rewrite H, orb_true_r.
      repeat match goal with |- context [if ?c then _ else _] => destruct c end; reflexivity.
Qed.

(** C5 (does not hold of the code).  A record whose visibility is present
    and equal to 0 m, below both visibility thresholds, raises no alert at
    all, while the same record with a visibility of 1 m raises the high
    visibility alert. *)
Theorem C5_zero_visibility_raises_no_alert :
  identifyRisks [sample_fog_result] = [] /\
  map (fun a => (Risk.type_ a, Risk.level_ a)) (identifyRisks [sample_mist_result])
  = [(Risk.visibility, Risk.high)].
Proof. split; reflexivity. Qed.

(** ** Redis client and rate limiter *)

Lemma live_insert (w : World) (d : gmap string Entry) (key : string) (e : Entry) :
  Server.live (with_db (<[key := e]> d) w) key
  = if Server.expired e (now w) then None else Some e.
Proof. unfold Server.live. simpl. now rewrite lookup_insert_eq. Qed.

Lemma live_insert_ne (w : World) (d : gmap string Entry) (key key' : string) (e : Entry) :
  key <> key' ->
  Server.live (with_db (<[key := e]> d) w) key' = Server.live (with_db d w) key'.
Proof. intros Hne. unfold Server.live. simpl. now rewrite lookup_insert_ne. Qed.

Lemma live_not_expired (w : World) (key : string) (e : Entry) :
  Server.live w key = Some e -> Server.expired e (now w) = false.
Proof.
  unfold Server.live. destruct (db w !! key) as [e'|]; [|discriminate].
  destruct (Server.expired e' (now w)) eqn:E; [discriminate|].
  now intros [= <-].
Qed.

Lemma with_db_db (w : World) : with_db (db w) w = w.
Proof. now destruct w. Qed.

Lemma with_db_with_db (d d' : gmap string Entry) (w : World) :
  with_db d' (with_db d w) = with_db d' w.
Proof. reflexivity. Qed.

Lemma store_up_with_db (d : gmap string Entry) (w : World) :
  store_up w -> store_up (with_db d w).
Proof. intros H. exact H. Qed.

Lemma store_up_with_calls (c : list Call) (w : World) :
  store_up w -> store_up (with_calls c w).
Proof. intros H. exact H. Qed.

Lemma store_up_advance (ms : Z) (w : World) : store_up w -> store_up (advance ms w).
Proof. intros H. exact H. Qed.

(** With the store up, each wrapper is the server command. *)
Lemma get_up (key : string) (w : World) :
  store_up w ->
  RedisClient.get key w = (Ok (option_map stored (Server.live w key)), w).
Proof.
  intros [Hav Hresp]. unfold RedisClient.get. rewrite Hav. simpl.
  unfold try_catch, Server.GET, Server.command. now rewrite Hresp.
Qed.

Lemma setex_up (key : string) (seconds : Z) (v : Stored) (w : World) :
  store_up w ->
  0 < seconds ->
  RedisClient.setex key seconds v w
  = (Ok true,
     with_db (<[key := {| stored := v; expireAt := Some (now w + seconds * 1000) |}]> (db w)) w).
Proof.
  intros [Hav Hresp] Hs. unfold RedisClient.setex, RedisClient.set. rewrite Hav. simpl.
  destruct (Z.eqb_spec seconds 0); [lia|].
  unfold try_catch, bind, Server.SETEX, Server.command. rewrite Hresp.
  destruct (Z.leb_spec seconds 0); [lia | reflexivity].
Qed.

Lemma incr_up (key : string) (w : World) :
  store_up w ->
  RedisClient.incr key w
  = match Server.live w key with
    | None => (Ok 1, with_db (<[key := {| stored := SInt 1; expireAt := None |}]> (db w)) w)
    | Some e =>
        match stored e with
        | SInt n =>
            (Ok (n + 1),
             with_db (<[key := {| stored := SInt (n + 1); expireAt := expireAt e |}]> (db w)) w)
        | _ => (Ok 1, w)
        end
    end.
Proof.
  intros [Hav Hresp]. unfold RedisClient.incr. rewrite Hav. simpl.
  unfold try_catch, Server.INCR, Server.command. rewrite Hresp.
  destruct (Server.live w key) as [e|]; [|reflexivity].
  now destruct (stored e).
Qed.

Lemma expire_up (key : string) (seconds : Z) (w : World) :
  store_up w ->
  RedisClient.expire key seconds w
  = match Server.live w key with
    | None => (Ok true, w)
    | Some e =>
        (Ok true,
         with_db (<[key := {| stored := stored e;
                              expireAt := Some (now w + seconds * 1000) |}]> (db w)) w)
    end.
Proof.
  intros [Hav Hresp]. unfold RedisClient.expire. rewrite Hav. simpl.
  unfold try_catch, bind, Server.EXPIRE, Server.command. rewrite Hresp.
  now destruct (Server.live w key).
Qed.

(** [ttl] reads; it never changes the world and never throws. *)
Lemma ttl_pure (key : string) (w : World) : exists n, RedisClient.ttl key w = (Ok n, w).
Proof.
  unfold RedisClient.ttl. destruct (negb (RedisClient.isAvailable w)); [now eexists|].
  unfold try_catch, Server.TTL, Server.command.
  destruct (responsive w); [|now eexists].
  destruct (Server.live w key) as [e|]; [destruct (expireAt e)|]; now eexists.
Qed.

(** The tail of [checkRateLimit], once the counter has been incremented. *)
Lemma checkRateLimit_verdict (key : string) (current m : Z) (w : World) :
  (if current >? m
   then (let* ttl := RedisClient.ttl key in ret false)
   else ret true) w
  = (Ok (current <=? m), w).
Proof.
  destruct (Z.gtb_spec current m), (Z.leb_spec current m); try lia; [|reflexivity].
  unfold bind. destruct (ttl_pure key w) as [n ->]. reflexivity.
Qed.

(** The first check of a window: the counter is created at 1 and the
    expiry is set, one window from now. *)
Lemma checkRateLimit_fresh (limits : gmap string RateLimiter.Limit) (apiName userId : string)
    (limit : RateLimiter.Limit) (w : World) :
  store_up w ->
  limits !! apiName = Some limit ->
  Server.live w (RateLimiter.key_of apiName userId) = None ->
  RateLimiter.checkRateLimit limits apiName userId w
  = (Ok (1 <=? RateLimiter.max limit),
     with_db (<[RateLimiter.key_of apiName userId :=
                 {| stored := SInt 1;
                    expireAt := Some (now w + RateLimiter.window limit * 1000) |}]> (db w)) w).
Proof.
  intros Hup Hlim Hlive.
  unfold RateLimiter.checkRateLimit, try_catch. rewrite Hlim.
  unfold bind at 1. rewrite (incr_up _ _ Hup), Hlive.
  change (1 =? 1) with true. cbv iota.
  unfold bind at 1. rewrite (expire_up _ _ _ (store_up_with_db _ _ Hup)), live_insert.
  cbn [Server.expired expireAt stored now db with_db].
  rewrite checkRateLimit_verdict, insert_insert_eq. reflexivity.
Qed.

(** A later check of the window: the counter goes up by one, allowed or
    not, and the expiry stays. *)
Lemma checkRateLimit_counting (limits : gmap string RateLimiter.Limit) (apiName userId : string)
    (limit : RateLimiter.Limit) (w : World) (n : Z) (deadline : option Z) :
  store_up w ->
  limits !! apiName = Some limit ->
  counter_at w (RateLimiter.key_of apiName userId) n deadline ->
  n <> 0 ->
  RateLimiter.checkRateLimit limits apiName userId w
  = (Ok (n + 1 <=? RateLimiter.max limit),
     with_db (<[RateLimiter.key_of apiName userId :=
                 {| stored := SInt (n + 1); expireAt := deadline |}]> (db w)) w).
Proof.
  intros Hup Hlim Hlive Hn. unfold counter_at in Hlive.
  unfold RateLimiter.checkRateLimit, try_catch. rewrite Hlim.
  unfold bind at 1. rewrite (incr_up _ _ Hup), Hlive. simpl stored. cbv iota. simpl expireAt.
  destruct (Z.eqb_spec (n + 1) 1); [lia|].
  unfold bind at 1. unfold ret at 1. rewrite checkRateLimit_verdict. reflexivity.
Qed.

Lemma answers_up_to_S (m from : Z) (count : nat) :
  answers_up_to m from (S count) = (from <=? m) :: answers_up_to m (from + 1) count.
Proof.
  unfold answers_up_to. simpl. rewrite Z.add_0_r. f_equal.
  rewrite <- seq_shift, map_map. apply map_ext. intros i.
  f_equal. lia.
Qed.

Lemma counter_at_advance (w : World) (key : string) (n d deadline : Z) :
  counter_at w key n (Some deadline) ->
  0 <= d ->
  now w + d < deadline ->
  counter_at (advance d w) key n (Some deadline).
Proof.
  unfold counter_at, Server.live. simpl. intros H Hd Hlt.
  destruct (db w !! key) as [e|]; [|discriminate].
  destruct (Server.expired e (now w)); [discriminate|].
  injection H as ->. unfold Server.expired. simpl.
  destruct (Z.leb_spec deadline (now w + d)); [lia | reflexivity].
Qed.


Lemma counter_at_expired (w : World) (key : string) (n d deadline : Z) :
  counter_at w key n (Some deadline) ->
  deadline <= now w + d ->
  Server.live (advance d w) key = None.
Proof.
  unfold counter_at, Server.live. simpl. intros H Hle.
  destruct (db w !! key) as [e|]; [|discriminate].
  destruct (Server.expired e (now w)); [discriminate|].
  injection H as ->. unfold Server.expired. simpl.
  destruct (Z.leb_spec deadline (now w + d)); [reflexivity | lia].
Qed.

Lemma counter_at_insert (w : World) (d : gmap string Entry) (key : string)
    (n deadline : Z) :
  now w < deadline ->
  counter_at (with_db (<[key := {| stored := SInt n; expireAt := Some deadline |}]> d) w)
    key n (Some deadline).
Proof.
  intros Hlt. unfold counter_at. rewrite live_insert. unfold Server.expired. simpl.
  destruct (Z.leb_spec deadline (now w)); [lia | reflexivity].
Qed.

Lemma counter_at_now (w : World) (key : string) (n deadline : Z) :
  counter_at w key n (Some deadline) -> now w < deadline.
Proof.
  intros H. apply live_not_expired in H. unfold Server.expired in H. simpl in H.
  destruct (Z.leb_spec deadline (now w)); [discriminate | lia].
Qed.

(** Checks inside a running window: the counter goes up at every check,
    the answers are those of the checks' numbers, the deadline stays. *)
Lemma run_checks_in_window (limits : gmap string RateLimiter.Limit) (apiName userId : string)
    (limit : RateLimiter.Limit) (delays : list Z) :
  limits !! apiName = Some limit ->
  forall (w : World) (n deadline : Z),
    store_up w ->
    counter_at w (RateLimiter.key_of apiName userId) n (Some deadline) ->
    1 <= n ->
    Forall (fun d => 0 <= d) delays ->
    now w + sum_list delays < deadline ->
    exists w',
      run_checks limits apiName userId delays w
      = (answers_up_to (RateLimiter.max limit) (n + 1) (length delays), w') /\
      counter_at w' (RateLimiter.key_of apiName userId)
        (n + Z.of_nat (length delays)) (Some deadline) /\
      store_up w' /\
      now w' = now w + sum_list delays.
Proof.
  intros Hlim. induction delays as [|d delays IH]; intros w n deadline Hup Hc Hn Hpos Hsum.
  - exists w. simpl. rewrite !Z.add_0_r. auto.
  - inversion Hpos as [|? ? Hd Hpos']; subst. simpl in Hsum.
    assert (0 <= sum_list delays) as Hs0.
    { clear -Hpos'. induction Hpos'; simpl; lia. }
    pose proof (counter_at_advance w _ n d deadline Hc Hd ltac:(lia)) as Hc1.
    cbn [run_checks].
    rewrite (checkRateLimit_counting limits apiName userId limit (advance d w) n (Some deadline)
               (store_up_advance d w Hup) Hlim Hc1 ltac:(lia)).
    match goal with
    | |- context [run_checks _ _ _ _ ?w1] =>
        destruct (IH w1 (n + 1) deadline) as (w' & E & Hc' & Hup' & Hnow)
    end.
    + exact Hup.
    + apply counter_at_insert. simpl. lia.
    + lia.
    + exact Hpos'.
    + simpl. lia.
    + exists w'. cbn [length]. rewrite E, answers_up_to_S. split; [reflexivity|].
      split; [|split; [exact Hup'|]].
      * replace (n + Z.of_nat (S (length delays)))
          with (n + 1 + Z.of_nat (length delays)) by lia.
        exact Hc'.
      * rewrite Hnow. simpl. lia.
Qed.

Lemma default_limits (apiName : string) (limit : RateLimiter.Limit) :
  RateLimiter.limits !! apiName = Some limit ->
  In (RateLimiter.max limit) [200; 500; 400; 300] /\ RateLimiter.window limit = 3600.
Proof.
  unfold RateLimiter.limits. rewrite !lookup_insert.
  repeat case_decide; rewrite ?lookup_empty; intros [= <-]; simpl; auto 6.
Qed.

Lemma advance_0 (w : World) : advance 0 w = w.
Proof. destruct w. unfold advance. simpl. now rewrite Z.add_0_r. Qed.

Lemma answers_up_to_length (m from : Z) (count : nat) :
  length (answers_up_to m from count) = count.
Proof. unfold answers_up_to. now rewrite length_map, length_seq. Qed.

Lemma answers_up_to_nth (m from : Z) (count i : nat) (a : bool) :
  nth_error (answers_up_to m from count) i = Some a ->
  a = (from + Z.of_nat i <=? m).
Proof.
  unfold answers_up_to. rewrite nth_error_map, nth_error_seq.
  destruct (i <? count)%nat; simpl; [|discriminate].
  now intros [= <-].
Qed.

(** The limiter over a store that is up.  For a provider with configured
    limit [limit], start from a store that holds no live counter for the
    provider, and check the limit once now and once more after each of
    [delays], all within one window.  The check number [i] (from 1) is
    allowed exactly when [i <= max]; after the checks the counter is the
    number of checks made, denied ones included, and its expiry is still the
    one set by the first check, one window after it.  Once that expiry has
    passed, the next check is allowed again and starts a new counter at 1
    with a new expiry. *)
Lemma rate_limit_window_store_up (apiName userId : string) (limit : RateLimiter.Limit)
    (w : World) (delays : list Z) :
  RateLimiter.limits !! apiName = Some limit ->
  store_up w ->
  Server.live w (RateLimiter.key_of apiName userId) = None ->
  Forall (fun d => 0 <= d) delays ->
  sum_list delays < RateLimiter.window limit * 1000 ->
  exists answers w',
    run_checks RateLimiter.limits apiName userId (0 :: delays) w = (answers, w') /\
    length answers = S (length delays) /\
    (forall i a, nth_error answers i = Some a ->
                 a = (Z.of_nat (S i) <=? RateLimiter.max limit)) /\
    counter_at w' (RateLimiter.key_of apiName userId) (Z.of_nat (S (length delays)))
      (Some (now w + RateLimiter.window limit * 1000)) /\
    forall d,
      now w + RateLimiter.window limit * 1000 <= now w' + d ->
      exists w'',
        RateLimiter.checkRateLimit RateLimiter.limits apiName userId (advance d w')
        = (Ok true, w'') /\
        counter_at w'' (RateLimiter.key_of apiName userId) 1
          (Some (now w' + d + RateLimiter.window limit * 1000)).
Proof.
  intros Hlim Hup Hlive Hpos Hsum.
  destruct (default_limits apiName limit Hlim) as [Hmax Hwin].
  assert (1 <= RateLimiter.max limit) as Hmax1.
  { simpl in Hmax. lia. }
  cbn [run_checks]. rewrite advance_0.
  rewrite (checkRateLimit_fresh _ apiName userId limit w Hup Hlim Hlive).
  set (deadline := now w + RateLimiter.window limit * 1000).
  set (w1 := with_db _ w).
  destruct (run_checks_in_window RateLimiter.limits apiName userId limit delays Hlim
              w1 1 deadline) as (w' & E & Hc & Hup' & Hnow).
  - exact Hup.
  - apply counter_at_insert. subst deadline. lia.
  - lia.
  - exact Hpos.
  - subst w1 deadline. simpl. lia.
  - rewrite E. eexists _, w'. split; [reflexivity|].
    split; [cbn [length]; now rewrite answers_up_to_length|].
    split.
    { intros [|i] a H; simpl in H.
      - now injection H as <-.
      - apply answers_up_to_nth in H. rewrite H. f_equal. lia. }
    split.
    { replace (Z.of_nat (S (length delays))) with (1 + Z.of_nat (length delays)) by lia.
      exact Hc. }
    intros d Hd.
    pose proof (counter_at_expired w' _ _ d deadline Hc Hd) as Hgone.
    rewrite (checkRateLimit_fresh _ apiName userId limit (advance d w')
               (store_up_advance d w' Hup') Hlim Hgone).
    destruct (Z.leb_spec 1 (RateLimiter.max limit)); [|lia].
    eexists. split; [reflexivity|].
    apply counter_at_insert. simpl. lia.
Qed.

(** With the store down, every wrapper returns its fallback and leaves the
    world as it is. *)
Lemma get_down (key : string) (w : World) :
  store_down w -> RedisClient.get key w = (Ok None, w).
Proof.
  intros [Hav | Hresp]; unfold RedisClient.get.
  - now rewrite Hav.
  - destruct (negb (RedisClient.isAvailable w)); [reflexivity|].
    unfold try_catch, Server.GET, Server.command. now rewrite Hresp.
Qed.

Lemma set_down (key : string) (v : Stored) (ttl : option Z) (w : World) :
  store_down w -> RedisClient.set key v ttl w = (Ok false, w).
Proof.
  intros [Hav | Hresp]; unfold RedisClient.set.
  - now rewrite Hav.
  - destruct (negb (RedisClient.isAvailable w)); [reflexivity|].
    unfold try_catch, bind, Server.SET, Server.SETEX, Server.command.
    destruct ttl as [seconds|]; [destruct (seconds =? 0)|]; now rewrite Hresp.
Qed.

Lemma incr_down (key : string) (w : World) :
  store_down w -> RedisClient.incr key w = (Ok 1, w).
Proof.
  intros [Hav | Hresp]; unfold RedisClient.incr.
  - now rewrite Hav.
  - destruct (negb (RedisClient.isAvailable w)); [reflexivity|].
    unfold try_catch, Server.INCR, Server.command. now rewrite Hresp.
Qed.

Lemma expire_down (key : string) (seconds : Z) (w : World) :
  store_down w -> RedisClient.expire key seconds w = (Ok false, w).
Proof.
  intros [Hav | Hresp]; unfold RedisClient.expire.
  - now rewrite Hav.
  - destruct (negb (RedisClient.isAvailable w)); [reflexivity|].
    unfold try_catch, bind, Server.EXPIRE, Server.command. now rewrite Hresp.
Qed.

Lemma checkRateLimit_down (apiName userId : string) (w : World) :
  store_down w ->
  RateLimiter.checkRateLimit RateLimiter.limits apiName userId w = (Ok true, w).
Proof.
  intros Hdown. unfold RateLimiter.checkRateLimit, try_catch.
  destruct (RateLimiter.limits !! apiName) as [limit|] eqn:Hlim; [|reflexivity].
  destruct (default_limits apiName limit Hlim) as [Hmax _].
  unfold bind at 1. rewrite (incr_down _ _ Hdown).
  change (1 =? 1) with true. cbv iota.
  unfold bind at 1. rewrite (expire_down _ _ _ Hdown).
  rewrite checkRateLimit_verdict.
  destruct (Z.leb_spec 1 (RateLimiter.max limit)); [reflexivity|].
  simpl in Hmax. lia.
Qed.

(** The service as it starts: a client, and no connection. *)
Lemma constructor_down (w0 : World) : store_down (RedisClient.constructor_ w0).
Proof. left. reflexivity. Qed.

Lemma run_checks_down (apiName userId : string) (delays : list Z) :
  forall w,
    store_down w ->
    run_checks RateLimiter.limits apiName userId delays w
    = (repeat true (length delays), advance (sum_list delays) w).
Proof.
  induction delays as [|d rest IH]; intros w Hdown; cbn [run_checks length repeat sum_list].
  - now rewrite advance_0.
  - assert (store_down (advance d w)) as Hdown' by exact Hdown.
    rewrite (checkRateLimit_down apiName userId _ Hdown'), (IH _ Hdown').
    f_equal. unfold advance. cbn. f_equal. unfold sum_list. lia.
Qed.

(** C2.  In the service as it starts, the client of the store is created and
    never connected, and the limiter denies nothing: however many checks
    are made for a provider and a scope, and whatever the time between
    them, every one of them is answered allowed; no counter is created or
    incremented, and the client is still unavailable afterwards. *)
Theorem C2_started_service_never_denies (w0 : World) (apiName userId : string)
    (delays : list Z) :
  run_checks RateLimiter.limits apiName userId delays (RedisClient.constructor_ w0)
  = (repeat true (length delays),
     advance (sum_list delays) (RedisClient.constructor_ w0)) /\
  db (advance (sum_list delays) (RedisClient.constructor_ w0)) = db w0 /\
  RedisClient.isAvailable (advance (sum_list delays) (RedisClient.constructor_ w0)) = false.
Proof.
  split; [apply run_checks_down, constructor_down|]. split; reflexivity.
Qed.

(** C9.  With the store unavailable (no client, not connected, or the
    server not answering), a rate-limit check for any provider and scope
    returns allowed, a cache lookup of any key returns nothing, and a cache
    write of any key returns false and stores nothing; each of them returns
    normally and leaves the world unchanged. *)
Theorem C9_store_down_fails_open (w : World) (apiName userId key : string)
    (value : Stored) (ttl : option Z) (seconds : Z) :
  store_down w ->
  RateLimiter.checkRateLimit RateLimiter.limits apiName userId w = (Ok true, w) /\
  RedisClient.get key w = (Ok None, w) /\
  RedisClient.set key value ttl w = (Ok false, w) /\
  RedisClient.setex key seconds value w = (Ok false, w).
Proof.
  intros Hdown. split; [now apply checkRateLimit_down|].
  split; [now apply get_down|].
  split; [now apply set_down|].
  unfold RedisClient.setex. now apply set_down.
Qed.

Lemma C9_store_down_fails_open_witness :
  RateLimiter.checkRateLimit RateLimiter.limits "aemet" "global" sample_world_disconnected
  = (Ok true, sample_world_disconnected) /\
  RedisClient.get "weather:aemet:40.417:-3.704:487978" sample_world_disconnected
  = (Ok None, sample_world_disconnected) /\
  RedisClient.set "weather:aemet:40.417:-3.704:487978" (SRecord sample_aemet_record)
    (Some 1800) sample_world_disconnected
  = (Ok false, sample_world_disconnected) /\
  RedisClient.setex "weather:aemet:40.417:-3.704:487978" 1800 (SRecord sample_aemet_record)
    sample_world_disconnected
  = (Ok false, sample_world_disconnected).
Proof.
  apply (C9_store_down_fails_open sample_world_disconnected "aemet" "global"
           "weather:aemet:40.417:-3.704:487978" (SRecord sample_aemet_record) (Some 1800) 1800).
  left. reflexivity.
Defined.

(** ** Provider adapters *)

(** meteoblue validates its critical data: a record it returns has a
    temperature and a wind speed. *)
Lemma Meteoblue_requires_critical_data (apiKey : bool) (net : NetResult Meteoblue.Response)
    (timestamp : Z) (r : ProviderRecord.t) :
  Meteoblue.getWeatherForPoint apiKey net timestamp = Ok r ->
  is_Some (ProviderRecord.temperature r) /\ is_Some (ProviderRecord.windSpeed r).
Proof.
  unfold Meteoblue.getWeatherForPoint, Meteoblue.parseResponse, Meteoblue.parse.
  destruct (negb apiKey); [discriminate|].
  destruct net as [data | error]; [|discriminate].
  destruct (Meteoblue.data_1h data) as [d|]; [|discriminate].
  destruct (Meteoblue.time d) as [[|t0 rest]|]; try discriminate.
  destruct (closest_scan _ _ _ _ _) as [closestIndex minDiff]. simpl.
  destruct (Meteoblue.getValueAtIndex (Meteoblue.temperature d) closestIndex);
    [|discriminate].
  destruct (Meteoblue.getValueAtIndex (Meteoblue.windspeed d) closestIndex);
    [|discriminate].
  intros [= <-]. simpl. split; eexists; reflexivity.
Qed.

(** meteoblue degrades its optional fields: series that are missing leave
    [null] in the record without failing it. *)
Lemma Meteoblue_optional_fields_degrade (d : Meteoblue.Data1h) (timestamp : Z)
    (r : ProviderRecord.t) :
  Meteoblue.relativehumidity d = None ->
  Meteoblue.sealevelpressure d = None ->
  Meteoblue.totalcloudcover d = None ->
  Meteoblue.visibility d = None ->
  Meteoblue.getWeatherForPoint true
    (Responded {| Meteoblue.data_1h := Some d |}) timestamp = Ok r ->
  ProviderRecord.humidity r = None /\ ProviderRecord.pressure r = None /\
  ProviderRecord.cloudCover r = None /\ ProviderRecord.visibility r = None.
Proof.
  intros Hh Hp Hc Hv.
  unfold Meteoblue.getWeatherForPoint, Meteoblue.parseResponse, Meteoblue.parse. simpl.
  destruct (Meteoblue.time d) as [[|t0 rest]|]; try discriminate.
  destruct (closest_scan _ _ _ _ _) as [closestIndex minDiff]. simpl.
  destruct (Meteoblue.getValueAtIndex (Meteoblue.temperature d) closestIndex);
    [|discriminate].
  destruct (Meteoblue.getValueAtIndex (Meteoblue.windspeed d) closestIndex);
    [|discriminate].
  intros [= <-]. simpl. rewrite Hh, Hp, Hc, Hv. auto.
Qed.

(** Windy does not validate: whenever the time axis is there, a record
    comes back, with [null] for a temperature or wind series that is
    missing. *)
Lemma Windy_returns_degraded_record (data : Windy.Response) (t0 : Z) (rest : list Z)
    (timestamp : Z) :
  Windy.ts data = Some (t0 :: rest) ->
  exists r,
    Windy.getWeatherForPoint true (Responded data) timestamp = Ok r /\
    (Windy.temp_surface data = None -> ProviderRecord.temperature r = None) /\
    (Windy.wind_u_surface data = None -> ProviderRecord.windSpeed r = None).
Proof.
  intros Hts.
  unfold Windy.getWeatherForPoint, Windy.parseResponse, Windy.parse. simpl. rewrite Hts.
  destruct (closest_scan _ _ _ _ _) as [closestIndex minDiff].
  eexists. split; [reflexivity|]. simpl. split.
  - now intros ->.
  - unfold Windy.calculateWindSpeed. now intros ->.
Qed.

(** C3 (does not hold of the code).  Only meteoblue fails when the
    temperature or the wind speed is missing.  For an upstream answer with
    neither, Windy and Meteored return a record with [null] for both, and
    AEMET returns a record with a [null] temperature and a wind speed of 10
    that no upstream field gave. *)
Theorem C3_missing_critical_fields_not_rejected :
  (exists r,
     Windy.getWeatherForPoint true (Responded bare_windy_response) 1756720800000 = Ok r /\
     ProviderRecord.temperature r = None /\ ProviderRecord.windSpeed r = None) /\
  (exists r,
     Aemet.getWeatherForPoint true 40.4168%Q (-3.7038)%Q (Responded bare_aemet_envelope)
       1756720800000 = Ok r /\
     ProviderRecord.temperature r = None /\ ProviderRecord.windSpeed r = Some 10%Q) /\
  (exists r,
     Meteored.getWeatherForPoint true (Responded bare_meteored_response) 1756720800000 = Ok r /\
     ProviderRecord.temperature r = None /\ ProviderRecord.windSpeed r = None).
Proof. repeat split; eexists; repeat split; reflexivity. Qed.

(** ** Endpoints *)

(** C10.  A point-level request whose latitude or longitude is a number
    equal to 0 is answered 400 "Coordenadas requeridas", whatever the other
    coordinate and the timestamp are; nothing is acquired for it: the world
    (store, adapter calls) is left as it was. *)
Theorem C10_zero_coordinate_rejected (lat lon : jsval) (timestamp : option Z)
    (q : Q) (w : World) :
  lat = JNum q \/ lon = JNum q ->
  (q == 0)%Q ->
  weather_for_point lat lon timestamp w
  = ({| status := 400;
        body := ErrorBody "Coordenadas requeridas"
                  "Se requieren latitud y longitud válidas" |}, w).
Proof.
  intros Hzero Hq. unfold weather_for_point.
  assert (truthy (JNum q) = false) as Hfalsy.
  { simpl. apply negb_false_iff, Qeq_bool_iff, Hq. }
  destruct Hzero as [-> | ->]; rewrite Hfalsy; simpl.
  - reflexivity.
  - now rewrite orb_true_r.
Qed.

Lemma C10_zero_coordinate_rejected_witness :
  weather_for_point (JNum 0) (JNum (-78.4678)) None sample_world
  = ({| status := 400;
        body := ErrorBody "Coordenadas requeridas"
                  "Se requieren latitud y longitud válidas" |}, sample_world).
Proof.
  apply (C10_zero_coordinate_rejected (JNum 0) (JNum (-78.4678)) None 0 sample_world).
  - left. reflexivity.
  - reflexivity.
Defined.

(** ** Acquisition *)

Lemma logApiCall_total (apiName : string) (success : bool) (responseTime : Q) (w : World) :
  exists w', RateLimiter.logApiCall apiName success responseTime w = (Ok tt, w').
Proof.
  unfold RateLimiter.logApiCall, try_catch.
  match goal with |- context [let (_, _) := ?m in _] => destruct m as [[[]|message] w'] end;
    now eexists.
Qed.

Lemma acquire_total (providerName : Provider) (point : Waypoint) (timestamp : Z)
    (weatherSources : list Source.t) (w : World) :
  exists sources w',
    acquire providerName point timestamp weatherSources w = (Ok sources, w').
Proof.
  unfold acquire. destruct (negb (apiKey (env w) providerName)); [now eexists _, _|].
  unfold try_catch.
  destruct (acquire_try providerName point timestamp weatherSources w) as [[sources|message] w1].
  - now eexists _, _.
  - unfold bind.
    destruct (logApiCall_total (provider_name providerName) false 0 w1) as [w2 ->].
    now eexists _, _.
Qed.

Lemma collect_total (providers : list Provider) (point : Waypoint) (timestamp : Z)
    (weatherSources : list Source.t) (w : World) :
  exists sources w',
    collect providers point timestamp weatherSources w = (Ok sources, w').
Proof.
  revert weatherSources w.
  induction providers as [|providerName rest IH]; intros weatherSources w; simpl.
  - now eexists _, _.
  - unfold bind.
    destruct (acquire_total providerName point timestamp weatherSources w)
      as (sources & w1 & ->).
    apply IH.
Qed.

(** Acquisition for a point either collects at least one source and returns
    their fusion, or collects none and throws [NoWeatherData]; it throws
    nothing else. *)
Lemma getWeatherForPoint_outcome (point : Waypoint) (timestamp : Z) (w : World) :
  exists sources w',
    collect providerPriority point timestamp [] w = (Ok sources, w') /\
    ((sources = [] /\
      getWeatherForPoint point timestamp w = (Thrown NoWeatherData, w')) \/
     (sources <> [] /\
      exists weatherData,
        mergeWeatherData sources = Ok weatherData /\
        getWeatherForPoint point timestamp w = (Ok weatherData, w'))).
Proof.
  destruct (collect_total providerPriority point timestamp [] w) as (sources & w' & E).
  exists sources, w'. split; [exact E|].
  unfold getWeatherForPoint, bind. rewrite E.
  destruct sources as [|s sources].
  - left. split; reflexivity.
  - right. split; [discriminate|].
    destruct (mergeWeatherData_primary (s :: sources)) as (f & _ & Hf & _); [discriminate|].
    exists f. split; [exact Hf|]. unfold lift. now rewrite Hf.
Qed.

(** With no API key configured at all, no provider is even asked. *)
Lemma acquisition_without_keys (point : Waypoint) (timestamp : Z) (w : World) :
  (forall p, apiKey (env w) p = false) ->
  getWeatherForPoint point timestamp w = (Thrown NoWeatherData, w).
Proof.
  intros Hkeys. unfold getWeatherForPoint, bind, providerPriority, collect, bind, acquire.
  do 4 (rewrite Hkeys; cbn [negb]; cbv iota beta zeta).
  reflexivity.
Qed.

(** With valid estimated times throughout, the loop gives one entry per
    waypoint and does not throw. *)
Lemma waypoints_loop_entries (now : Z) (waypoints : list Waypoint) :
  Forall (valid_time now) waypoints ->
  forall (results : list WeatherResult.t) (w : World),
  exists entries w',
    waypoints_loop now waypoints results w = (Ok (results ++ entries), w') /\
    route_entries now w waypoints entries w'.
Proof.
  induction 1 as [|waypoint rest [estimatedTime Htime] _ IH]; intros results w.
  - exists [], w. simpl. rewrite app_nil_r. split; [reflexivity | constructor].
  - cbn [waypoints_loop]. rewrite Htime. unfold bind at 1. unfold try_catch, bind at 1.
    destruct (getWeatherForPoint_outcome waypoint estimatedTime w)
      as (sources & w1 & _ & [[_ E] | [_ (f & _ & E)]]); rewrite E; unfold ret.
    + destruct (IH (results ++ [WeatherResult.mk waypoint None (Some NoWeatherData)
                                  estimatedTime]) w1)
        as (entries & w2 & E2 & Hentries).
      eexists (_ :: entries), w2. rewrite E2, <- app_assoc. split; [reflexivity|].
      eapply route_failed; eassumption.
    + destruct (IH (results ++ [WeatherResult.mk waypoint (Some f) None estimatedTime]) w1)
        as (entries & w2 & E2 & Hentries).
      eexists (_ :: entries), w2. rewrite E2, <- app_assoc. split; [reflexivity|].
      eapply route_ok; eassumption.
Qed.

(** One waypoint whose estimated time is an Invalid Date, anywhere in the
    route, and the loop throws the RangeError of [toISOString]. *)
Lemma waypoints_loop_invalid (now : Z) (waypoints : list Waypoint) :
  Exists (fun waypoint => estimatedTime_of now waypoint = None) waypoints ->
  forall (results : list WeatherResult.t) (w : World),
  exists w', waypoints_loop now waypoints results w = (Thrown InvalidTimeValue, w').
Proof.
  induction waypoints as [|waypoint rest IH]; intros Hex results w.
  - inversion Hex.
  - cbn [waypoints_loop].
    destruct (estimatedTime_of now waypoint) as [estimatedTime|] eqn:Htime.
    + assert (Exists (fun waypoint => estimatedTime_of now waypoint = None) rest) as Hrest.
      { inversion Hex as [? ? Hhead | ? ? Htail]; subst; [congruence | exact Htail]. }
      unfold bind at 1. unfold try_catch, bind at 1.
      destruct (getWeatherForPoint waypoint estimatedTime w) as [[weatherData|message] w1];
        unfold ret; now apply IH.
    + unfold bind at 1. unfold try_catch, bind at 1.
      destruct (getWeatherForPoint_invalid waypoint w) as [[weatherData|message] w1];
        unfold throw; now eexists.
Qed.

(** A route request is answered 400 exactly when its waypoint list is
    missing, not an array, or empty. *)
Lemma route_rejected_iff_malformed (field : WaypointsField) (w : World) :
  status (fst (weather_for_route field w)) = 400 <->
  field = WaypointsFalsy \/ field = WaypointsNotArray \/ field = WaypointsArray [].
Proof.
  destruct field as [| |[|wp wps]]; simpl; try (split; [auto | reflexivity]).
  destruct (getWeatherForWaypoints (wp :: wps) w) as [[results|message] w']; simpl;
    (split; [discriminate|]); intros [H | [H | H]]; discriminate H.
Qed.

(** C6.  A waypoint whose estimated time is an Invalid Date makes the whole
    route request fail: whatever the acquisitions give, for that waypoint and
    for the others, the answer is 500 with the message of the RangeError, and
    no waypoint gets an entry. *)
Theorem C6_invalid_time_fails_whole_route (waypoints : list Waypoint) (waypoint : Waypoint)
    (w : World) :
  In waypoint waypoints ->
  estimatedTime_of (now w) waypoint = None ->
  exists w',
    weather_for_route (WaypointsArray waypoints) w
    = ({| status := 500;
          body := ErrorBody "Error obteniendo datos meteorológicos" "Invalid time value" |},
       w').
Proof.
  intros Hin Htime.
  destruct (waypoints_loop_invalid (now w) waypoints) with (results := @nil WeatherResult.t)
                                                           (w := w) as [w' E].
  { apply List.Exists_exists. now exists waypoint. }
  exists w'. unfold weather_for_route, getWeatherForWaypoints.
  destruct waypoints as [|first rest]; [destruct Hin|]. now rewrite E.
Qed.

Lemma C6_invalid_time_fails_whole_route_witness :
  getWeatherForPoint sample_point (now sample_world_unconfigured) sample_world_unconfigured
  = (Thrown NoWeatherData, sample_world_unconfigured) /\
  getWeatherForPoint_invalid sample_point_far sample_world_unconfigured
  = (Thrown NoWeatherData, sample_world_unconfigured) /\
  exists w',
    weather_for_route (WaypointsArray [sample_point; sample_point_far])
      sample_world_unconfigured
    = ({| status := 500;
          body := ErrorBody "Error obteniendo datos meteorológicos" "Invalid time value" |},
       w').
Proof.
  split; [reflexivity|]. split; [reflexivity|].
  apply (C6_invalid_time_fails_whole_route [sample_point; sample_point_far] sample_point_far
           sample_world_unconfigured).
  - right. left. reflexivity.
  - vm_compute. reflexivity.
Defined.

(** *** What a computation leaves untouched *)

Section Frame.
Variable protected : string -> Prop.
Variable permitted : Call -> Prop.

Lemma changes_only_refl (w : World) : changes_only protected permitted w w.
Proof.
  repeat split; auto. exists []. split; [now rewrite app_nil_r | constructor].
Qed.

Lemma changes_only_trans (w1 w2 w3 : World) :
  changes_only protected permitted w1 w2 ->
  changes_only protected permitted w2 w3 ->
  changes_only protected permitted w1 w3.
Proof.
  intros (He & Hc & Hi & Hr & Hn & Hdb & made & Hcalls & Hmade)
         (He' & Hc' & Hi' & Hr' & Hn' & Hdb' & made' & Hcalls' & Hmade').
  repeat split; try congruence.
  - intros k Hk. rewrite Hdb', Hdb; auto.
  - exists (made ++ made'). split.
    + rewrite Hcalls', Hcalls. now rewrite app_assoc.
    + apply Forall_app. now split.
Qed.

Lemma changes_only_insert (w : World) (key : string) (e : Entry) :
  ~ protected key ->
  changes_only protected permitted w (with_db (<[key := e]> (db w)) w).
Proof.
  intros Hkey. repeat split; auto.
  - intros k Hk. simpl. apply lookup_insert_ne. intros ->. contradiction.
  - exists []. simpl. split; [now rewrite app_nil_r | constructor].
Qed.

Lemma respects_ret {A} (a : A) : respects protected permitted (ret a).
Proof. intros w o w' [= _ <-]. apply changes_only_refl. Qed.

Lemma respects_throw {A} (message : string) :
  respects protected permitted (throw (A := A) message).
Proof. intros w o w' [= _ <-]. apply changes_only_refl. Qed.

Lemma respects_lift {A} (o : outcome A) : respects protected permitted (lift o).
Proof. intros w o' w' [= _ <-]. apply changes_only_refl. Qed.

Lemma respects_bind {A B} (m : M A) (k : A -> M B) :
  respects protected permitted m ->
  (forall a, respects protected permitted (k a)) ->
  respects protected permitted (bind m k).
Proof.
  intros Hm Hk w o w'. unfold bind.
  destruct (m w) as [[a|message] w1] eqn:E; intros H.
  - eapply changes_only_trans; [eapply Hm; exact E | eapply Hk; exact H].
  - injection H as _ <-. eapply Hm; exact E.
Qed.

Lemma respects_try_catch {A} (m : M A) (handler : string -> M A) :
  respects protected permitted m ->
  (forall message, respects protected permitted (handler message)) ->
  respects protected permitted (try_catch m handler).
Proof.
  intros Hm Hh w o w'. unfold try_catch.
  destruct (m w) as [[a|message] w1] eqn:E; intros H.
  - injection H as _ <-. eapply Hm; exact E.
  - eapply changes_only_trans; [eapply Hm; exact E | eapply Hh; exact H].
Qed.

Lemma respects_if {A} (b : bool) (m1 m2 : M A) :
  respects protected permitted m1 ->
  respects protected permitted m2 ->
  respects protected permitted (if b then m1 else m2).
Proof. now destruct b. Qed.

(** A wrapper that returns a fallback when the client is not available. *)
Lemma respects_guard {A} (fallback : A) (m : M A) :
  respects protected permitted m ->
  respects protected permitted
    (fun w => if negb (RedisClient.isAvailable w) then (Ok fallback, w) else m w).
Proof.
  intros Hm w o w'. destruct (negb (RedisClient.isAvailable w)).
  - intros [= _ <-]. apply changes_only_refl.
  - apply Hm.
Qed.

Lemma respects_command {A} (run : World -> outcome A * World) :
  respects protected permitted run ->
  respects protected permitted (Server.command run).
Proof.
  intros Hrun w o w'. unfold Server.command. destruct (responsive w).
  - apply Hrun.
  - intros [= _ <-]. apply changes_only_refl.
Qed.

Lemma respects_get (key : string) : respects protected permitted (RedisClient.get key).
Proof.
  apply respects_guard, respects_try_catch; [|intros; apply respects_ret].
  apply respects_command. intros w o w' [= _ <-]. apply changes_only_refl.
Qed.

Lemma respects_ttl (key : string) : respects protected permitted (RedisClient.ttl key).
Proof.
  apply respects_guard, respects_try_catch; [|intros; apply respects_ret].
  apply respects_command. intros w o w'.
  destruct (Server.live w key) as [e|]; [destruct (expireAt e)|];
    intros [= _ <-]; apply changes_only_refl.
Qed.

Lemma respects_set (key : string) (v : Stored) (ttl : option Z) :
  ~ protected key ->
  respects protected permitted (RedisClient.set key v ttl).
Proof.
  intros Hkey.
  apply respects_guard, respects_try_catch; [|intros; apply respects_ret].
  apply respects_bind; [|intros; apply respects_ret].
  destruct ttl as [seconds|]; [destruct (seconds =? 0)|];
    apply respects_command; intros w o w'; try destruct (seconds <=? 0);
    intros [= _ <-]; try apply changes_only_refl; now apply changes_only_insert.
Qed.

Lemma respects_incr (key : string) :
  ~ protected key ->
  respects protected permitted (RedisClient.incr key).
Proof.
  intros Hkey.
  apply respects_guard, respects_try_catch; [|intros; apply respects_ret].
  apply respects_command. intros w o w'.
  destruct (Server.live w key) as [e|]; [destruct (stored e)|];
    intros [= _ <-]; try apply changes_only_refl; now apply changes_only_insert.
Qed.

Lemma respects_expire (key : string) (seconds : Z) :
  ~ protected key ->
  respects protected permitted (RedisClient.expire key seconds).
Proof.
  intros Hkey.
  apply respects_guard, respects_try_catch; [|intros; apply respects_ret].
  apply respects_bind; [|intros; apply respects_ret].
  apply respects_command. intros w o w'.
  destruct (Server.live w key) as [e|];
    intros [= _ <-]; try apply changes_only_refl; now apply changes_only_insert.
Qed.

Lemma respects_checkRateLimit (limits : gmap string RateLimiter.Limit)
    (apiName userId : string) :
  ~ protected (RateLimiter.key_of apiName userId) ->
  respects protected permitted (RateLimiter.checkRateLimit limits apiName userId).
Proof.
  intros Hkey. unfold RateLimiter.checkRateLimit.
  apply respects_try_catch; [|intros; apply respects_ret].
  destruct (limits !! apiName) as [limit|]; [|apply respects_ret].
  apply respects_bind; [now apply respects_incr|]. intros current.
  apply respects_bind.
  - apply respects_if; [now apply respects_expire | apply respects_ret].
  - intros _. apply respects_if; [|apply respects_ret].
    apply respects_bind; [apply respects_ttl | intros; apply respects_ret].
Qed.

Lemma respects_logApiCall (apiName : string) (success : bool) (responseTime : Q) :
  (forall w, ~ protected (RateLimiter.stats_key apiName w)) ->
  respects protected permitted (RateLimiter.logApiCall apiName success responseTime).
Proof.
  intros Hkey. unfold RateLimiter.logApiCall.
  apply respects_try_catch; [|intros; apply respects_ret].
  intros w. revert w.
  match goal with
  | |- forall w, forall o w', ?body w = _ -> _ =>
      change (forall w, forall o w', body w = (o, w') ->
                changes_only protected permitted w w')
  end.
  intros w.
  apply respects_bind; [apply respects_get|]. intros existing.
  apply respects_bind.
  - destruct existing as [v|]; [|apply respects_ret].
    apply respects_bind; [apply respects_lift | intros; apply respects_ret].
  - intros stats. apply respects_bind; [|intros; apply respects_ret].
    apply respects_set, Hkey.
Qed.

Lemma respects_adapter_call (p : Provider) (lat lon : Q) (timestamp : Z) :
  permitted (p, lat, lon, Some timestamp) ->
  respects protected permitted (adapter_call p lat lon timestamp).
Proof.
  intros Hcall w o w' [= _ <-]. repeat split; auto.
  exists [(p, lat, lon, Some timestamp)]. split; [reflexivity|]. now constructor.
Qed.

End Frame.

(** *** Cache keys *)


Lemma cacheKey_not_ratelimit (p : Provider) (lat lon : Q) (t : Z) (apiName userId : string) :
  cacheKey_of p lat lon t <> RateLimiter.key_of apiName userId.
Proof. unfold cacheKey_of, RateLimiter.key_of. simpl. discriminate. Qed.

Lemma cacheKey_not_stats (p : Provider) (lat lon : Q) (t : Z) (apiName : string) (w : World) :
  cacheKey_of p lat lon t <> RateLimiter.stats_key apiName w.
Proof. unfold cacheKey_of, RateLimiter.stats_key. simpl. discriminate. Qed.





Lemma get_pure (key : string) (w : World) : exists v, RedisClient.get key w = (Ok v, w).
Proof.
  unfold RedisClient.get. destruct (negb (RedisClient.isAvailable w)); [now eexists|].
  unfold try_catch, Server.GET, Server.command. destruct (responsive w); now eexists.
Qed.

Lemma checkRateLimit_total (limits : gmap string RateLimiter.Limit) (apiName userId : string)
    (w : World) :
  exists allowed w', RateLimiter.checkRateLimit limits apiName userId w = (Ok allowed, w').
Proof.
  unfold RateLimiter.checkRateLimit, try_catch.
  match goal with |- context [let (_, _) := ?m in _] => destruct m as [[allowed|message] w'] end;
    now eexists _, _.
Qed.

Lemma setex_total (key : string) (seconds : Z) (v : Stored) (w : World) :
  exists ok w', RedisClient.setex key seconds v w = (Ok ok, w').
Proof.
  unfold RedisClient.setex, RedisClient.set.
  destruct (negb (RedisClient.isAvailable w)); [now eexists _, _|].
  unfold try_catch.
  match goal with |- context [let (_, _) := ?m in _] => destruct m as [[ok|message] w'] end;
    now eexists _, _.
Qed.

(** The ways the [try] block of one iteration completes normally: a cache
    hit, a denial by the rate limiter, or a fetch that is then cached and
    logged. *)
Lemma acquire_try_outcome (q : Provider) (point : Waypoint) (timestamp : Z)
    (acc acc' : list Source.t) (w w' : World) :
  acquire_try q point timestamp acc w = (Ok acc', w') ->
  exists la lo,
    lat point = JNum la /\ lon point = JNum lo /\
    ((exists r,
        RedisClient.get (cacheKey_of q la lo timestamp) w = (Ok (Some (SRecord r)), w) /\
        acc' = acc ++ [Source.mk q r true] /\ w' = w) \/
     (RedisClient.get (cacheKey_of q la lo timestamp) w = (Ok None, w) /\
      RateLimiter.checkRateLimit RateLimiter.limits (provider_name q) "global" w
      = (Ok false, w') /\
      acc' = acc) \/
     (exists w1 w2 w3 data ok,
        RedisClient.get (cacheKey_of q la lo timestamp) w = (Ok None, w) /\
        RateLimiter.checkRateLimit RateLimiter.limits (provider_name q) "global" w
        = (Ok true, w1) /\
        adapter_call q la lo timestamp w1 = (Ok data, w2) /\
        RedisClient.setex (cacheKey_of q la lo timestamp) 1800 (SRecord data) w2
        = (Ok ok, w3) /\
        RateLimiter.logApiCall (provider_name q) true 0 w3 = (Ok tt, w') /\
        acc' = acc ++ [Source.mk q data false])).
Proof.
  unfold acquire_try. unfold bind at 1. unfold lift at 1.
  destruct (lat point) as [| | |la| |]; simpl number_of; try discriminate.
  unfold bind at 1. unfold lift at 1.
  destruct (lon point) as [| | |lo| |]; simpl number_of; try discriminate.
  intros H. exists la, lo. split; [reflexivity|]. split; [reflexivity|].
  unfold bind at 1 in H.
  destruct (get_pure (cacheKey_of q la lo timestamp) w) as [cached Hget].
  rewrite Hget in H. rewrite Hget.
  destruct cached as [text|].
  - left. unfold bind, lift, ret in H.
    destruct text as [n|r|st]; simpl in H; try discriminate.
    injection H as <- <-. now exists r.
  - right. unfold bind at 1 in H.
    destruct (checkRateLimit_total RateLimiter.limits (provider_name q) "global" w)
      as (allowed & w1 & Hcheck).
    rewrite Hcheck in H. rewrite Hcheck.
    destruct allowed; cbn [negb] in H; cbv beta iota in H.
    + right. unfold bind at 1 in H.
      destruct (adapter_call q la lo timestamp w1) as [[data|message] w2] eqn:Hcall;
        [|discriminate H].
      unfold bind at 1 in H.
      destruct (setex_total (cacheKey_of q la lo timestamp) 1800 (SRecord data) w2)
        as (ok & w3 & Hset).
      rewrite Hset in H.
      unfold bind at 1 in H.
      destruct (logApiCall_total (provider_name q) true 0 w3) as (w4 & Hlog).
      rewrite Hlog in H. unfold ret in H. injection H as <- <-.
      exists w1, w2, w3, data, ok. repeat split; auto.
    + left. unfold ret in H. injection H as <- <-. auto.
Qed.

Lemma acquire_outcome (q : Provider) (point : Waypoint) (timestamp : Z)
    (acc acc' : list Source.t) (w w' : World) :
  acquire q point timestamp acc w = (Ok acc', w') ->
  acc' = acc \/
  (apiKey (env w) q = true /\ acquire_try q point timestamp acc w = (Ok acc', w')).
Proof.
  unfold acquire. destruct (apiKey (env w) q); simpl negb; cbv iota.
  - unfold try_catch.
    destruct (acquire_try q point timestamp acc w) as [[sources|message] w1].
    + intros [= <- <-]. now right.
    + unfold bind.
      destruct (logApiCall_total (provider_name q) false 0 w1) as [w2 ->].
      intros [= <- _]. now left.
  - intros [= <- _]. now left.
Qed.

(** One iteration adds at most one source, of its own provider. *)
Lemma acquire_sources (q : Provider) (point : Waypoint) (timestamp : Z)
    (acc acc' : list Source.t) (w w' : World) :
  acquire q point timestamp acc w = (Ok acc', w') ->
  acc' = acc \/ exists data cached, acc' = acc ++ [Source.mk q data cached].
Proof.
  intros H. apply acquire_outcome in H as [-> | [_ H]]; [now left|].
  apply acquire_try_outcome in H
    as (la & lo & _ & _ & [(r & _ & -> & _) | [(_ & _ & ->) | H]]).
  - right. now eexists _, _.
  - now left.
  - destruct H as (w1 & w2 & w3 & data & ok & _ & _ & _ & _ & _ & ->).
    right. now eexists _, _.
Qed.

(** One iteration writes only its own cache key, the rate-limit key and
    the statistics key, and calls no adapter but its own. *)
Lemma respects_acquire_keys (protected : string -> Prop) (permitted : Call -> Prop)
    (q : Provider) (point : Waypoint) (timestamp : Z) (acc : list Source.t) :
  (forall la lo t, ~ protected (cacheKey_of q la lo t)) ->
  (forall a u, ~ protected (RateLimiter.key_of a u)) ->
  (forall a w, ~ protected (RateLimiter.stats_key a w)) ->
  (forall c, call_provider c = q -> permitted c) ->
  respects protected permitted (acquire q point timestamp acc).
Proof.
  intros Hcache Hlimit Hstats Hcalls.
  intros w. unfold acquire. destruct (negb (apiKey (env w) q)).
  { intros o w' [= _ <-]. apply changes_only_refl. }
  revert w.
  change (respects protected permitted
            (try_catch (acquire_try q point timestamp acc)
               (fun _ => let* _ := RateLimiter.logApiCall (provider_name q) false 0 in ret acc))).
  apply respects_try_catch.
  - unfold acquire_try.
    apply respects_bind; [apply respects_lift|]. intros la.
    apply respects_bind; [apply respects_lift|]. intros lo.
    apply respects_bind; [apply respects_get|]. intros [text|].
    + apply respects_bind; [apply respects_lift | intros; apply respects_ret].
    + apply respects_bind; [now apply respects_checkRateLimit|]. intros allowed.
      apply respects_if; [apply respects_ret|].
      apply respects_bind; [now apply respects_adapter_call, Hcalls|]. intros data.
      apply respects_bind; [apply respects_set, Hcache|]. intros _.
      apply respects_bind; [now apply respects_logApiCall | intros; apply respects_ret].
  - intros message.
    apply respects_bind; [now apply respects_logApiCall | intros; apply respects_ret].
Qed.


(** The whole loop leaves the environment, the connection and the clock as
    they are. *)
Lemma collect_changes (point : Waypoint) (timestamp : Z) (providers : list Provider) :
  forall (acc acc' : list Source.t) (w w' : World),
    collect providers point timestamp acc w = (Ok acc', w') ->
    changes_only (fun _ => False) (fun _ => True) w w'.
Proof.
  induction providers as [|q rest IH]; intros acc acc' w w' H.
  - injection H as _ <-. apply changes_only_refl.
  - cbn [collect] in H. unfold bind in H.
    destruct (acquire q point timestamp acc w) as [[acc1|message] w1] eqn:E;
      [|discriminate H].
    eapply changes_only_trans; [|eapply IH; exact H].
    eapply (respects_acquire_keys (fun _ => False) (fun _ => True)); eauto.
Qed.












(** ** More on fusion *)

Lemma sort_insert_sorted (x : Source.t) (l : list Source.t) :
  StronglySorted (fun a b => descending (Source.provider a) (Source.provider b)) l ->
  StronglySorted (fun a b => descending (Source.provider a) (Source.provider b))
    (sort_insert x l).
Proof.
  induction 1 as [|y l Hl IH Hy]; simpl.
  - repeat constructor.
  - unfold compareFn. destruct (Z.leb_spec (priority (Source.provider y) - priority (Source.provider x)) 0).
    + constructor; [now constructor|].
      constructor; [unfold descending; lia|].
      eapply List.Forall_impl; [|exact Hy]. unfold descending. intros s Hs. lia.
    + constructor; [exact IH|].
      eapply Permutation_Forall; [symmetry; apply sort_insert_perm|].
      constructor; [unfold descending; lia | exact Hy].
Qed.

Lemma Array_sort_sorted (l : list Source.t) :
  StronglySorted (fun a b => descending (Source.provider a) (Source.provider b))
    (Array_sort l).
Proof.
  induction l as [|x l IH]; simpl; [constructor | now apply sort_insert_sorted].
Qed.

(** The sort is stable: the sources of one provider keep their order. *)
Lemma sort_insert_stable (p : Provider) (x : Source.t) (l : list Source.t) :
  StronglySorted (fun a b => descending (Source.provider a) (Source.provider b)) l ->
  List.filter (fun s => bool_decide (Source.provider s = p)) (sort_insert x l)
  = List.filter (fun s => bool_decide (Source.provider s = p)) (x :: l).
Proof.
  induction 1 as [|y l Hl IH Hy]; [reflexivity|].
  cbn [sort_insert]. unfold compareFn.
  destruct (Z.leb_spec (priority (Source.provider y) - priority (Source.provider x)) 0);
    [reflexivity|].
  cbn [List.filter]. rewrite IH. cbn [List.filter].
  destruct (bool_decide (Source.provider x = p)) eqn:Ex,
           (bool_decide (Source.provider y = p)) eqn:Ey; try reflexivity.
  apply bool_decide_eq_true in Ex, Ey. rewrite Ex, Ey in *. lia.
Qed.

Lemma Array_sort_stable (p : Provider) (l : list Source.t) :
  List.filter (fun s => bool_decide (Source.provider s = p)) (Array_sort l)
  = List.filter (fun s => bool_decide (Source.provider s = p)) l.
Proof.
  induction l as [|x l IH]; [reflexivity|].
  cbn [Array_sort fold_right]. fold (Array_sort l).
  rewrite sort_insert_stable by apply Array_sort_sorted.
  cbn [List.filter]. now rewrite IH.
Qed.

Lemma StronglySorted_map {A B} (R : B -> B -> Prop) (g : A -> B) (l : list A) :
  StronglySorted (fun a b => R (g a) (g b)) l -> StronglySorted R (map g l).
Proof.
  induction 1 as [|x l _ IH Hx]; simpl; constructor; [exact IH|].
  rewrite List.Forall_forall in *. intros q Hq.
  apply in_map_iff in Hq as (s & <- & Hin). now apply Hx.
Qed.

(** X1.  The [sources] of a fused record are the providers of the input in
    descending priority, the primary first; the sources of one provider
    stay in their input order, so among several records of the primary
    provider the first one given is the base. *)
Theorem X1_fused_sources_sorted (sources : list Source.t) (f : FusedRecord.t) :
  mergeWeatherData sources = Ok f ->
  Permutation (FusedRecord.sources f) (map Source.provider sources) /\
  StronglySorted descending (FusedRecord.sources f) /\
  hd_error (FusedRecord.sources f) = Some (FusedRecord.primary f) /\
  exists first,
    hd_error (List.filter (fun s => bool_decide (Source.provider s = FusedRecord.primary f))
                sources) = Some first /\
    FusedRecord.base f = Some (Source.data first).
Proof.
  intros Hf.
  destruct (Array_sort sources) as [|first rest] eqn:E.
  { unfold mergeWeatherData in Hf. rewrite E in Hf. discriminate Hf. }
  destruct (mergeWeatherData_spec sources first rest E) as (f' & Hf' & Hp & Hb & Hs).
  rewrite Hf in Hf'. injection Hf' as <-.
  rewrite Hs, Hp, <- E. split; [apply Permutation_map, Array_sort_perm|].
  split.
  { apply StronglySorted_map, Array_sort_sorted. }
  split; [now rewrite E|].
  exists first. split; [|exact Hb].
  rewrite <- (Array_sort_stable (Source.provider first) sources), E. simpl.
  now rewrite bool_decide_eq_true_2.
Qed.

Lemma X1_fused_sources_sorted_witness :
  exists f,
    mergeWeatherData sample_sources = Ok f /\
    Permutation (FusedRecord.sources f) (map Source.provider sample_sources) /\
    StronglySorted descending (FusedRecord.sources f) /\
    hd_error (FusedRecord.sources f) = Some (FusedRecord.primary f) /\
    exists first,
      hd_error (List.filter (fun s => bool_decide (Source.provider s = FusedRecord.primary f))
                  sample_sources) = Some first /\
      FusedRecord.base f = Some (Source.data first).
Proof.
  eexists. split; [reflexivity|].
  apply (X1_fused_sources_sorted sample_sources). reflexivity.
Defined.

(** X2.  Fusion fails exactly on an empty list of sources; a single source
    is returned as it is, with itself as primary and without warnings. *)
Theorem X2_fusion_edge_inputs (sources : list Source.t) (s : Source.t) :
  ((exists message, mergeWeatherData sources = Thrown message) <-> sources = []) /\
  exists f,
    mergeWeatherData [s] = Ok f /\
    FusedRecord.base f = Some (Source.data s) /\
    FusedRecord.primary f = Source.provider s /\
    FusedRecord.sources f = [Source.provider s] /\
    FusedRecord.warnings f = [].
Proof.
  split.
  - split.
    + intros [message H]. destruct sources as [|x l]; [reflexivity|].
      destruct (mergeWeatherData_primary (x :: l)) as (f & _ & Hf & _); [discriminate|].
      rewrite Hf in H. discriminate H.
    + intros ->. now eexists.
  - eexists. split; [reflexivity|]. simpl.
    unfold FusedRecord.base. simpl. now destruct (Source.data s).
Qed.

(** ** The sources and the summary of a route *)

Lemma add_source_spec (acc : list Provider) (source : Provider) :
  let acc' := if bool_decide (source ∈ acc) then acc else acc ++ [source] in
  (List.NoDup acc -> List.NoDup acc') /\
  (forall p, In p acc' <-> In p acc \/ p = source).
Proof.
  destruct (bool_decide (source ∈ acc)) eqn:E; simpl.
  - apply bool_decide_eq_true in E. apply list_elem_of_In in E. split; [auto|].
    intros p. split; [auto|]. intros [H | ->]; assumption.
  - apply bool_decide_eq_false in E. rewrite list_elem_of_In in E. split.
    + intros Hnd. apply List.NoDup_app.
      * exact Hnd.
      * repeat constructor. intros [].
      * intros x Hx [<- | []]. contradiction.
    + intros p. rewrite in_app_iff. simpl. intuition.
Qed.

Lemma add_sources_spec (added acc : list Provider) :
  let acc' :=
    fold_left (fun acc source => if bool_decide (source ∈ acc) then acc else acc ++ [source])
      added acc in
  (List.NoDup acc -> List.NoDup acc') /\
  (forall p, In p acc' <-> In p acc \/ In p added).
Proof.
  revert acc. induction added as [|source added IH]; intros acc; simpl.
  - split; [auto|]. intros p. intuition.
  - destruct (add_source_spec acc source) as [Hnd Hin].
    destruct (IH (if bool_decide (source ∈ acc) then acc else acc ++ [source])) as [Hnd' Hin'].
    split; [auto|].
    intros p. rewrite Hin', Hin. intuition.
Qed.

Lemma getUsedSources_from (weatherResults : list WeatherResult.t) (acc : list Provider) :
  let used :=
    fold_left
      (fun sources result =>
         match WeatherResult.weather result with
         | Some weather =>
             fold_left (fun acc source =>
                          if bool_decide (source ∈ acc) then acc else acc ++ [source])
                       (FusedRecord.sources weather) sources
         | None => sources
         end)
      weatherResults acc in
  (List.NoDup acc -> List.NoDup used) /\
  (forall p,
     In p used <->
     In p acc \/
     exists result weather,
       In result weatherResults /\ WeatherResult.weather result = Some weather /\
       In p (FusedRecord.sources weather)).
Proof.
  revert acc. induction weatherResults as [|result rest IH]; intros acc; simpl.
  - split; [auto|]. intros p. split; [auto|]. intros [H | (r & f & [] & _)]. exact H.
  - destruct (WeatherResult.weather result) as [weather|] eqn:Ew.
    + destruct (add_sources_spec (FusedRecord.sources weather) acc) as [Hnd Hin].
      destruct (IH (fold_left
                      (fun acc source =>
                         if bool_decide (source ∈ acc) then acc else acc ++ [source])
                      (FusedRecord.sources weather) acc)) as [Hnd' Hin'].
      split; [auto|].
      intros p. rewrite Hin', Hin. split.
      * intros [[H | H] | (r & f & Hr & Hw & Hp)]; [now left | right | right].
        -- exists result, weather. auto.
        -- exists r, f. auto.
      * intros [H | (r & f & [<- | Hr] & Hw & Hp)]; [now left; left | |].
        -- rewrite Ew in Hw. injection Hw as <-. left. now right.
        -- right. exists r, f. auto.
    + destruct (IH acc) as [Hnd Hin]. split; [exact Hnd|].
      intros p. rewrite Hin. split.
      * intros [H | (r & f & Hr & Hw & Hp)]; [now left|]. right. exists r, f. auto.
      * intros [H | (r & f & [<- | Hr] & Hw & Hp)]; [now left | congruence |].
        right. exists r, f. auto.
Qed.

(** X3.  The [sources] of a route response list every provider that
    contributed to the fused record of some waypoint, each once, and no
    other provider; waypoints without weather contribute nothing. *)
Theorem X3_used_sources (weatherResults : list WeatherResult.t) (p : Provider) :
  List.NoDup (getUsedSources weatherResults) /\
  (In p (getUsedSources weatherResults) <->
   exists result weather,
     In result weatherResults /\ WeatherResult.weather result = Some weather /\
     In p (FusedRecord.sources weather)).
Proof.
  destruct (getUsedSources_from weatherResults []) as [Hnd Hin].
  split; [apply Hnd; constructor|].
  unfold getUsedSources. rewrite Hin. split; [|auto].
  intros [[] | H]. exact H.
Qed.

Lemma sum_reduce_bounds (values : list Q) (lo hi : Q) :
  (forall v, In v values -> (lo <= v)%Q /\ (v <= hi)%Q) ->
  forall acc,
    (acc + inject_Z (Z.of_nat (length values)) * lo <= fold_left Qplus values acc)%Q /\
    (fold_left Qplus values acc <= acc + inject_Z (Z.of_nat (length values)) * hi)%Q.
Proof.
  induction values as [|x values IH]; intros Hb acc.
  - cbn [length fold_left]. change (inject_Z (Z.of_nat 0)) with 0%Q. split; lra.
  - destruct (Hb x (or_introl eq_refl)) as [Hlo Hhi].
    destruct (IH (fun v Hv => Hb v (or_intror Hv)) (acc + x)%Q) as [IHlo IHhi].
    cbn [fold_left length]. rewrite Nat2Z.inj_succ. unfold Z.succ. rewrite inject_Z_plus.
    change (inject_Z 1) with 1%Q. split; lra.
Qed.

Lemma Math_round_near (q : Q) : (q - (1 # 2) < Math_round q)%Q /\ (Math_round q <= q + (1 # 2))%Q.
Proof.
  unfold Math_round. pose proof (Qfloor_le (q + (1 # 2))) as Hle.
  pose proof (Qlt_floor (q + (1 # 2))) as Hlt.
  rewrite inject_Z_plus in Hlt. change (inject_Z 1) with 1%Q in Hlt. split; lra.
Qed.

(** The range of a non-empty array: its least and greatest elements and a
    rounded mean between them; of an empty array: the non-finite values. *)
Lemma range_of_spec (values : list Q) :
  match values with
  | [] =>
      range_of values
      = {| Summary.min := Infinity; Summary.max := NegInfinity; Summary.avg := NaN |}
  | _ :: _ =>
      exists lo hi a,
        range_of values
        = {| Summary.min := Finite lo; Summary.max := Finite hi; Summary.avg := Finite a |} /\
        In lo values /\ In hi values /\
        (forall v, In v values -> (lo <= v)%Q /\ (v <= hi)%Q) /\
        (lo - (1 # 2) < a)%Q /\ (a <= hi + (1 # 2))%Q
  end.
Proof.
  destruct values as [|x rest]; [reflexivity|].
  eexists _, _, _. split; [reflexivity|].
  split; [apply Math_min_in|]. split; [apply Math_max_in|].
  assert (forall v, In v (x :: rest) ->
            (Math_min x rest <= v)%Q /\ (v <= Math_max x rest)%Q) as Hb.
  { intros v Hv. split; [now apply Math_min_lower | now apply Math_max_upper]. }
  split; [exact Hb|].
  destruct (sum_reduce_bounds (x :: rest) _ _ Hb 0%Q) as [Hlo Hhi].
  fold (sum_reduce (x :: rest)) in Hlo, Hhi.
  set (n := inject_Z (Z.of_nat (length (x :: rest)))) in *.
  assert (0 < n)%Q as Hn.
  { subst n. change 0%Q with (inject_Z 0). rewrite <- Zlt_Qlt. simpl length. lia. }
  set (total := sum_reduce (x :: rest)) in *.
  assert (Math_min x rest <= total / n)%Q as Hmlo.
  { apply Qle_shift_div_l; [exact Hn|]. lra. }
  assert (total / n <= Math_max x rest)%Q as Hmhi.
  { apply Qle_shift_div_r; [exact Hn|]. lra. }
  destruct (Math_round_near (total / n)) as [H1 H2].
  split; lra.
Qed.

Lemma validResults_of_length (weatherResults : list WeatherResult.t) :
  (length (validResults_of weatherResults) <= length weatherResults)%nat.
Proof.
  induction weatherResults as [|r rest IH]; simpl; [lia|].
  destruct (WeatherResult.weather r); simpl; lia.
Qed.

Lemma validResults_of_nil (weatherResults : list WeatherResult.t) :
  validResults_of weatherResults = [] ->
  forall r, In r weatherResults -> WeatherResult.weather r = None.
Proof.
  induction weatherResults as [|x rest IH]; simpl; [intros _ r []|].
  destruct (WeatherResult.weather x) eqn:E; [discriminate|].
  intros H r [<- | Hr]; [exact E | now apply IH].
Qed.

Lemma coverage_bounds (valid total : nat) :
  (1 <= valid)%nat -> (valid <= total)%nat ->
  let c := Math_round (inject_Z (Z.of_nat valid) / inject_Z (Z.of_nat total) * 100)%Q in
  (0 <= c)%Q /\ (c <= 100)%Q.
Proof.
  intros Hv Ht.
  set (v := inject_Z (Z.of_nat valid)). set (t := inject_Z (Z.of_nat total)).
  assert (0 < t)%Q as Htpos.
  { subst t. change 0%Q with (inject_Z 0). rewrite <- Zlt_Qlt. lia. }
  assert (0 <= v)%Q as Hvpos.
  { subst v. change 0%Q with (inject_Z 0). rewrite <- Zle_Qle. lia. }
  assert (v <= t)%Q as Hvt.
  { subst v t. rewrite <- Zle_Qle. lia. }
  assert (0 <= v / t)%Q as H0.
  { apply Qle_shift_div_l; [exact Htpos|]. lra. }
  assert (v / t <= 1)%Q as H1.
  { apply Qle_shift_div_r; [exact Htpos|]. lra. }
  cbv zeta. unfold Math_round.
  set (x := (v / t)%Q) in *. clearbody x.
  set (k := Qfloor (x * 100 + (1 # 2))).
  assert (0 <= k <= 100) as Hk.
  { subst k. split.
    - change 0 with (Qfloor 0%Q). apply Qfloor_resp_le. lra.
    - assert (Qfloor (x * 100 + (1 # 2)) <= Qfloor (100 + (1 # 2))%Q) as H
        by (apply Qfloor_resp_le; lra).
      exact H. }
  change 0%Q with (inject_Z 0). change 100%Q with (inject_Z 100).
  rewrite <- !Zle_Qle. lia.
Qed.

(** X4.  The summary of a route is the message form exactly when no
    waypoint has weather.  Otherwise [dataPoints] counts the waypoints that
    have weather, [coveragePercentage] lies between 0 and 100, and each of
    the temperature and wind ranges gives the least and the greatest of the
    values present and a rounded mean within half a unit of that interval;
    when every value is null the range is Infinity, -Infinity and NaN. *)
Theorem X4_summary (weatherResults : list WeatherResult.t) :
  match generateWeatherSummary weatherResults with
  | Summary.Message _ =>
      forall r, In r weatherResults -> WeatherResult.weather r = None
  | Summary.Stats temperatureRange windRange _ dataPoints coveragePercentage =>
      dataPoints = length (validResults_of weatherResults) /\
      (1 <= dataPoints <= length weatherResults)%nat /\
      (0 <= coveragePercentage)%Q /\ (coveragePercentage <= 100)%Q /\
      (forall values range,
         (values = non_null (map FusedRecord.temperature (validResults_of weatherResults)) /\
          range = temperatureRange) \/
         (values = non_null (map FusedRecord.windSpeed (validResults_of weatherResults)) /\
          range = windRange) ->
         match values with
         | [] =>
             range = {| Summary.min := Infinity; Summary.max := NegInfinity;
                        Summary.avg := NaN |}
         | _ :: _ =>
             exists lo hi a,
               range = {| Summary.min := Finite lo; Summary.max := Finite hi;
                          Summary.avg := Finite a |} /\
               In lo values /\ In hi values /\
               (forall v, In v values -> (lo <= v)%Q /\ (v <= hi)%Q) /\
               (lo - (1 # 2) < a)%Q /\ (a <= hi + (1 # 2))%Q
         end)
  end.
Proof.
  unfold generateWeatherSummary.
  pose proof (validResults_of_length weatherResults) as Hlen.
  destruct (validResults_of weatherResults) as [|weather valid] eqn:E.
  - now apply validResults_of_nil.
  - split; [reflexivity|]. split; [simpl length in *; lia|].
    destruct (coverage_bounds (length (weather :: valid)) (length weatherResults))
      as [Hc0 Hc100]; [simpl; lia | exact Hlen |].
    split; [exact Hc0|]. split; [exact Hc100|].
    intros values range [[-> ->] | [-> ->]]; apply range_of_spec.
Qed.

(** ** More on the Redis client *)

Lemma live_advance_other (w : World) (d : gmap string Entry) (key key' : string) (e : Entry)
    (ms : Z) :
  key' <> key ->
  Server.live (advance ms (with_db (<[key := e]> d) w)) key'
  = Server.live (advance ms (with_db d w)) key'.
Proof. intros Hne. unfold Server.live. simpl. now rewrite lookup_insert_ne. Qed.

(** X5.  With the store up, a value written with [setex] is read back by
    [get] for as long as its expiry has not passed, and is gone from then
    on; the write leaves every other key as it was. *)
Theorem X5_setex_get_round_trip (w : World) (key key' : string) (seconds d : Z) (v : Stored) :
  store_up w ->
  0 < seconds ->
  0 <= d ->
  key' <> key ->
  exists w1,
    RedisClient.setex key seconds v w = (Ok true, w1) /\
    (d < seconds * 1000 ->
     RedisClient.get key (advance d w1) = (Ok (Some v), advance d w1)) /\
    (seconds * 1000 <= d ->
     RedisClient.get key (advance d w1) = (Ok None, advance d w1)) /\
    fst (RedisClient.get key' (advance d w1)) = fst (RedisClient.get key' (advance d w)).
Proof.
  intros Hup Hs Hd Hne.
  rewrite (setex_up key seconds v w Hup Hs). eexists. split; [reflexivity|].
  set (w1 := with_db _ w).
  assert (store_up (advance d w1)) as Hup1 by exact Hup.
  rewrite !(get_up _ _ Hup1), (get_up _ _ (store_up_advance d w Hup)).
  subst w1. unfold Server.live at 1 2. simpl. rewrite lookup_insert_eq.
  unfold Server.expired. simpl.
  repeat split.
  - intros Hlt. destruct (Z.leb_spec (now w + seconds * 1000) (now w + d)); [lia | reflexivity].
  - intros Hle. destruct (Z.leb_spec (now w + seconds * 1000) (now w + d)); [reflexivity | lia].
  - rewrite live_advance_other by exact Hne. now rewrite with_db_db.
Qed.

Lemma X5_setex_get_round_trip_witness :
  exists w1,
    RedisClient.setex "weather:aemet:40.417:-3.704:487978" 1800 (SRecord sample_aemet_record)
      sample_world = (Ok true, w1) /\
    (600000 < 1800 * 1000 ->
     RedisClient.get "weather:aemet:40.417:-3.704:487978" (advance 600000 w1)
     = (Ok (Some (SRecord sample_aemet_record)), advance 600000 w1)) /\
    (1800 * 1000 <= 600000 ->
     RedisClient.get "weather:aemet:40.417:-3.704:487978" (advance 600000 w1)
     = (Ok None, advance 600000 w1)) /\
    fst (RedisClient.get "ratelimit:aemet:global" (advance 600000 w1))
    = fst (RedisClient.get "ratelimit:aemet:global" (advance 600000 sample_world)).
Proof.
  apply (X5_setex_get_round_trip sample_world "weather:aemet:40.417:-3.704:487978"
           "ratelimit:aemet:global" 1800 600000 (SRecord sample_aemet_record)).
  - split; reflexivity.
  - lia.
  - lia.
  - discriminate.
Defined.

Lemma del_up (key : string) (w : World) :
  store_up w -> RedisClientKeys.del key w = (Ok true, with_db (delete key (db w)) w).
Proof.
  intros [Hav Hresp]. unfold RedisClientKeys.del. rewrite Hav. simpl.
  unfold try_catch, bind, ServerKeys.DEL, Server.command. now rewrite Hresp.
Qed.

Lemma exists_up (key : string) (w : World) :
  store_up w ->
  RedisClientKeys.exists_ key w
  = (Ok (match Server.live w key with Some _ => true | None => false end), w).
Proof.
  intros [Hav Hresp]. unfold RedisClientKeys.exists_. rewrite Hav. simpl.
  unfold try_catch, bind, ServerKeys.EXISTS, Server.command. rewrite Hresp.
  now destruct (Server.live w key).
Qed.

(** X6.  With the store up, [exists] is true exactly for the keys [get]
    finds; after [del] of a key, [get] finds nothing there and [exists] is
    false, while other keys are read as before; after [flushall] no key is
    found. *)
Theorem X6_del_exists_flushall (w : World) (key key' : string) :
  store_up w ->
  (fst (RedisClientKeys.exists_ key w) = Ok true <->
   exists v, fst (RedisClient.get key w) = Ok (Some v)) /\
  (exists w1,
     RedisClientKeys.del key w = (Ok true, w1) /\
     RedisClient.get key w1 = (Ok None, w1) /\
     RedisClientKeys.exists_ key w1 = (Ok false, w1) /\
     (key' <> key -> fst (RedisClient.get key' w1) = fst (RedisClient.get key' w))) /\
  (exists w2,
     RedisClientKeys.flushall w = (Ok true, w2) /\
     RedisClient.get key w2 = (Ok None, w2)).
Proof.
  intros Hup. split; [|split].
  - rewrite (exists_up key w Hup), (get_up key w Hup). simpl.
    destruct (Server.live w key) as [e|]; simpl.
    + split; [intros _; now eexists | reflexivity].
    + split; [discriminate | intros [v H]; discriminate H].
  - rewrite (del_up key w Hup). eexists. split; [reflexivity|].
    set (w1 := with_db _ w). assert (store_up w1) as Hup1 by exact Hup.
    rewrite (exists_up key w1 Hup1), !(get_up _ w1 Hup1), (get_up key' w Hup).
    subst w1. unfold Server.live. simpl. rewrite lookup_delete_eq.
    repeat split. intros Hne. now rewrite lookup_delete_ne.
  - destruct Hup as [Hav Hresp].
    unfold RedisClientKeys.flushall. rewrite Hav. simpl.
    unfold try_catch, bind, ServerKeys.FLUSHALL, Server.command. rewrite Hresp.
    eexists. split; [reflexivity|].
    rewrite get_up by (split; assumption).
    unfold Server.live. simpl. now rewrite lookup_empty.
Qed.

Lemma X6_del_exists_flushall_witness :
  (fst (RedisClientKeys.exists_ "weather:windy:40.417:-3.704:487978" sample_world1) = Ok true <->
   exists v, fst (RedisClient.get "weather:windy:40.417:-3.704:487978" sample_world1)
             = Ok (Some v)) /\
  (exists w1,
     RedisClientKeys.del "weather:windy:40.417:-3.704:487978" sample_world1 = (Ok true, w1) /\
     RedisClient.get "weather:windy:40.417:-3.704:487978" w1 = (Ok None, w1) /\
     RedisClientKeys.exists_ "weather:windy:40.417:-3.704:487978" w1 = (Ok false, w1) /\
     ("ratelimit:windy:global" <> "weather:windy:40.417:-3.704:487978" ->
      fst (RedisClient.get "ratelimit:windy:global" w1)
      = fst (RedisClient.get "ratelimit:windy:global" sample_world1))) /\
  (exists w2,
     RedisClientKeys.flushall sample_world1 = (Ok true, w2) /\
     RedisClient.get "weather:windy:40.417:-3.704:487978" w2 = (Ok None, w2)).
Proof.
  apply (X6_del_exists_flushall sample_world1 "weather:windy:40.417:-3.704:487978"
           "ratelimit:windy:global").
  split; reflexivity.
Defined.

Lemma del_down (key : string) (w : World) :
  store_down w -> RedisClientKeys.del key w = (Ok false, w).
Proof.
  intros [Hav | Hresp]; unfold RedisClientKeys.del.
  - now rewrite Hav.
  - destruct (negb (RedisClient.isAvailable w)); [reflexivity|].
    unfold try_catch, bind, ServerKeys.DEL, Server.command. now rewrite Hresp.
Qed.

(** X7.  With the store unavailable, the remaining wrappers return their
    fallbacks without throwing and without touching the world: [incr]
    answers 1, [expire], [del], [exists] and [flushall] answer false, and
    [ttl] answers -1. *)
Theorem X7_wrappers_fall_back (w : World) (key : string) (seconds : Z) :
  store_down w ->
  RedisClient.incr key w = (Ok 1, w) /\
  RedisClient.expire key seconds w = (Ok false, w) /\
  RedisClient.ttl key w = (Ok (-1), w) /\
  RedisClientKeys.del key w = (Ok false, w) /\
  RedisClientKeys.exists_ key w = (Ok false, w) /\
  RedisClientKeys.flushall w = (Ok false, w).
Proof.
  intros Hdown. split; [now apply incr_down|]. split; [now apply expire_down|].
  destruct Hdown as [Hav | Hresp].
  - unfold RedisClient.ttl, RedisClientKeys.del, RedisClientKeys.exists_,
      RedisClientKeys.flushall. rewrite Hav. simpl. auto.
  - unfold RedisClient.ttl, RedisClientKeys.del, RedisClientKeys.exists_,
      RedisClientKeys.flushall.
    destruct (negb (RedisClient.isAvailable w)); [auto|].
    unfold try_catch, bind, Server.TTL, ServerKeys.DEL, ServerKeys.EXISTS,
      ServerKeys.FLUSHALL, Server.command.
    rewrite Hresp. auto.
Qed.

Lemma X7_wrappers_fall_back_witness :
  RedisClient.incr "ratelimit:aemet:global" sample_world_disconnected
  = (Ok 1, sample_world_disconnected) /\
  RedisClient.expire "ratelimit:aemet:global" 3600 sample_world_disconnected
  = (Ok false, sample_world_disconnected) /\
  RedisClient.ttl "ratelimit:aemet:global" sample_world_disconnected
  = (Ok (-1), sample_world_disconnected) /\
  RedisClientKeys.del "ratelimit:aemet:global" sample_world_disconnected
  = (Ok false, sample_world_disconnected) /\
  RedisClientKeys.exists_ "ratelimit:aemet:global" sample_world_disconnected
  = (Ok false, sample_world_disconnected) /\
  RedisClientKeys.flushall sample_world_disconnected = (Ok false, sample_world_disconnected).
Proof.
  apply (X7_wrappers_fall_back sample_world_disconnected "ratelimit:aemet:global" 3600).
  left. reflexivity.
Defined.

(** ** More on the rate limiter *)

Lemma getRemainingRequests_up (limits : gmap string RateLimiter.Limit) (apiName userId : string)
    (limit : RateLimiter.Limit) (w : World) :
  store_up w ->
  limits !! apiName = Some limit ->
  RateLimiterStatus.getRemainingRequests limits apiName userId w
  = (Ok (match Server.live w (RateLimiter.key_of apiName userId) with
         | Some e =>
             match RateLimiterStatus.parseInt_stored (stored e) with
             | Some used => Some (Finite (inject_Z (Z.max 0 (RateLimiter.max limit - used))))
             | None => Some NaN
             end
         | None => Some (Finite (inject_Z (Z.max 0 (RateLimiter.max limit - 0))))
         end), w).
Proof.
  intros Hup Hlim. unfold RateLimiterStatus.getRemainingRequests, try_catch. rewrite Hlim.
  unfold bind. rewrite (get_up _ _ Hup).
  destruct (Server.live w _) as [e|]; simpl; [|reflexivity].
  now destruct (RateLimiterStatus.parseInt_stored (stored e)).
Qed.

(** X8.  With the store up, the remaining budget reported for a provider is
    its limit minus the counter, never below zero; the next check is allowed
    exactly when that budget is positive, and the check takes one off it. *)
Theorem X8_remaining_budget (limits : gmap string RateLimiter.Limit) (apiName userId : string)
    (limit : RateLimiter.Limit) (w : World) (used : Z) :
  store_up w ->
  limits !! apiName = Some limit ->
  0 < RateLimiter.window limit ->
  (used = 0 /\ Server.live w (RateLimiter.key_of apiName userId) = None) \/
  (1 <= used /\ exists deadline,
     counter_at w (RateLimiter.key_of apiName userId) used (Some deadline)) ->
  let r := Z.max 0 (RateLimiter.max limit - used) in
  RateLimiterStatus.getRemainingRequests limits apiName userId w
  = (Ok (Some (Finite (inject_Z r))), w) /\
  exists w',
    RateLimiter.checkRateLimit limits apiName userId w = (Ok (0 <? r), w') /\
    RateLimiterStatus.getRemainingRequests limits apiName userId w'
    = (Ok (Some (Finite (inject_Z (Z.max 0 (r - 1))))), w').
Proof.
  intros Hup Hlim Hwin Hstate r.
  rewrite (getRemainingRequests_up limits apiName userId limit w Hup Hlim).
  destruct Hstate as [[-> Hnone] | [Hused [deadline Hc]]].
  - rewrite Hnone. split; [reflexivity|].
    rewrite (checkRateLimit_fresh limits apiName userId limit w Hup Hlim Hnone).
    eexists. split.
    + f_equal. f_equal. subst r. lia.
    + match goal with |- _ ?w1 = _ => assert (store_up w1) as Hup1 by exact Hup end.
      rewrite (getRemainingRequests_up limits apiName userId limit _ Hup1 Hlim).
      rewrite live_insert. unfold Server.expired. simpl.
      destruct (Z.leb_spec (now w + RateLimiter.window limit * 1000) (now w)); [lia|].
      simpl. do 4 f_equal. apply (f_equal inject_Z). subst r. lia.
  - pose proof (counter_at_now _ _ _ _ Hc) as Hnow.
    unfold counter_at in Hc. rewrite Hc. simpl. split; [reflexivity|].
    rewrite (checkRateLimit_counting limits apiName userId limit w used (Some deadline)
               Hup Hlim Hc ltac:(lia)).
    eexists. split.
    + f_equal. f_equal. subst r. lia.
    + match goal with |- _ ?w1 = _ => assert (store_up w1) as Hup1 by exact Hup end.
      rewrite (getRemainingRequests_up limits apiName userId limit _ Hup1 Hlim).
      rewrite live_insert. unfold Server.expired. simpl.
      destruct (Z.leb_spec deadline (now w)); [lia|].
      simpl. do 4 f_equal. apply (f_equal inject_Z). subst r. lia.
Qed.

Lemma X8_remaining_budget_witness :
  let r := Z.max 0 (400 - 0) in
  RateLimiterStatus.getRemainingRequests RateLimiter.limits "windy" "global" sample_world
  = (Ok (Some (Finite (inject_Z r))), sample_world) /\
  exists w',
    RateLimiter.checkRateLimit RateLimiter.limits "windy" "global" sample_world
    = (Ok (0 <? r), w') /\
    RateLimiterStatus.getRemainingRequests RateLimiter.limits "windy" "global" w'
    = (Ok (Some (Finite (inject_Z (Z.max 0 (r - 1))))), w').
Proof.
  apply (X8_remaining_budget RateLimiter.limits "windy" "global"
           {| RateLimiter.max := 400; RateLimiter.window := 3600 |} sample_world 0).
  - split; reflexivity.
  - reflexivity.
  - simpl. lia.
  - left. split; reflexivity.
Defined.

Lemma getResetTime_up (apiName userId : string) (w : World) :
  store_up w ->
  RateLimiterStatus.getResetTime apiName userId w
  = (Ok (let ttl :=
           match Server.live w (RateLimiter.key_of apiName userId) with
           | None => -2
           | Some e =>
               match expireAt e with
               | None => -1
               | Some deadline => (deadline - now w + 500) / 1000
               end
           end in
         if ttl >? 0 then Some (now w + ttl * 1000) else None), w).
Proof.
  intros [Hav Hresp]. unfold RateLimiterStatus.getResetTime, try_catch, bind.
  unfold RedisClient.ttl. rewrite Hav. simpl.
  unfold try_catch, Server.TTL, Server.command. rewrite Hresp.
  destruct (Server.live w _) as [e|]; [destruct (expireAt e) as [deadline|]|]; simpl;
    try reflexivity.
  now destruct ((deadline - now w + 500) / 1000 >? 0).
Qed.

(** X9.  With the store up and a counter running, the status of a provider
    gives its limit and window, the remaining budget, and a reset time
    within half a second of the counter's deadline; the reset time is null
    when less than half a second of the window is left. *)
Theorem X9_status_of_running_window (limits : gmap string RateLimiter.Limit)
    (apiName userId : string) (limit : RateLimiter.Limit) (w : World) (used deadline : Z) :
  store_up w ->
  limits !! apiName = Some limit ->
  counter_at w (RateLimiter.key_of apiName userId) used (Some deadline) ->
  exists s,
    RateLimiterStatus.getStatus limits apiName userId w = (Ok (Some s), w) /\
    RateLimiterStatus.limit s = RateLimiter.max limit /\
    RateLimiterStatus.windowSeconds s = RateLimiter.window limit /\
    RateLimiterStatus.remaining s
    = Some (Finite (inject_Z (Z.max 0 (RateLimiter.max limit - used)))) /\
    (RateLimiterStatus.resetTime s = None <-> deadline - now w < 500) /\
    (forall t, RateLimiterStatus.resetTime s = Some t ->
               deadline - 500 < t <= deadline + 500 /\ now w < t).
Proof.
  intros Hup Hlim Hc.
  unfold RateLimiterStatus.getStatus, try_catch. rewrite Hlim. unfold bind.
  rewrite (getRemainingRequests_up limits apiName userId limit w Hup Hlim).
  rewrite (getResetTime_up apiName userId w Hup).
  unfold counter_at in Hc. rewrite Hc. simpl.
  eexists. split; [reflexivity|]. simpl.
  repeat split; try reflexivity.
  - destruct (Z.gtb_spec ((deadline - now w + 500) / 1000) 0) as [Hgt | Hle];
      [discriminate|].
    intros _.
    pose proof (Z.mod_pos_bound (deadline - now w + 500) 1000 ltac:(lia)).
    pose proof (Z.div_mod (deadline - now w + 500) 1000 ltac:(lia)). lia.
  - intros Hlt.
    destruct (Z.gtb_spec ((deadline - now w + 500) / 1000) 0) as [Hgt | Hle];
      [|reflexivity].
    assert ((deadline - now w + 500) / 1000 < 1) as H
      by (apply Z.div_lt_upper_bound; lia).
    lia.
  - destruct (Z.gtb_spec ((deadline - now w + 500) / 1000) 0) as [Hgt | Hle];
      [|discriminate].
    injection H as <-.
    pose proof (Z.mod_pos_bound (deadline - now w + 500) 1000 ltac:(lia)).
    pose proof (Z.div_mod (deadline - now w + 500) 1000 ltac:(lia)). lia.
  - destruct (Z.gtb_spec ((deadline - now w + 500) / 1000) 0) as [Hgt | Hle];
      [|discriminate].
    injection H as <-.
    pose proof (Z.mod_pos_bound (deadline - now w + 500) 1000 ltac:(lia)).
    pose proof (Z.div_mod (deadline - now w + 500) 1000 ltac:(lia)). lia.
  - destruct (Z.gtb_spec ((deadline - now w + 500) / 1000) 0) as [Hgt | Hle];
      [|discriminate].
    injection H as <-. lia.
Qed.

Lemma X9_status_of_running_window_witness :
  exists s,
    RateLimiterStatus.getStatus RateLimiter.limits "windy" "global" sample_world1
    = (Ok (Some s), sample_world1) /\
    RateLimiterStatus.limit s = 400 /\
    RateLimiterStatus.windowSeconds s = 3600 /\
    RateLimiterStatus.remaining s = Some (Finite (inject_Z (Z.max 0 (400 - 1)))) /\
    (RateLimiterStatus.resetTime s = None <-> 1756723600000 - now sample_world1 < 500) /\
    (forall t, RateLimiterStatus.resetTime s = Some t ->
               1756723600000 - 500 < t <= 1756723600000 + 500 /\ now sample_world1 < t).
Proof.
  apply (X9_status_of_running_window RateLimiter.limits "windy" "global"
           {| RateLimiter.max := 400; RateLimiter.window := 3600 |} sample_world1
           1 1756723600000).
  - split; reflexivity.
  - reflexivity.
  - vm_compute. reflexivity.
Defined.

Lemma del_total (key : string) (w : World) :
  exists b w', RedisClientKeys.del key w = (Ok b, w').
Proof.
  unfold RedisClientKeys.del. destruct (negb (RedisClient.isAvailable w)); [now eexists; eexists|].
  unfold try_catch, bind, ServerKeys.DEL, Server.command.
  destruct (responsive w); now eexists; eexists.
Qed.

(** X10.  [resetLimits] reports success in every world, also when the store
    is down and nothing was deleted.  With the store up it removes the
    counter, so that the next check opens a new window: it counts 1 and the
    counter expires one window later, whatever the counter was before. *)
Theorem X10_reset_opens_new_window (limits : gmap string RateLimiter.Limit)
    (apiName userId : string) (limit : RateLimiter.Limit) (w : World) :
  limits !! apiName = Some limit ->
  0 < RateLimiter.window limit ->
  exists w1,
    RateLimiterStatus.resetLimits apiName userId w = (Ok true, w1) /\
    (store_down w -> w1 = w) /\
    (store_up w ->
     exists w2,
       RateLimiter.checkRateLimit limits apiName userId w1
       = (Ok (1 <=? RateLimiter.max limit), w2) /\
       counter_at w2 (RateLimiter.key_of apiName userId) 1
         (Some (now w + RateLimiter.window limit * 1000))).
Proof.
  intros Hlim Hwin.
  unfold RateLimiterStatus.resetLimits, try_catch, bind.
  destruct (RedisClientKeys.del (RateLimiter.key_of apiName userId) w) as [o w1] eqn:Edel.
  destruct (del_total (RateLimiter.key_of apiName userId) w) as (b & w1' & E).
  rewrite Edel in E. injection E as -> ->. simpl.
  exists w1'. split; [reflexivity|]. split.
  - intros Hdown.
    rewrite (del_down _ _ Hdown) in Edel. now injection Edel.
  - intros Hup. rewrite (del_up _ _ Hup) in Edel. injection Edel as <- <-.
    set (w1 := with_db _ w). assert (store_up w1) as Hup1 by exact Hup.
    assert (Server.live w1 (RateLimiter.key_of apiName userId) = None) as Hnone.
    { subst w1. unfold Server.live. simpl. now rewrite lookup_delete_eq. }
    rewrite (checkRateLimit_fresh limits apiName userId limit w1 Hup1 Hlim Hnone).
    eexists. split; [reflexivity|].
    apply counter_at_insert. simpl. lia.
Qed.

Lemma X10_reset_opens_new_window_witness :
  exists w1,
    RateLimiterStatus.resetLimits "windy" "global" sample_world1 = (Ok true, w1) /\
    (store_down sample_world1 -> w1 = sample_world1) /\
    (store_up sample_world1 ->
     exists w2,
       RateLimiter.checkRateLimit RateLimiter.limits "windy" "global" w1
       = (Ok (1 <=? 400), w2) /\
       counter_at w2 (RateLimiter.key_of "windy" "global") 1
         (Some (now sample_world1 + 3600 * 1000))).
Proof.
  apply (X10_reset_opens_new_window RateLimiter.limits "windy" "global"
           {| RateLimiter.max := 400; RateLimiter.window := 3600 |} sample_world1).
  - reflexivity.
  - simpl. lia.
Defined.

(** X11.  The limits table decides the answer when the store is down: a
    provider without an entry is always allowed, in any world; after
    [setLimit] a provider is allowed with the store down exactly when its
    new maximum is at least 1, and the other providers' checks are as
    before. *)
Theorem X11_set_limit_and_fail_open (limits : gmap string RateLimiter.Limit)
    (apiName other userId : string) (maxRequests windowSeconds : Z) (w : World) :
  other <> apiName ->
  (limits !! apiName = None ->
   RateLimiter.checkRateLimit limits apiName userId w = (Ok true, w)) /\
  (store_down w ->
   RateLimiter.checkRateLimit
     (RateLimiterStatus.setLimit limits apiName maxRequests windowSeconds) apiName userId w
   = (Ok (1 <=? maxRequests), w)) /\
  RateLimiter.checkRateLimit
    (RateLimiterStatus.setLimit limits apiName maxRequests windowSeconds) other userId w
  = RateLimiter.checkRateLimit limits other userId w.
Proof.
  intros Hne. split; [|split].
  - intros Hnone. unfold RateLimiter.checkRateLimit, try_catch. now rewrite Hnone.
  - intros Hdown. unfold RateLimiter.checkRateLimit, try_catch, RateLimiterStatus.setLimit.
    rewrite lookup_insert_eq. unfold bind at 1. rewrite (incr_down _ _ Hdown).
    change (1 =? 1) with true. cbv iota.
    unfold bind at 1. rewrite (expire_down _ _ _ Hdown).
    cbn [RateLimiter.max].
    now rewrite checkRateLimit_verdict.
  - unfold RateLimiter.checkRateLimit, RateLimiterStatus.setLimit.
    now rewrite lookup_insert_ne by congruence.
Qed.

Lemma X11_set_limit_and_fail_open_witness :
  (RateLimiter.limits !! "openweather" = None ->
   RateLimiter.checkRateLimit RateLimiter.limits "openweather" "global"
     sample_world_disconnected = (Ok true, sample_world_disconnected)) /\
  (store_down sample_world_disconnected ->
   RateLimiter.checkRateLimit
     (RateLimiterStatus.setLimit RateLimiter.limits "openweather" 0 60) "openweather" "global"
     sample_world_disconnected
   = (Ok (1 <=? 0), sample_world_disconnected)) /\
  RateLimiter.checkRateLimit
    (RateLimiterStatus.setLimit RateLimiter.limits "openweather" 0 60) "aemet" "global"
    sample_world_disconnected
  = RateLimiter.checkRateLimit RateLimiter.limits "aemet" "global" sample_world_disconnected.
Proof.
  apply (X11_set_limit_and_fail_open RateLimiter.limits "openweather" "aemet" "global" 0 60
           sample_world_disconnected).
  discriminate.
Defined.

(** ** API statistics *)

(** One [logApiCall] with the store up, by what the hour's key holds. *)
Lemma logApiCall_up (apiName : string) (success : bool) (responseTime : Q) (w : World) :
  store_up w ->
  RateLimiter.logApiCall apiName success responseTime w
  = (Ok tt,
     match option_map stored (Server.live w (RateLimiter.stats_key apiName w)) with
     | None =>
         with_db (<[RateLimiter.stats_key apiName w :=
                     {| stored := SStats {| stat_calls := 1;
                                            stat_successes := if success then 1 else 0;
                                            stat_errors := if success then 0 else 1;
                                            stat_totalResponseTime := responseTime;
                                            stat_avgResponseTime := responseTime |};
                        expireAt := Some (now w + 86400 * 1000) |}]> (db w)) w
     | Some (SStats s) =>
         with_db (<[RateLimiter.stats_key apiName w :=
                     {| stored := SStats
                          {| stat_calls := 1 + stat_calls s;
                             stat_successes := (if success then 1 else 0) + stat_successes s;
                             stat_errors := (if success then 0 else 1) + stat_errors s;
                             stat_totalResponseTime := responseTime + stat_totalResponseTime s;
                             stat_avgResponseTime :=
                               (responseTime + stat_totalResponseTime s) / (1 + stat_calls s) |};
                        expireAt := Some (now w + 86400 * 1000) |}]> (db w)) w
     | Some _ => w
     end).
Proof.
  intros Hup. unfold RateLimiter.logApiCall, try_catch.
  unfold bind at 1. rewrite (get_up _ _ Hup).
  destruct (Server.live w (RateLimiter.stats_key apiName w)) as [e|]; simpl.
  - destruct (stored e) as [n | r | s]; simpl; try reflexivity.
    unfold bind. simpl. rewrite (setex_up _ 86400 _ w Hup ltac:(lia)). reflexivity.
  - unfold bind. simpl. rewrite (setex_up _ 86400 _ w Hup ltac:(lia)). reflexivity.
Qed.




Lemma bind_ok {A B} (m : M A) (k : A -> M B) (w w1 : World) (a : A) :
  m w = (Ok a, w1) -> bind m k w = k a w1.
Proof. intros E. unfold bind. now rewrite E. Qed.




Lemma store_up_or_down (w : World) : store_up w \/ store_down w.
Proof.
  unfold store_up, store_down.
  destruct (RedisClient.isAvailable w), (responsive w); auto.
Qed.

Lemma logApiCall_down (apiName : string) (success : bool) (responseTime : Q) (w : World) :
  store_down w -> RateLimiter.logApiCall apiName success responseTime w = (Ok tt, w).
Proof.
  intros Hdown. unfold RateLimiter.logApiCall, try_catch.
  rewrite (bind_ok _ _ _ _ _ (get_down _ _ Hdown)).
  unfold bind at 1. unfold ret at 1.
  unfold bind. unfold RedisClient.setex. now rewrite (set_down _ _ _ _ Hdown).
Qed.

(** X13.  [logApiCall] always returns normally, and the only key it can
    touch is the statistics key of the current hour: every other key and
    the adapter calls stay as they were.  With the store down it changes
    nothing at all. *)
Theorem X13_logging_touches_one_key (apiName : string) (success : bool) (responseTime : Q)
    (w : World) (key : string) :
  key <> RateLimiter.stats_key apiName w ->
  exists w',
    RateLimiter.logApiCall apiName success responseTime w = (Ok tt, w') /\
    db w' !! key = db w !! key /\
    calls w' = calls w /\
    (store_down w -> w' = w).
Proof.
  intros Hkey. destruct (store_up_or_down w) as [Hup | Hdown].
  - rewrite (logApiCall_up apiName success responseTime w Hup).
    eexists. split; [reflexivity|].
    pose proof Hup as [Hav Hresp].
    assert (~ store_down w) as Hnot.
    { intros [H | H]; congruence. }
    destruct (Server.live w (RateLimiter.stats_key apiName w)) as [e|] eqn:Hlive;
      cbn [option_map]; [destruct (stored e) as [n | r | s] eqn:Hst|].
    + repeat split; reflexivity.
    + repeat split; reflexivity.
    + cbn [db with_db now calls]. rewrite lookup_insert_ne by congruence.
      repeat split; try reflexivity. tauto.
    + cbn [db with_db now calls]. rewrite lookup_insert_ne by congruence.
      repeat split; try reflexivity. tauto.
  - rewrite (logApiCall_down apiName success responseTime w Hdown).
    exists w. repeat split; reflexivity.
Qed.

Lemma X13_logging_touches_one_key_witness :
  exists w',
    RateLimiter.logApiCall "windy" true 120 sample_world1 = (Ok tt, w') /\
    db w' !! "ratelimit:windy:global" = db sample_world1 !! "ratelimit:windy:global" /\
    calls w' = calls sample_world1 /\
    (store_down sample_world1 -> w' = sample_world1).
Proof.
  apply (X13_logging_touches_one_key "windy" true 120 sample_world1 "ratelimit:windy:global").
  discriminate.
Defined.

(** ** The status endpoint *)

Lemma getRemainingRequests_total (limits : gmap string RateLimiter.Limit)
    (apiName userId : string) (w : World) :
  exists r, RateLimiterStatus.getRemainingRequests limits apiName userId w = (Ok r, w).
Proof.
  unfold RateLimiterStatus.getRemainingRequests, try_catch.
  destruct (limits !! apiName) as [limit|]; [|now eexists].
  unfold bind. destruct (get_pure (RateLimiter.key_of apiName userId) w) as [v ->].
  destruct v as [text|]; [destruct (RateLimiterStatus.parseInt_stored text)|]; now eexists.
Qed.

Lemma getResetTime_total (apiName userId : string) (w : World) :
  exists r, RateLimiterStatus.getResetTime apiName userId w = (Ok r, w).
Proof.
  unfold RateLimiterStatus.getResetTime, try_catch, bind.
  destruct (ttl_pure (RateLimiter.key_of apiName userId) w) as [n ->].
  destruct (n >? 0); now eexists.
Qed.

Lemma getStatus_known (limits : gmap string RateLimiter.Limit) (apiName userId : string)
    (l : RateLimiter.Limit) (w : World) :
  limits !! apiName = Some l ->
  exists s,
    RateLimiterStatus.getStatus limits apiName userId w = (Ok (Some s), w) /\
    RateLimiterStatus.limit s = RateLimiter.max l /\
    RateLimiterStatus.windowSeconds s = RateLimiter.window l.
Proof.
  intros Hlim. unfold RateLimiterStatus.getStatus, try_catch. rewrite Hlim.
  destruct (getRemainingRequests_total limits apiName userId w) as [r Er].
  destruct (getResetTime_total apiName userId w) as [t Et].
  rewrite (bind_ok _ _ _ _ _ Er), (bind_ok _ _ _ _ _ Et).
  eexists. split; [reflexivity|]. split; reflexivity.
Qed.

(** X14.  The status endpoint answers in every world, also with the store
    down, and changes nothing: it lists the four providers in the order
    meteoblue, aemet, windy, meteored; each is reported available exactly
    when its API key is set, with no error, and with the limit and window
    of the limits table. *)
Theorem X14_providers_status (w : World) :
  exists status,
    providers_status w = (Ok status, w) /\
    map fst status = map provider_name [meteoblue; aemet; windy; meteored] /\
    forall name s, In (name, s) status ->
      exists p l rate,
        name = provider_name p /\
        available s = apiKey (env w) p /\
        configured s = apiKey (env w) p /\
        status_error s = None /\
        RateLimiter.limits !! name = Some l /\
        rateLimitStatus s = Some rate /\
        RateLimiterStatus.limit rate = RateLimiter.max l /\
        RateLimiterStatus.windowSeconds rate = RateLimiter.window l.
Proof.
  unfold providers_status.
  assert (forall providers acc,
    (forall p, In p providers -> exists l, RateLimiter.limits !! provider_name p = Some l) ->
    exists added,
      providers_status_loop providers acc w = (Ok (acc ++ added), w) /\
      map fst added = map provider_name providers /\
      forall name s, In (name, s) added ->
        exists p l rate,
          name = provider_name p /\
          available s = apiKey (env w) p /\
          configured s = apiKey (env w) p /\
          status_error s = None /\
          RateLimiter.limits !! name = Some l /\
          rateLimitStatus s = Some rate /\
          RateLimiterStatus.limit rate = RateLimiter.max l /\
          RateLimiterStatus.windowSeconds rate = RateLimiter.window l) as Hloop.
  { induction providers as [|p rest IH]; intros acc Hknown.
    - exists []. rewrite app_nil_r. split; [reflexivity|]. split; [reflexivity|].
      intros name s [].
    - destruct (Hknown p (or_introl eq_refl)) as [l Hl].
      destruct (getStatus_known RateLimiter.limits (provider_name p) "global" l w Hl)
        as (rate & Erate & Hmax & Hwin).
      cbn [providers_status_loop].
      unfold bind at 1. unfold try_catch at 1.
      rewrite (bind_ok _ _ _ _ _ Erate). unfold ret at 1.
      destruct (IH (acc ++ [(provider_name p,
                             {| available := apiKey (env w) p;
                                configured := apiKey (env w) p;
                                rateLimitStatus := Some rate;
                                status_error := None |})]))
        as (added & E & Hnames & Hall).
      { intros q Hq. apply Hknown. now right. }
      rewrite E. eexists. rewrite <- app_assoc. split; [reflexivity|].
      split; [cbn [map fst app]; now rewrite Hnames|].
      intros name s [[= <- <-] | Hin].
      + exists p, l, rate. cbn. auto 10.
      + now apply Hall. }
  destruct (Hloop [meteoblue; aemet; windy; meteored] []) as (added & E & Hnames & Hall).
  { intros p _. destruct p; eexists; reflexivity. }
  exists added. split; [exact E|]. split; [exact Hnames | exact Hall].
Qed.

(** ** The adapters *)

(** The scan keeps the first index at which the distance to the target is
    least among the times seen. *)
Lemma closest_scan_spec (target : Z) (d : Z) (rest : list Z) :
  forall (seen : list Z) (closestIndex : nat) (minDiff : Z),
    (closestIndex < length seen)%nat ->
    minDiff = Z.abs (nth closestIndex seen d - target) ->
    (forall t, In t seen -> minDiff <= Z.abs (t - target)) ->
    forall index diff,
      closest_scan rest target (length seen) closestIndex minDiff = (index, diff) ->
      (index < length (seen ++ rest))%nat /\
      diff = Z.abs (nth index (seen ++ rest) d - target) /\
      (forall t, In t (seen ++ rest) -> diff <= Z.abs (t - target)).
Proof.
  induction rest as [|t rest IH]; intros seen closestIndex minDiff Hlt Hdiff Hmin index diff E.
  - cbn [closest_scan] in E. injection E as <- <-. rewrite app_nil_r. auto.
  - cbn [closest_scan] in E.
    replace (seen ++ t :: rest) with ((seen ++ [t]) ++ rest) by now rewrite <- app_assoc.
    replace (S (length seen)) with (length (seen ++ [t])) in E
      by (rewrite length_app; simpl; lia).
    destruct (Z.ltb_spec (Z.abs (t - target)) minDiff) as [Hless | Hge].
    + apply (IH (seen ++ [t]) (length seen) (Z.abs (t - target))); [| | |exact E].
      * rewrite length_app. simpl. lia.
      * rewrite app_nth2 by lia. now rewrite Nat.sub_diag.
      * intros t' Hin. apply in_app_or in Hin as [Hin | [<- | []]]; [|lia].
        specialize (Hmin t' Hin). lia.
    + apply (IH (seen ++ [t]) closestIndex minDiff); [| | |exact E].
      * rewrite length_app. simpl. lia.
      * now rewrite app_nth1 by lia.
      * intros t' Hin. apply in_app_or in Hin as [Hin | [<- | []]]; [|lia].
        now apply Hmin.
Qed.

Lemma closest_scan_from_head (target t0 : Z) (rest : list Z) (index : nat) (diff : Z) :
  closest_scan rest target 1 0 (Z.abs (t0 - target)) = (index, diff) ->
  In (nth index (t0 :: rest) t0) (t0 :: rest) /\
  diff = Z.abs (nth index (t0 :: rest) t0 - target) /\
  (forall t, In t (t0 :: rest) -> diff <= Z.abs (t - target)).
Proof.
  intros E.
  destruct (closest_scan_spec target t0 rest [t0] 0%nat (Z.abs (t0 - target))) with
    (index := index) (diff := diff) as (Hlt & Hdiff & Hmin).
  - simpl. lia.
  - reflexivity.
  - intros t [<- | []]. lia.
  - exact E.
  - split; [|split; assumption]. apply nth_In. exact Hlt.
Qed.

(** X15.  The Windy adapter makes a record of any body with a non-empty
    time axis: its timestamp is the slot of the axis nearest to the target
    time, its confidence is the band of that distance, and nothing in the
    series is required: precipitation alone is never null. *)
Theorem X15_windy_nearest_slot (data : Windy.Response) (times : list Z) (target : Z) :
  Windy.ts data = Some times ->
  times <> [] ->
  exists r,
    Windy.parseResponse data target = Ok r /\
    In (ProviderRecord.timestamp r) times /\
    (forall t, In t times ->
       Z.abs (ProviderRecord.timestamp r - target) <= Z.abs (t - target)) /\
    ProviderRecord.confidence r
    = Windy.calculateConfidence (Z.abs (ProviderRecord.timestamp r - target)) /\
    ProviderRecord.precipitation r <> None /\
    ProviderRecord.visibility r = None /\
    ProviderRecord.provider r = "windy".
Proof.
  intros Hts Hne. destruct times as [|t0 rest]; [congruence|].
  unfold Windy.parseResponse, Windy.parse. rewrite Hts.
  destruct (closest_scan rest target 1 0 (Z.abs (t0 - target))) as [index diff] eqn:E.
  destruct (closest_scan_from_head target t0 rest index diff E) as (Hin & Hdiff & Hmin).
  eexists. split; [reflexivity|].
  cbn [ProviderRecord.timestamp ProviderRecord.confidence ProviderRecord.precipitation
       ProviderRecord.visibility ProviderRecord.provider].
  split; [exact Hin|]. split; [now rewrite <- Hdiff|]. split; [now rewrite Hdiff|].
  split; [discriminate|]. split; reflexivity.
Qed.

Lemma X15_windy_nearest_slot_witness :
  exists r,
    Windy.parseResponse sample_windy_response 1756724400000 = Ok r /\
    In (ProviderRecord.timestamp r) [1756720800000; 1756731600000] /\
    (forall t, In t [1756720800000; 1756731600000] ->
       Z.abs (ProviderRecord.timestamp r - 1756724400000) <= Z.abs (t - 1756724400000)) /\
    ProviderRecord.confidence r
    = Windy.calculateConfidence (Z.abs (ProviderRecord.timestamp r - 1756724400000)) /\
    ProviderRecord.precipitation r <> None /\
    ProviderRecord.visibility r = None /\
    ProviderRecord.provider r = "windy".
Proof.
  apply (X15_windy_nearest_slot sample_windy_response [1756720800000; 1756731600000]
           1756724400000).
  - reflexivity.
  - discriminate.
Defined.

(** X16.  A record the meteoblue adapter returns has a temperature and a
    wind speed, carries the time of the slot nearest to the target, and has
    the confidence band of that distance. *)
Theorem X16_meteoblue_record (data : Meteoblue.Response) (target : Z) (r : ProviderRecord.t) :
  Meteoblue.parseResponse data target = Ok r ->
  exists d times,
    Meteoblue.data_1h data = Some d /\ Meteoblue.time d = Some times /\
    In (ProviderRecord.timestamp r) times /\
    (forall t, In t times ->
       Z.abs (ProviderRecord.timestamp r - target) <= Z.abs (t - target)) /\
    ProviderRecord.confidence r
    = Meteoblue.calculateConfidence (Z.abs (ProviderRecord.timestamp r - target)) /\
    ProviderRecord.temperature r <> None /\
    ProviderRecord.windSpeed r <> None /\
    ProviderRecord.precipitation r <> None /\
    ProviderRecord.provider r = "meteoblue".
Proof.
  unfold Meteoblue.parseResponse, Meteoblue.parse.
  destruct (Meteoblue.data_1h data) as [d|]; [|discriminate].
  destruct (Meteoblue.time d) as [[|t0 rest]|] eqn:Htime; try discriminate.
  destruct (closest_scan rest target 1 0 (Z.abs (t0 - target))) as [index diff] eqn:E.
  destruct (closest_scan_from_head target t0 rest index diff E) as (Hin & Hdiff & Hmin).
  cbn [ProviderRecord.temperature ProviderRecord.windSpeed].
  destruct (Meteoblue.getValueAtIndex (Meteoblue.temperature d) index) as [temp|] eqn:Et;
    [|discriminate].
  destruct (Meteoblue.getValueAtIndex (Meteoblue.windspeed d) index) as [wind|] eqn:Ew;
    [|discriminate].
  intros [= <-]. exists d, (t0 :: rest).
  cbn [ProviderRecord.timestamp ProviderRecord.confidence ProviderRecord.precipitation
       ProviderRecord.temperature ProviderRecord.windSpeed ProviderRecord.provider].
  split; [reflexivity|]. split; [exact Htime|].
  split; [exact Hin|]. cbn [nth] in Hdiff |- *. split; [now rewrite <- Hdiff|]. split; [now rewrite Hdiff|].
  split; [discriminate|]. split; [discriminate|]. split; [discriminate | reflexivity].
Qed.

Lemma X16_meteoblue_record_witness :
  exists d times,
    Meteoblue.data_1h sample_meteoblue_response = Some d /\ Meteoblue.time d = Some times /\
    In (ProviderRecord.timestamp sample_meteoblue_parsed) times /\
    (forall t, In t times ->
       Z.abs (ProviderRecord.timestamp sample_meteoblue_parsed - 1756721400000)
       <= Z.abs (t - 1756721400000)) /\
    ProviderRecord.confidence sample_meteoblue_parsed
    = Meteoblue.calculateConfidence
        (Z.abs (ProviderRecord.timestamp sample_meteoblue_parsed - 1756721400000)) /\
    ProviderRecord.temperature sample_meteoblue_parsed <> None /\
    ProviderRecord.windSpeed sample_meteoblue_parsed <> None /\
    ProviderRecord.precipitation sample_meteoblue_parsed <> None /\
    ProviderRecord.provider sample_meteoblue_parsed = "meteoblue".
Proof.
  apply (X16_meteoblue_record sample_meteoblue_response 1756721400000 sample_meteoblue_parsed).
  reflexivity.
Defined.

Lemma closest_forecast_spec (target : Z) (rest : list Meteored.Forecast) :
  forall (seen : list Meteored.Forecast) (closestForecast : Meteored.Forecast) (minDiff : Z),
    In closestForecast seen ->
    minDiff = Z.abs (Meteored.date closestForecast - target) ->
    (forall g, In g seen -> minDiff <= Z.abs (Meteored.date g - target)) ->
    forall f diff,
      Meteored.closest_forecast rest target closestForecast minDiff = (f, diff) ->
      In f (seen ++ rest) /\
      diff = Z.abs (Meteored.date f - target) /\
      (forall g, In g (seen ++ rest) -> diff <= Z.abs (Meteored.date g - target)).
Proof.
  induction rest as [|g0 rest IH]; intros seen closestForecast minDiff Hin Hdiff Hmin f diff E.
  - cbn [Meteored.closest_forecast] in E. injection E as <- <-. rewrite app_nil_r. auto.
  - cbn [Meteored.closest_forecast] in E.
    replace (seen ++ g0 :: rest) with ((seen ++ [g0]) ++ rest) by now rewrite <- app_assoc.
    destruct (Z.ltb_spec (Z.abs (Meteored.date g0 - target)) minDiff) as [Hless | Hge].
    + apply (IH (seen ++ [g0]) g0 (Z.abs (Meteored.date g0 - target))); [| | |exact E].
      * apply in_or_app. right. now left.
      * reflexivity.
      * intros g Hg. apply in_app_or in Hg as [Hg | [<- | []]]; [|lia].
        specialize (Hmin g Hg). lia.
    + apply (IH (seen ++ [g0]) closestForecast minDiff); [| | |exact E].
      * apply in_or_app. now left.
      * exact Hdiff.
      * intros g Hg. apply in_app_or in Hg as [Hg | [<- | []]]; [|lia].
        now apply Hmin.
Qed.

(** X17.  The Meteored adapter makes a record of any body with a non-empty
    forecast list: the readings are those of a forecast nearest in time to
    the target, the confidence is the band of that distance, and the
    record's timestamp is the target time itself, not the forecast's date.
    Wind direction and precipitation are never null. *)
Theorem X17_meteored_nearest_forecast (data : Meteored.Response) (w : Meteored.Weather)
    (forecasts : list Meteored.Forecast) (target : Z) :
  Meteored.weather data = Some w ->
  Meteored.forecast w = Some forecasts ->
  forecasts <> [] ->
  exists r f,
    Meteored.parseResponse data target = Ok r /\
    In f forecasts /\
    (forall g, In g forecasts ->
       Z.abs (Meteored.date f - target) <= Z.abs (Meteored.date g - target)) /\
    ProviderRecord.temperature r = Meteored.extractTemperature f /\
    ProviderRecord.windSpeed r = Meteored.extractWindSpeed f /\
    ProviderRecord.confidence r
    = Meteored.calculateConfidence (Z.abs (Meteored.date f - target)) /\
    ProviderRecord.timestamp r = target /\
    ProviderRecord.windDirection r <> None /\
    ProviderRecord.precipitation r <> None.
Proof.
  intros Hw Hf Hne. destruct forecasts as [|f0 rest]; [congruence|].
  unfold Meteored.parseResponse, Meteored.parse. rewrite Hw, Hf.
  destruct (Meteored.closest_forecast (f0 :: rest) target f0
              (Z.abs (Meteored.date f0 - target))) as [f diff] eqn:E.
  cbn [Meteored.closest_forecast] in E. rewrite Z.ltb_irrefl in E.
  destruct (closest_forecast_spec target rest [f0] f0 (Z.abs (Meteored.date f0 - target)))
    with (f := f) (diff := diff) as (Hin & Hdiff & Hmin).
  - now left.
  - reflexivity.
  - intros g [<- | []]. lia.
  - exact E.
  - eexists. exists f. split; [reflexivity|].
    cbn [ProviderRecord.temperature ProviderRecord.windSpeed ProviderRecord.confidence
         ProviderRecord.timestamp ProviderRecord.windDirection ProviderRecord.precipitation].
    split; [exact Hin|]. split; [now rewrite <- Hdiff|].
    split; [reflexivity|]. split; [reflexivity|]. split; [now rewrite Hdiff|].
    split; [reflexivity|]. split.
    + unfold Meteored.extractWindDirection.
      destruct (Meteored.wind f) as [wd|]; [destruct (Meteored.direction wd)|]; discriminate.
    + unfold Meteored.extractPrecipitation.
      destruct (Meteored.precipitation f) as [p|]; cbn [truthy_num].
      * destruct (negb (Qeq_bool p 0)); [discriminate|].
        destruct (truthy_num (Meteored.rain f)) eqn:Er; [|discriminate].
        destruct (Meteored.rain f); [discriminate | discriminate Er].
      * destruct (truthy_num (Meteored.rain f)) eqn:Er; [|discriminate].
        destruct (Meteored.rain f); [discriminate | discriminate Er].
Qed.

Lemma X17_meteored_nearest_forecast_witness :
  exists r f,
    Meteored.parseResponse sample_meteored_response 1756728000000 = Ok r /\
    In f [ {| Meteored.date := 1756720800000; Meteored.temperature := None;
              Meteored.temp := None; Meteored.wind := None;
              Meteored.precipitation := None; Meteored.rain := None;
              Meteored.humidity := None; Meteored.pressure := None;
              Meteored.cloudiness := None; Meteored.clouds := None |};
           {| Meteored.date := 1756731600000; Meteored.temperature := None;
              Meteored.temp := Some 0%Q;
              Meteored.wind := Some {| Meteored.speed := Some 0%Q;
                                       Meteored.direction := Some "N" |};
              Meteored.precipitation := Some 0%Q; Meteored.rain := None;
              Meteored.humidity := Some 0%Q; Meteored.pressure := Some 1013%Q;
              Meteored.cloudiness := Some 0%Q; Meteored.clouds := None |} ] /\
    (forall g,
       In g [ {| Meteored.date := 1756720800000; Meteored.temperature := None;
                 Meteored.temp := None; Meteored.wind := None;
                 Meteored.precipitation := None; Meteored.rain := None;
                 Meteored.humidity := None; Meteored.pressure := None;
                 Meteored.cloudiness := None; Meteored.clouds := None |};
              {| Meteored.date := 1756731600000; Meteored.temperature := None;
                 Meteored.temp := Some 0%Q;
                 Meteored.wind := Some {| Meteored.speed := Some 0%Q;
                                          Meteored.direction := Some "N" |};
                 Meteored.precipitation := Some 0%Q; Meteored.rain := None;
                 Meteored.humidity := Some 0%Q; Meteored.pressure := Some 1013%Q;
                 Meteored.cloudiness := Some 0%Q; Meteored.clouds := None |} ] ->
       Z.abs (Meteored.date f - 1756728000000) <= Z.abs (Meteored.date g - 1756728000000)) /\
    ProviderRecord.temperature r = Meteored.extractTemperature f /\
    ProviderRecord.windSpeed r = Meteored.extractWindSpeed f /\
    ProviderRecord.confidence r
    = Meteored.calculateConfidence (Z.abs (Meteored.date f - 1756728000000)) /\
    ProviderRecord.timestamp r = 1756728000000 /\
    ProviderRecord.windDirection r <> None /\
    ProviderRecord.precipitation r <> None.
Proof.
  apply (X17_meteored_nearest_forecast sample_meteored_response
           {| Meteored.forecast := Some
                [ {| Meteored.date := 1756720800000; Meteored.temperature := None;
                     Meteored.temp := None; Meteored.wind := None;
                     Meteored.precipitation := None; Meteored.rain := None;
                     Meteored.humidity := None; Meteored.pressure := None;
                     Meteored.cloudiness := None; Meteored.clouds := None |};
                  {| Meteored.date := 1756731600000; Meteored.temperature := None;
                     Meteored.temp := Some 0%Q;
                     Meteored.wind := Some {| Meteored.speed := Some 0%Q;
                                              Meteored.direction := Some "N" |};
                     Meteored.precipitation := Some 0%Q; Meteored.rain := None;
                     Meteored.humidity := Some 0%Q; Meteored.pressure := Some 1013%Q;
                     Meteored.cloudiness := Some 0%Q; Meteored.clouds := None |} ] |}).
  - reflexivity.
  - reflexivity.
  - discriminate.
Defined.

(** The comparison [hoursOff <= h] for a whole number of hours, on the
    milliseconds. *)
Lemma hoursOff_le_hours (timeDifference h : Z) :
  hoursOff_le timeDifference (inject_Z h) = (timeDifference <=? 3600000 * h).
Proof.
  unfold hoursOff_le. apply eq_true_iff_eq. rewrite Qle_bool_iff, Z.leb_le.
  change (inject_Z (1000 * 60 * 60)) with (inject_Z 3600000).
  split; intros H.
  - apply (Qmult_le_compat_r _ _ (inject_Z 3600000)) in H; [|discriminate].
    assert (inject_Z timeDifference / inject_Z 3600000 * inject_Z 3600000
            == inject_Z timeDifference)%Q as E by (field; discriminate).
    rewrite E, <- inject_Z_mult, <- Zle_Qle in H. lia.
  - apply Qle_shift_div_r; [reflexivity|].
    rewrite <- inject_Z_mult, <- Zle_Qle. lia.
Qed.

Ltac bands :=
  repeat match goal with
  | |- context [hoursOff_le ?d ?h] =>
      let k := eval cbv in (Qnum h) in
      change (hoursOff_le d h) with (hoursOff_le d (inject_Z k));
      rewrite (hoursOff_le_hours d k);
      destruct (Z.leb_spec d (3600000 * k))
  end.

(** X18.  The confidence an adapter gives to a reading never goes up with
    the distance in time between the reading and the target; for the same
    distance meteoblue's is 0.05 above Windy's, and Windy's is at least
    Meteored's.  All of them lie between 0.35 and 0.95. *)
Theorem X18_confidence_bands (d1 d2 : Z) :
  d1 <= d2 ->
  (Meteoblue.calculateConfidence d2 <= Meteoblue.calculateConfidence d1)%Q /\
  (Windy.calculateConfidence d2 <= Windy.calculateConfidence d1)%Q /\
  (Meteored.calculateConfidence d2 <= Meteored.calculateConfidence d1)%Q /\
  (Meteoblue.calculateConfidence d1 == Windy.calculateConfidence d1 + 0.05)%Q /\
  (Meteored.calculateConfidence d1 <= Windy.calculateConfidence d1)%Q /\
  (0.35 <= Meteored.calculateConfidence d1)%Q /\
  (Meteoblue.calculateConfidence d1 <= 0.95)%Q.
Proof.
  intros Hle.
  unfold Meteoblue.calculateConfidence, Windy.calculateConfidence,
    Meteored.calculateConfidence.
  repeat split; bands; try lia; try reflexivity; try discriminate.
Qed.

Lemma X18_confidence_bands_witness :
  (Meteoblue.calculateConfidence 7200000 <= Meteoblue.calculateConfidence 600000)%Q /\
  (Windy.calculateConfidence 7200000 <= Windy.calculateConfidence 600000)%Q /\
  (Meteored.calculateConfidence 7200000 <= Meteored.calculateConfidence 600000)%Q /\
  (Meteoblue.calculateConfidence 600000 == Windy.calculateConfidence 600000 + 0.05)%Q /\
  (Meteored.calculateConfidence 600000 <= Windy.calculateConfidence 600000)%Q /\
  (0.35 <= Meteored.calculateConfidence 600000)%Q /\
  (Meteoblue.calculateConfidence 600000 <= 0.95)%Q.
Proof.
  apply (X18_confidence_bands 600000 7200000). lia.
Defined.

Lemma isSpanishTerritory_box (lat lon : Q) :
  Aemet.isSpanishTerritory lat lon = true <->
  (27 <= lat)%Q /\ (lat <= 44)%Q /\ (-18 <= lon)%Q /\ (lon <= 5)%Q.
Proof.
  unfold Aemet.isSpanishTerritory. rewrite !andb_true_iff, !Qle_bool_iff. tauto.
Qed.

(** X19.  With its key configured, the AEMET adapter refuses a point
    outside the box 27..44 N, 18 W..5 E whatever the service would have
    answered, and the refusal reads as a connection error. *)
Theorem X19_aemet_refuses_outside_spain (lat lon : Q) (net : NetResult Aemet.Envelope)
    (timestamp : Z) :
  (lat < 27)%Q \/ (44 < lat)%Q \/ (lon < -18)%Q \/ (5 < lon)%Q ->
  Aemet.getWeatherForPoint true lat lon net timestamp
  = Thrown "AEMET connection error: AEMET only covers Spanish territory".
Proof.
  intros Hout. unfold Aemet.getWeatherForPoint. cbn [negb].
  destruct (Aemet.isSpanishTerritory lat lon) eqn:E; [|reflexivity].
  apply isSpanishTerritory_box in E. lra.
Qed.

Lemma X19_aemet_refuses_outside_spain_witness :
  Aemet.getWeatherForPoint true 48.8566 2.3522
    (Responded {| Aemet.estado := 200; Aemet.descripcion_estado := "exito";
                  Aemet.datos := Responded (Some sample_aemet_forecast) |})
    1756720800000
  = Thrown "AEMET connection error: AEMET only covers Spanish territory".
Proof.
  apply (X19_aemet_refuses_outside_spain 48.8566 2.3522).
  right. left. reflexivity.
Defined.

(** X20.  A record the AEMET adapter returns is for a point inside the
    box, carries the requested time and the fixed confidence 0.80, and
    always has a wind speed, a wind direction and a precipitation value
    (defaults stand in for missing ones), while pressure and visibility
    are always null. *)
Theorem X20_aemet_record (apiKey : bool) (lat lon : Q) (net : NetResult Aemet.Envelope)
    (timestamp : Z) (r : ProviderRecord.t) :
  Aemet.getWeatherForPoint apiKey lat lon net timestamp = Ok r ->
  apiKey = true /\
  ((27 <= lat)%Q /\ (lat <= 44)%Q /\ (-18 <= lon)%Q /\ (lon <= 5)%Q) /\
  ProviderRecord.timestamp r = timestamp /\
  ProviderRecord.confidence r = 0.80%Q /\
  ProviderRecord.provider r = "aemet" /\
  ProviderRecord.windSpeed r <> None /\
  ProviderRecord.windDirection r <> None /\
  ProviderRecord.precipitation r <> None /\
  ProviderRecord.pressure r = None /\
  ProviderRecord.visibility r = None.
Proof.
  unfold Aemet.getWeatherForPoint.
  destruct apiKey; cbn [negb]; [|discriminate].
  destruct (Aemet.isSpanishTerritory lat lon) eqn:Ebox; cbn [negb]; [|discriminate].
  apply isSpanishTerritory_box in Ebox.
  destruct (Aemet.getMunicipalityForecast net) as [forecast | error]; [|discriminate].
  unfold Aemet.parseResponse, Aemet.parse.
  destruct forecast as [[|f ?]|]; try discriminate.
  destruct (Aemet.prediccion f) as [p|]; [|discriminate].
  destruct (Aemet.dia p) as [[|today ?]|]; try discriminate.
  intros [= <-].
  cbn [ProviderRecord.timestamp ProviderRecord.confidence ProviderRecord.provider
       ProviderRecord.windSpeed ProviderRecord.windDirection ProviderRecord.precipitation
       ProviderRecord.pressure ProviderRecord.visibility].
  split; [reflexivity|]. split; [exact Ebox|].
  split; [reflexivity|]. split; [reflexivity|]. split; [reflexivity|].
  split.
  { unfold Aemet.extractWindSpeed.
    destruct (Aemet.viento today) as [[|wind ?]|]; try discriminate.
    destruct (Aemet.velocidad wind); discriminate. }
  split.
  { unfold Aemet.extractWindDirection.
    destruct (Aemet.viento today) as [[|wind ?]|]; try discriminate.
    destruct (Aemet.direccion wind); discriminate. }
  split.
  { unfold Aemet.extractPrecipitation.
    destruct (Aemet.precipitacion today) as [[|precip ?]|]; try discriminate.
    destruct (Aemet.value precip); discriminate. }
  split; reflexivity.
Qed.

Lemma X20_aemet_record_witness :
  true = true /\
  ((27 <= 40.4168)%Q /\ (40.4168 <= 44)%Q /\ (-18 <= -3.7038)%Q /\ (-3.7038 <= 5)%Q) /\
  ProviderRecord.timestamp sample_aemet_record = 1756720800000 /\
  ProviderRecord.confidence sample_aemet_record = 0.80%Q /\
  ProviderRecord.provider sample_aemet_record = "aemet" /\
  ProviderRecord.windSpeed sample_aemet_record <> None /\
  ProviderRecord.windDirection sample_aemet_record <> None /\
  ProviderRecord.precipitation sample_aemet_record <> None /\
  ProviderRecord.pressure sample_aemet_record = None /\
  ProviderRecord.visibility sample_aemet_record = None.
Proof.
  apply (X20_aemet_record true 40.4168 (-3.7038)
           (Responded {| Aemet.estado := 200; Aemet.descripcion_estado := "exito";
                         Aemet.datos := Responded (Some sample_aemet_forecast) |})
           1756720800000 sample_aemet_record).
  reflexivity.
Defined.

(** X22.  The Meteored adapter takes a reading of zero for a missing one:
    a [temp], a wind speed or a humidity of 0 comes out null.  A
    temperature is reported exactly when the forecast has a max/min pair or
    a non-zero [temp]. *)
Theorem X22_meteored_zero_is_missing (f : Meteored.Forecast) :
  (Meteored.extractTemperature f = None <->
   Meteored.temperature f = None /\
   (Meteored.temp f = None \/ exists q, Meteored.temp f = Some q /\ (q == 0)%Q)) /\
  (Meteored.extractHumidity f = None <->
   Meteored.humidity f = None \/ exists q, Meteored.humidity f = Some q /\ (q == 0)%Q) /\
  (Meteored.extractWindSpeed f = None <->
   Meteored.wind f = None \/
   exists w, Meteored.wind f = Some w /\
     (Meteored.speed w = None \/ exists q, Meteored.speed w = Some q /\ (q == 0)%Q)).
Proof.
  assert (forall v, truthy_num v = false <-> v = None \/ exists q, v = Some q /\ (q == 0)%Q)
    as Htruthy.
  { intros [q|]; cbn [truthy_num].
    - rewrite negb_false_iff, Qeq_bool_iff. split.
      + intros H. right. now exists q.
      + intros [H | (q' & [= <-] & H)]; [discriminate | exact H].
    - split; auto. }
  unfold Meteored.extractTemperature, Meteored.extractHumidity, Meteored.extractWindSpeed.
  split; [|split].
  - destruct (Meteored.temperature f) as [t|].
    + split; [discriminate | intros [H _]; discriminate H].
    + rewrite <- Htruthy. destruct (truthy_num (Meteored.temp f)).
      * split; [discriminate | intros [_ H]; discriminate H].
      * tauto.
  - rewrite <- Htruthy. destruct (truthy_num (Meteored.humidity f)).
    + split; discriminate.
    + tauto.
  - destruct (Meteored.wind f) as [w|].
    + destruct (truthy_num (Meteored.speed w)) eqn:E.
      * split; [discriminate|].
        intros [H | (w' & [= <-] & H)]; [discriminate|].
        apply Htruthy in H. congruence.
      * split; [|reflexivity]. intros _. right. exists w. split; [reflexivity|].
        now apply Htruthy.
    + split; auto.
Qed.

(** ** More on acquisition *)

(** An array already in priority order is left as it is by the sort. *)
Lemma Array_sort_sorted_id (l : list Source.t) :
  StronglySorted descending (map Source.provider l) -> Array_sort l = l.
Proof.
  induction l as [|x l IH]; [reflexivity|].
  cbn [map]. intros Hs. inversion Hs as [|? ? Hrest Hall]; subst.
  unfold Array_sort in *. cbn [fold_right]. rewrite (IH Hrest).
  destruct l as [|y l']; [reflexivity|].
  cbn [sort_insert]. cbn [map] in Hall. inversion Hall as [|? ? Hxy _]; subst.
  unfold descending in Hxy. unfold compareFn.
  destruct (Z.leb_spec (priority (Source.provider y) - priority (Source.provider x)) 0);
    [reflexivity | lia].
Qed.

Lemma sublist_StronglySorted {A} (R : A -> A -> Prop) (l1 l2 : list A) :
  sublist l1 l2 -> StronglySorted R l2 -> StronglySorted R l1.
Proof.
  induction 1 as [|x l1 l2 Hsub IH|x l1 l2 Hsub IH]; intros Hs.
  - constructor.
  - inversion Hs as [|? ? Hrest Hall]; subst. constructor; [now apply IH|].
    apply List.Forall_forall. intros y Hy.
    rewrite List.Forall_forall in Hall. apply Hall.
    apply list_elem_of_In. eapply elem_of_sublist; [|exact Hsub].
    now apply list_elem_of_In.
  - inversion Hs; subst. now apply IH.
Qed.

Lemma providerPriority_sorted : StronglySorted descending providerPriority.
Proof.
  unfold providerPriority, descending.
  repeat (constructor; [|repeat constructor; simpl; lia]). constructor.
Qed.

(** The loop adds sources in the order of the providers it goes through,
    at most one for each, and only for providers whose key is set. *)
Lemma collect_added (point : Waypoint) (timestamp : Z) (providers : list Provider) :
  forall (acc acc' : list Source.t) (w w' : World),
    collect providers point timestamp acc w = (Ok acc', w') ->
    exists added,
      acc' = acc ++ added /\
      sublist (map Source.provider added) providers /\
      forall s, In s added -> apiKey (env w) (Source.provider s) = true.
Proof.
  induction providers as [|q rest IH]; intros acc acc' w w' H.
  - injection H as <- _. exists []. rewrite app_nil_r. split; [reflexivity|].
    split; [constructor | intros s []].
  - cbn [collect] in H. unfold bind in H.
    destruct (acquire q point timestamp acc w) as [[acc1|message] w1] eqn:E;
      [|discriminate H].
    destruct (IH _ _ _ _ H) as (added & -> & Hsub & Hkeys).
    assert (env w1 = env w) as Henv.
    { eapply (respects_acquire_keys (fun _ => False) (fun _ => True)) in E; eauto.
      apply E. }
    rewrite Henv in Hkeys.
    pose proof (acquire_sources _ _ _ _ _ _ _ E) as [-> | (data & cached & ->)].
    + exists added. split; [reflexivity|]. split; [now apply sublist_cons | exact Hkeys].
    + exists (Source.mk q data cached :: added). rewrite <- app_assoc.
      split; [reflexivity|]. split; [cbn [map Source.provider]; now apply sublist_skip|].
      intros s [<- | Hs]; [|now apply Hkeys].
      cbn [Source.provider].
      apply acquire_outcome in E as [E | [Hkey _]]; [|exact Hkey].
      exfalso. apply (f_equal (@length _)) in E. rewrite length_app in E. simpl in E. lia.
Qed.

(** X23.  The sources of a record acquired for a point come in the order of
    the provider priority list, each provider at most once and only
    providers whose API key is set; the primary is the first of them.  The
    sort of the fusion therefore never reorders what acquisition
    collected. *)
Theorem X23_acquired_sources_in_priority_order (point : Waypoint) (timestamp : Z)
    (w w' : World) (fused : FusedRecord.t) :
  getWeatherForPoint point timestamp w = (Ok fused, w') ->
  exists collected,
    collect providerPriority point timestamp [] w = (Ok collected, w') /\
    Array_sort collected = collected /\
    FusedRecord.sources fused = map Source.provider collected /\
    sublist (FusedRecord.sources fused) providerPriority /\
    hd_error (FusedRecord.sources fused) = Some (FusedRecord.primary fused) /\
    forall p, In p (FusedRecord.sources fused) -> apiKey (env w) p = true.
Proof.
  intros H.
  destruct (getWeatherForPoint_outcome point timestamp w)
    as (collected & w1 & Hcollect & [[_ Hthrown] | (Hne & f & Hmerge & Hok)]).
  - rewrite Hthrown in H. discriminate H.
  - rewrite Hok in H. injection H as -> ->.
    destruct (collect_added _ _ _ _ _ _ _ Hcollect) as (added & Hadded & Hsub & Hkeys).
    cbn [app] in Hadded. subst added.
    assert (Array_sort collected = collected) as Hsorted.
    { apply Array_sort_sorted_id.
      eapply sublist_StronglySorted; [exact Hsub | apply providerPriority_sorted]. }
    exists collected. split; [exact Hcollect|]. split; [exact Hsorted|].
    destruct collected as [|first others]; [congruence|].
    destruct (mergeWeatherData_spec (first :: others) first others Hsorted)
      as (f' & Hf' & Hprimary & _ & Hsources).
    rewrite Hmerge in Hf'. injection Hf' as <-.
    rewrite Hsources, Hprimary. split; [reflexivity|]. split; [exact Hsub|].
    split; [reflexivity|].
    intros p Hp. apply in_map_iff in Hp as (s & <- & Hs). now apply Hkeys.
Qed.

Lemma X23_acquired_sources_in_priority_order_witness :
  exists collected,
    collect providerPriority sample_point 1756720900000 [] sample_world
    = (Ok collected, sample_world1) /\
    Array_sort collected = collected /\
    FusedRecord.sources sample_fused = map Source.provider collected /\
    sublist (FusedRecord.sources sample_fused) providerPriority /\
    hd_error (FusedRecord.sources sample_fused) = Some (FusedRecord.primary sample_fused) /\
    forall p, In p (FusedRecord.sources sample_fused) -> apiKey (env sample_world) p = true.
Proof.
  apply (X23_acquired_sources_in_priority_order sample_point 1756720900000 sample_world
           sample_world1 sample_fused).
  vm_compute. reflexivity.
Defined.

Lemma acquire_try_numbers (p : Provider) (point : Waypoint) (la lo : Q) (timestamp : Z)
    (acc : list Source.t) (w : World) :
  lat point = JNum la -> lon point = JNum lo ->
  acquire_try p point timestamp acc w
  = (let cacheKey := cacheKey_of p la lo timestamp in
     let* cached := RedisClient.get cacheKey in
     match cached with
     | Some text =>
         let* data := lift (parse_record text) in
         ret (acc ++ [Source.mk p data true])
     | None =>
         let* canMakeRequest :=
           RateLimiter.checkRateLimit RateLimiter.limits (provider_name p) "global" in
         if negb canMakeRequest then ret acc
         else
           let* weatherData := adapter_call p la lo timestamp in
           let* _ := RedisClient.setex cacheKey 1800 (SRecord weatherData) in
           let weatherSources := acc ++ [Source.mk p weatherData false] in
           let* _ := RateLimiter.logApiCall (provider_name p) true 0 in
           ret weatherSources
     end) w.
Proof. intros Hlat Hlon. unfold acquire_try. rewrite Hlat, Hlon. reflexivity. Qed.

Lemma provider_limit (p : Provider) :
  exists limit, RateLimiter.limits !! provider_name p = Some limit.
Proof. destruct p; eexists; reflexivity. Qed.

(** X24.  When the hourly budget of a provider is used up and nothing is
    cached for the point, the iteration for that provider adds no source,
    calls no adapter and writes no cache entry; the denied attempt is
    still counted. *)
Theorem X24_exhausted_budget_skips_provider (p : Provider) (point : Waypoint) (la lo : Q)
    (timestamp : Z) (acc : list Source.t) (w : World) (limit : RateLimiter.Limit)
    (used deadline : Z) :
  store_up w ->
  apiKey (env w) p = true ->
  lat point = JNum la -> lon point = JNum lo ->
  Server.live w (cacheKey_of p la lo timestamp) = None ->
  RateLimiter.limits !! provider_name p = Some limit ->
  counter_at w (RateLimiter.key_of (provider_name p) "global") used (Some deadline) ->
  1 <= used ->
  RateLimiter.max limit <= used ->
  exists w',
    acquire p point timestamp acc w = (Ok acc, w') /\
    calls w' = calls w /\
    Server.live w' (cacheKey_of p la lo timestamp) = None /\
    counter_at w' (RateLimiter.key_of (provider_name p) "global") (used + 1) (Some deadline).
Proof.
  intros Hup Hkey Hlat Hlon Hmiss Hlim Hc Hused Hmax.
  unfold acquire. rewrite Hkey. cbn [negb]. unfold try_catch.
  rewrite (acquire_try_numbers p point la lo timestamp acc w Hlat Hlon). cbv zeta.
  rewrite (bind_ok _ _ _ _ _ (get_up _ _ Hup)), Hmiss. cbn [option_map].
  rewrite (bind_ok _ _ _ _ _
             (checkRateLimit_counting RateLimiter.limits (provider_name p) "global" limit w
                used (Some deadline) Hup Hlim Hc ltac:(lia))).
  destruct (Z.leb_spec (used + 1) (RateLimiter.max limit)); [lia|]. cbn [negb]. unfold ret.
  eexists. split; [reflexivity|]. split; [reflexivity|]. split.
  - rewrite live_insert_ne, with_db_db; [exact Hmiss|].
    intros E. symmetry in E. now apply cacheKey_not_ratelimit in E.
  - apply counter_at_insert. now apply counter_at_now in Hc.
Qed.

Lemma X24_exhausted_budget_skips_provider_witness :
  exists w',
    acquire windy sample_point 1756720900000 [] sample_world_exhausted = (Ok [], w') /\
    calls w' = calls sample_world_exhausted /\
    Server.live w' (cacheKey_of windy 40.4168 (-3.7038) 1756720900000) = None /\
    counter_at w' (RateLimiter.key_of (provider_name windy) "global") (400 + 1)
      (Some 1756723600000).
Proof.
  apply (X24_exhausted_budget_skips_provider windy sample_point 40.4168 (-3.7038)
           1756720900000 [] sample_world_exhausted
           {| RateLimiter.max := 400; RateLimiter.window := 3600 |} 400 1756723600000).
  - split; reflexivity.
  - reflexivity.
  - reflexivity.
  - reflexivity.
  - vm_compute. reflexivity.
  - reflexivity.
  - vm_compute. reflexivity.
  - lia.
  - simpl. lia.
Defined.

Lemma adapter_call_world (p : Provider) (la lo : Q) (timestamp : Z) (w : World) :
  snd (adapter_call p la lo timestamp w)
  = with_calls (calls w ++ [(p, la, lo, Some timestamp)]) w.
Proof. reflexivity. Qed.

(** X25.  When the adapter of a provider fails (its service is down, its
    answer does not parse, the point is out of its coverage), the iteration
    goes on without a source for it; the failure is logged in the hour's
    statistics and is not cached, so the next request asks the provider
    again.  The rate-limit budget spent on the attempt is not given
    back. *)
Theorem X25_adapter_failure_is_not_cached (p : Provider) (point : Waypoint) (la lo : Q)
    (timestamp : Z) (acc : list Source.t) (w w1 w2 : World) (message : string) :
  apiKey (env w) p = true ->
  lat point = JNum la -> lon point = JNum lo ->
  RedisClient.get (cacheKey_of p la lo timestamp) w = (Ok None, w) ->
  RateLimiter.checkRateLimit RateLimiter.limits (provider_name p) "global" w = (Ok true, w1) ->
  adapter_call p la lo timestamp w1 = (Thrown message, w2) ->
  exists w',
    acquire p point timestamp acc w = (Ok acc, w') /\
    RateLimiter.logApiCall (provider_name p) false 0 w2 = (Ok tt, w') /\
    calls w' = calls w ++ [(p, la, lo, Some timestamp)] /\
    db w' !! cacheKey_of p la lo timestamp = db w !! cacheKey_of p la lo timestamp /\
    db w' !! RateLimiter.key_of (provider_name p) "global"
    = db w1 !! RateLimiter.key_of (provider_name p) "global".
Proof.
  intros Hkey Hlat Hlon Hmiss Hcheck Hcall.
  unfold acquire. rewrite Hkey. cbn [negb]. unfold try_catch.
  rewrite (acquire_try_numbers p point la lo timestamp acc w Hlat Hlon). cbv zeta.
  rewrite (bind_ok _ _ _ _ _ Hmiss), (bind_ok _ _ _ _ _ Hcheck). cbn [negb].
  unfold bind at 1. rewrite Hcall.
  destruct (logApiCall_total (provider_name p) false 0 w2) as [w' Hlog].
  rewrite (bind_ok _ _ _ _ _ Hlog). unfold ret.
  exists w'. split; [reflexivity|]. split; [exact Hlog|].
  pose proof (respects_checkRateLimit
                (fun k => k = cacheKey_of p la lo timestamp) (fun _ => False)
                RateLimiter.limits (provider_name p) "global"
                ltac:(intros E; symmetry in E; now apply cacheKey_not_ratelimit in E)
                _ _ _ Hcheck) as (_ & _ & _ & _ & _ & Hdb1 & (made1 & Hcalls1 & Hmade1)).
  assert (made1 = []) as -> by (destruct made1; [reflexivity | now inversion Hmade1]).
  rewrite app_nil_r in Hcalls1.
  pose proof (adapter_call_world p la lo timestamp w1) as Hw2. rewrite Hcall in Hw2.
  cbn [snd] in Hw2.
  pose proof (respects_logApiCall
                (fun k => k = cacheKey_of p la lo timestamp
                          \/ k = RateLimiter.key_of (provider_name p) "global")
                (fun _ => False) (provider_name p) false 0) as Hlogframe.
  destruct (Hlogframe
              ltac:(intros w0 [E | E];
                    [symmetry in E; now apply cacheKey_not_stats in E
                    | unfold RateLimiter.stats_key, RateLimiter.key_of in E;
                      simpl in E; discriminate E])
              _ _ _ Hlog) as (_ & _ & _ & _ & _ & Hdb2 & (made2 & Hcalls2 & Hmade2)).
  assert (made2 = []) as -> by (destruct made2; [reflexivity | now inversion Hmade2]).
  rewrite app_nil_r in Hcalls2.
  split; [rewrite Hcalls2, Hw2; cbn [calls with_calls]; now rewrite Hcalls1|].
  split.
  - rewrite (Hdb2 _ (or_introl eq_refl)), Hw2. cbn [db with_calls]. now apply Hdb1.
  - rewrite (Hdb2 _ (or_intror eq_refl)), Hw2. reflexivity.
Qed.

Lemma X25_adapter_failure_is_not_cached_witness :
  exists w',
    acquire meteoblue sample_point 1756720900000 [] sample_world = (Ok [], w') /\
    RateLimiter.logApiCall (provider_name meteoblue) false 0 sample_world_called
    = (Ok tt, w') /\
    calls w' = calls sample_world ++ [(meteoblue, 40.4168%Q, (-3.7038)%Q, Some 1756720900000)] /\
    db w' !! cacheKey_of meteoblue 40.4168 (-3.7038) 1756720900000
    = db sample_world !! cacheKey_of meteoblue 40.4168 (-3.7038) 1756720900000 /\
    db w' !! RateLimiter.key_of (provider_name meteoblue) "global"
    = db sample_world_checked !! RateLimiter.key_of (provider_name meteoblue) "global".
Proof.
  apply (X25_adapter_failure_is_not_cached meteoblue sample_point 40.4168 (-3.7038)
           1756720900000 [] sample_world sample_world_checked sample_world_called
           "meteoblue API timeout").
  - reflexivity.
  - reflexivity.
  - reflexivity.
  - vm_compute. reflexivity.
  - vm_compute. reflexivity.
  - vm_compute. reflexivity.
Defined.

Lemma acquire_not_a_number (p : Provider) (point : Waypoint) (timestamp : Z)
    (acc : list Source.t) (w : World) :
  (forall q, lat point <> JNum q) \/ (forall q, lon point <> JNum q) ->
  exists w', acquire p point timestamp acc w = (Ok acc, w') /\ calls w' = calls w.
Proof.
  intros Hnan. unfold acquire.
  destruct (apiKey (env w) p); cbn [negb]; [|now exists w].
  assert (exists message, acquire_try p point timestamp acc w = (Thrown message, w)) as [m E].
  { unfold acquire_try.
    destruct (lat point) as [| |b|la|s|] eqn:Hlat;
      try (eexists; reflexivity).
    destruct (lon point) as [| |b|lo|s|] eqn:Hlon;
      try (eexists; reflexivity).
    destruct Hnan as [H | H]; [now destruct (H la) | now destruct (H lo)]. }
  unfold try_catch. rewrite E.
  destruct (logApiCall_total (provider_name p) false 0 w) as [w' Hlog].
  rewrite (bind_ok _ _ _ _ _ Hlog). exists w'. split; [reflexivity|].
  pose proof (respects_logApiCall (fun _ => False) (fun _ => False) (provider_name p) false 0
                ltac:(auto) _ _ _ Hlog) as (_ & _ & _ & _ & _ & _ & (made & Hcalls & Hmade)).
  destruct made; [now rewrite app_nil_r in Hcalls | now inversion Hmade].
Qed.

(** X26.  A point-level request whose latitude or longitude is truthy but
    not a number (a string such as "40.4", an object, [true]) passes the
    guard and is answered 500 with the no-data message: building the cache
    key throws for every provider, so no adapter is ever called. *)
Theorem X26_non_numeric_coordinate (lat lon : jsval) (timestamp : option Z) (w : World) :
  truthy lat = true -> truthy lon = true ->
  (forall q, lat <> JNum q) \/ (forall q, lon <> JNum q) ->
  exists w',
    weather_for_point lat lon timestamp w
    = ({| status := 500;
          body := ErrorBody "Error obteniendo datos meteorológicos" NoWeatherData |}, w') /\
    calls w' = calls w.
Proof.
  intros Hlat Hlon Hnan. unfold weather_for_point. rewrite Hlat, Hlon. cbn [negb orb].
  set (point := {| lat := lat; lon := lon; estimatedTimeFromStart := None |}).
  set (t := match timestamp with Some t => t | None => now w end).
  assert (forall providers w0,
            exists w', collect providers point t [] w0 = (Ok [], w') /\ calls w' = calls w0)
    as Hcollect.
  { induction providers as [|p rest IH]; intros w0.
    - exists w0. split; reflexivity.
    - destruct (acquire_not_a_number p point t [] w0 Hnan) as (w1 & E1 & Hc1).
      destruct (IH w1) as (w2 & E2 & Hc2).
      exists w2. cbn [collect]. rewrite (bind_ok _ _ _ _ _ E1). split; [exact E2 | congruence]. }
  destruct (Hcollect providerPriority w) as (w' & E & Hc).
  unfold getWeatherForPoint. rewrite (bind_ok _ _ _ _ _ E). unfold throw.
  exists w'. split; [reflexivity | exact Hc].
Qed.

Lemma X26_non_numeric_coordinate_witness :
  exists w',
    weather_for_point (JStr "40.4168") (JNum (-3.7038)) None sample_world
    = ({| status := 500;
          body := ErrorBody "Error obteniendo datos meteorológicos" NoWeatherData |}, w') /\
    calls w' = calls sample_world.
Proof.
  apply (X26_non_numeric_coordinate (JStr "40.4168") (JNum (-3.7038)) None sample_world).
  - reflexivity.
  - reflexivity.
  - left. discriminate.
Defined.

(** ** The risk classifier *)

Lemma identifyRisks_from_In (r : Risk.t) (weatherResults : list WeatherResult.t) :
  forall index,
    In r (identifyRisks_from index weatherResults) ->
    exists k result weather,
      nth_error weatherResults k = Some result /\
      WeatherResult.weather result = Some weather /\
      In r (risks_of_weather weather result (index + k)).
Proof.
  induction weatherResults as [|result rest IH]; intros index Hin; [destruct Hin|].
  cbn [identifyRisks_from] in Hin. apply in_app_or in Hin as [Hin | Hin].
  - unfold risks_of_result in Hin.
    destruct (WeatherResult.weather result) as [weather|] eqn:Hw; [|destruct Hin].
    exists 0%nat, result, weather. rewrite Nat.add_0_r. auto.
  - destruct (IH _ Hin) as (k & result' & weather & Hnth & Hw & Hr).
    exists (S k), result', weather. split; [exact Hnth|]. split; [exact Hw|].
    now replace (index + S k)%nat with (S index + k)%nat by lia.
Qed.

Lemma identifyRisks_from_length (weatherResults : list WeatherResult.t) :
  forall index,
    (length (identifyRisks_from index weatherResults)
     <= 4 * length (validResults_of weatherResults))%nat.
Proof.
  induction weatherResults as [|result rest IH]; intros index; [simpl; lia|].
  cbn [identifyRisks_from]. rewrite length_app. specialize (IH (S index)).
  unfold risks_of_result, validResults_of in *. cbn [List.filter].
  destruct (WeatherResult.weather result) as [weather|]; cbn [length].
  - unfold risks_of_weather. rewrite !length_app.
    repeat match goal with
    | |- context [length (if ?c then _ else _)] => destruct c
    end; cbn [length]; lia.
  - lia.
Qed.

(** X27.  Every alert belongs to a waypoint of the route that has
    weather: it carries that waypoint's number, coordinates and time, and
    its reading is over the threshold of its kind.  Wind over 25 km/h
    (high over 40), rain over 5 mm/h (high over 15), temperature below 0
    or above 35 (always medium), visibility below 1000 m and not zero (high
    below 500).  There are at most four alerts for each such waypoint. *)
Theorem X27_alerts_are_sound (weatherResults : list WeatherResult.t) :
  (length (identifyRisks weatherResults) <= 4 * length (validResults_of weatherResults))%nat /\
  forall r, In r (identifyRisks weatherResults) ->
    exists k result weather,
      nth_error weatherResults k = Some result /\
      WeatherResult.weather result = Some weather /\
      Risk.location r = ("Punto " ++ decimal (Z.of_nat k + 1))%string /\
      Risk.coordinates r
      = (lat (WeatherResult.waypoint result), lon (WeatherResult.waypoint result)) /\
      Risk.timestamp r = WeatherResult.timestamp result /\
      let v := Risk.value (Risk.message_ r) in
      match Risk.type_ r with
      | Risk.wind =>
          v = to_number (FusedRecord.windSpeed weather) /\ (25 < v)%Q /\
          (Risk.level_ r = Risk.high <-> (40 < v)%Q)
      | Risk.precipitation =>
          v = to_number (FusedRecord.precipitation weather) /\ (5 < v)%Q /\
          (Risk.level_ r = Risk.high <-> (15 < v)%Q)
      | Risk.temperature =>
          v = to_number (FusedRecord.temperature weather) /\ ((v < 0)%Q \/ (35 < v)%Q) /\
          Risk.level_ r = Risk.medium
      | Risk.visibility =>
          FusedRecord.visibility weather = Some v /\ ~ (v == 0)%Q /\ (v < 1000)%Q /\
          (Risk.level_ r = Risk.high <-> (v < 500)%Q)
      end.
Proof.
  split; [apply identifyRisks_from_length|].
  intros r Hin. apply identifyRisks_from_In in Hin as (k & result & weather & Hnth & Hw & Hr).
  exists k, result, weather. split; [exact Hnth|]. split; [exact Hw|].
  cbn [Nat.add] in Hr. unfold risks_of_weather in Hr.
  repeat (apply in_app_or in Hr as [Hr | Hr]).
  - destruct (js_gt (to_number (FusedRecord.windSpeed weather)) riskThresholds.windSpeed)
      eqn:E; [|destruct Hr].
    destruct Hr as [<- | []]. cbn. apply js_gt_true in E.
    repeat split; try assumption.
    + destruct (js_gt (to_number (FusedRecord.windSpeed weather)) 40) eqn:E'; [|discriminate].
      intros _. now apply js_gt_true in E'.
    + intros H. apply js_gt_true in H. now rewrite H.
  - destruct (js_gt (to_number (FusedRecord.precipitation weather))
                riskThresholds.precipitation) eqn:E; [|destruct Hr].
    destruct Hr as [<- | []]. cbn. apply js_gt_true in E.
    repeat split; try assumption.
    + destruct (js_gt (to_number (FusedRecord.precipitation weather)) 15) eqn:E';
        [|discriminate].
      intros _. now apply js_gt_true in E'.
    + intros H. apply js_gt_true in H. now rewrite H.
  - destruct (js_lt (to_number (FusedRecord.temperature weather))
                riskThresholds.temperature_min
              || js_gt (to_number (FusedRecord.temperature weather))
                   riskThresholds.temperature_max) eqn:E; [|destruct Hr].
    destruct Hr as [<- | []]. cbn. apply orb_true_iff in E as [E | E].
    + apply js_lt_true in E. repeat split; auto.
    + apply js_gt_true in E. repeat split; auto.
  - destruct (truthy_num (FusedRecord.visibility weather)
              && js_lt (to_number (FusedRecord.visibility weather))
                   riskThresholds.visibility) eqn:E; [|destruct Hr].
    destruct Hr as [<- | []]. cbn. apply andb_true_iff in E as [Et E].
    apply js_lt_true in E.
    destruct (FusedRecord.visibility weather) as [v|]; [|discriminate Et].
    cbn [truthy_num to_number] in *.
    apply negb_true_iff in Et.
    repeat split; try assumption.
    + intros Hz. apply Qeq_bool_iff in Hz. congruence.
    + destruct (js_lt v 500) eqn:E'; [|discriminate].
      intros _. now apply js_lt_true in E'.
    + intros H. apply js_lt_true in H. now rewrite H.
Qed.

(** ** Acquisition with the store down *)

Lemma acquire_down (p : Provider) (point : Waypoint) (la lo : Q) (timestamp : Z)
    (acc : list Source.t) (w : World) :
  store_down w ->
  apiKey (env w) p = true ->
  lat point = JNum la -> lon point = JNum lo ->
  exists acc',
    acquire p point timestamp acc w
    = (Ok acc', with_calls (calls w ++ [(p, la, lo, Some timestamp)]) w) /\
    (acc' = acc \/ exists data, acc' = acc ++ [Source.mk p data false]).
Proof.
  intros Hdown Hkey Hlat Hlon.
  unfold acquire. rewrite Hkey. cbn [negb]. unfold try_catch.
  rewrite (acquire_try_numbers p point la lo timestamp acc w Hlat Hlon). cbv zeta.
  rewrite (bind_ok _ _ _ _ _ (get_down _ _ Hdown)).
  rewrite (bind_ok _ _ _ _ _ (checkRateLimit_down _ _ _ Hdown)). cbn [negb].
  unfold bind at 1.
  pose proof (adapter_call_world p la lo timestamp w) as Hw2.
  destruct (adapter_call p la lo timestamp w) as [[data|message] w2]; cbn [snd] in Hw2;
    subst w2.
  - set (w2 := with_calls _ w). assert (store_down w2) as Hdown2 by exact Hdown.
    unfold RedisClient.setex. rewrite (bind_ok _ _ _ _ _ (set_down _ _ _ _ Hdown2)).
    rewrite (bind_ok _ _ _ _ _ (logApiCall_down _ _ _ _ Hdown2)).
    eexists. split; [reflexivity|]. right. now exists data.
  - set (w2 := with_calls _ w). assert (store_down w2) as Hdown2 by exact Hdown.
    rewrite (bind_ok _ _ _ _ _ (logApiCall_down _ _ _ _ Hdown2)).
    eexists. split; [reflexivity|]. now left.
Qed.

Lemma collect_down (point : Waypoint) (la lo : Q) (timestamp : Z)
    (providers : list Provider) :
  lat point = JNum la -> lon point = JNum lo ->
  forall (acc : list Source.t) (w : World),
    store_down w ->
    Forall (fun s => Source.cached s = false) acc ->
    exists sources w',
      collect providers point timestamp acc w = (Ok sources, w') /\
      calls w'
      = calls w ++ map (fun p => (p, la, lo, Some timestamp))
                       (List.filter (apiKey (env w)) providers) /\
      db w' = db w /\
      Forall (fun s => Source.cached s = false) sources.
Proof.
  intros Hlat Hlon.
  induction providers as [|p rest IH]; intros acc w Hdown Hacc.
  - exists acc, w. cbn. rewrite app_nil_r. auto.
  - cbn [collect List.filter].
    destruct (apiKey (env w) p) eqn:Hkey.
    + destruct (acquire_down p point la lo timestamp acc w Hdown Hkey Hlat Hlon)
        as (acc' & E & Hacc').
      rewrite (bind_ok _ _ _ _ _ E).
      destruct (IH acc' (with_calls (calls w ++ [(p, la, lo, Some timestamp)]) w))
        as (sources & w' & Ec & Hcalls & Hdb & Hall).
      * exact Hdown.
      * destruct Hacc' as [-> | [data ->]]; [exact Hacc|].
        apply Forall_app. split; [exact Hacc|]. now constructor.
      * exists sources, w'. split; [exact Ec|].
        split; [rewrite Hcalls; cbn [calls with_calls env map]; now rewrite <- app_assoc|].
        split; [exact Hdb | exact Hall].
    + assert (acquire p point timestamp acc w = (Ok acc, w)) as E.
      { unfold acquire. now rewrite Hkey. }
      rewrite (bind_ok _ _ _ _ _ E). now apply IH.
Qed.

(** X28.  With the store down nothing is cached and nothing is limited:
    every acquisition for a point with numeric coordinates calls the adapter
    of every provider whose key is set, once each and in priority order,
    whatever was asked before; the store is left as it was and no source
    is marked as cached. *)
Theorem X28_store_down_every_request_calls_out (point : Waypoint) (la lo : Q)
    (timestamp : Z) (w : World) :
  store_down w ->
  lat point = JNum la -> lon point = JNum lo ->
  exists sources w',
    collect providerPriority point timestamp [] w = (Ok sources, w') /\
    calls w'
    = calls w ++ map (fun p => (p, la, lo, Some timestamp))
                     (List.filter (apiKey (env w)) providerPriority) /\
    db w' = db w /\
    Forall (fun s => Source.cached s = false) sources.
Proof.
  intros Hdown Hlat Hlon.
  apply (collect_down point la lo timestamp providerPriority Hlat Hlon [] w Hdown).
  constructor.
Qed.

Lemma X28_store_down_every_request_calls_out_witness :
  exists sources w',
    collect providerPriority sample_point 1756720900000 [] sample_world_disconnected
    = (Ok sources, w') /\
    calls w'
    = calls sample_world_disconnected
      ++ map (fun p => (p, 40.4168%Q, (-3.7038)%Q, Some 1756720900000))
             (List.filter (apiKey (env sample_world_disconnected)) providerPriority) /\
    db w' = db sample_world_disconnected /\
    Forall (fun s => Source.cached s = false) sources.
Proof.
  apply (X28_store_down_every_request_calls_out sample_point 40.4168 (-3.7038)
           1756720900000 sample_world_disconnected).
  - left. reflexivity.
  - reflexivity.
  - reflexivity.
Defined.

Lemma calls_of_app (p : Provider) (c : list Call) (w : World) :
  calls_of p (with_calls (calls w ++ c) w)
  = calls_of p w ++ List.filter (fun c => bool_decide (call_provider c = p)) c.
Proof. unfold calls_of. cbn [calls with_calls]. apply List.filter_app. Qed.

(** Among the calls of one round over the providers whose key is set, the
    one to [p] occurs once. *)
Lemma one_call_each (p : Provider) (la lo : Q) (time : option Z) (keys : Provider -> bool) :
  keys p = true ->
  List.filter (fun c => bool_decide (call_provider c = p))
    (map (fun q => (q, la, lo, time)) (List.filter keys providerPriority))
  = [(p, la, lo, time)].
Proof.
  intros Hkey. unfold providerPriority. cbn [List.filter].
  destruct (keys meteoblue) eqn:K1, (keys aemet) eqn:K2, (keys windy) eqn:K3,
    (keys meteored) eqn:K4;
    destruct p; try congruence; reflexivity.
Qed.

(** C7.  In the service as it starts, the client of the store is created and
    never connected.  A first acquisition fetches a record for provider
    [p].  A second acquisition for a point with numeric coordinates, at any
    later moment and so also for the same rounded point and hour bucket
    within 30 minutes, finds nothing under its cache key, calls the adapter
    of [p] once more, and takes no source from the cache. *)
Theorem C7_started_service_fetches_again (p : Provider) (point point' : Waypoint)
    (la' lo' : Q) (timestamp timestamp' : Z) (w0 w1 : World)
    (sources1 : list Source.t) (record : ProviderRecord.t) (d : Z) :
  lat point' = JNum la' -> lon point' = JNum lo' ->
  collect providerPriority point timestamp [] (RedisClient.constructor_ w0)
  = (Ok sources1, w1) ->
  In (Source.mk p record false) sources1 ->
  exists sources2 w2,
    collect providerPriority point' timestamp' [] (advance d w1) = (Ok sources2, w2) /\
    RedisClient.get (cacheKey_of p la' lo' timestamp') (advance d w1)
    = (Ok None, advance d w1) /\
    calls_of p w2 = calls_of p w1 ++ [(p, la', lo', Some timestamp')] /\
    Forall (fun s => Source.cached s = false) sources2.
Proof.
  intros Hlat Hlon Hfirst Hin.
  pose proof (collect_changes _ _ _ _ _ _ _ Hfirst) as (Henv & Hc & Hi & _).
  assert (store_down (advance d w1)) as Hdown.
  { left. unfold RedisClient.isAvailable. cbn [client isConnected advance].
    rewrite Hc, Hi. reflexivity. }
  assert (apiKey (env (advance d w1)) p = true) as Hkey.
  { destruct (collect_added _ _ _ _ _ _ _ Hfirst) as (added & Hadded & _ & Hkeys).
    cbn [app] in Hadded. subst added.
    cbn [env advance]. rewrite Henv. exact (Hkeys _ Hin). }
  destruct (collect_down point' la' lo' timestamp' providerPriority Hlat Hlon []
              (advance d w1) Hdown ltac:(constructor))
    as (sources2 & w2 & E & Hcalls & _ & Hall).
  exists sources2, w2. split; [exact E|].
  split; [now apply get_down|]. split; [|exact Hall].
  unfold calls_of at 1. rewrite Hcalls, List.filter_app.
  now rewrite (one_call_each p la' lo' (Some timestamp') _ Hkey).
Qed.

Lemma C7_started_service_fetches_again_witness :
  exists sources2 w2,
    collect providerPriority sample_point_nearby 1756721500000 []
      (advance 600000 sample_world_started1) = (Ok sources2, w2) /\
    RedisClient.get (cacheKey_of windy 40.41712 (-3.70421) 1756721500000)
      (advance 600000 sample_world_started1)
    = (Ok None, advance 600000 sample_world_started1) /\
    calls_of windy w2
    = calls_of windy sample_world_started1
      ++ [(windy, 40.41712%Q, (-3.70421)%Q, Some 1756721500000)] /\
    Forall (fun s => Source.cached s = false) sources2.
Proof.
  apply (C7_started_service_fetches_again windy sample_point sample_point_nearby
           40.41712 (-3.70421) 1756720900000 1756721500000
           sample_world sample_world_started1 sample_sources_started
           sample_windy_fetched 600000).
  - reflexivity.
  - reflexivity.
  - vm_compute. reflexivity.
  - vm_compute. right. left. reflexivity.
Defined.

Lemma ttl_down (key : string) (w : World) :
  store_down w -> RedisClient.ttl key w = (Ok (-1), w).
Proof.
  intros [Hav | Hresp]; unfold RedisClient.ttl.
  - now rewrite Hav.
  - destruct (negb (RedisClient.isAvailable w)); [reflexivity|].
    unfold try_catch, Server.TTL, Server.command. now rewrite Hresp.
Qed.

Lemma hours_loop_down (iso : Z -> string) (apiName : string) (t : Z) (w : World) :
  store_down w ->
  forall (remaining : nat) (i : Z) (stats : RateLimiterStatus.Report),
    RateLimiterStatus.hours_loop iso apiName t remaining i stats w = (Ok stats, w).
Proof.
  intros Hdown. induction remaining as [|remaining IH]; intros i stats; [reflexivity|].
  cbn [RateLimiterStatus.hours_loop].
  rewrite (bind_ok _ _ _ _ _ (get_down _ _ Hdown)). apply IH.
Qed.

(** X29.  With the store down the read side of the limiter answers as if
    nothing had ever been used: the status of a provider shows its whole
    budget and no reset time, and the statistics of any number of hours are
    an empty report (zero calls, no rates), not null. *)
Theorem X29_store_down_reads_as_unused (limits : gmap string RateLimiter.Limit)
    (apiName userId : string) (l : RateLimiter.Limit) (hours : nat) (w : World) :
  store_down w ->
  limits !! apiName = Some l ->
  RateLimiterStatus.getStatus limits apiName userId w
  = (Ok (Some {| RateLimiterStatus.limit := RateLimiter.max l;
                 RateLimiterStatus.remaining :=
                   Some (Finite (inject_Z (Z.max 0 (RateLimiter.max l - 0))));
                 RateLimiterStatus.resetTime := None;
                 RateLimiterStatus.windowSeconds := RateLimiter.window l |}), w) /\
  RateLimiterStatus.getApiStats apiName hours w
  = (Ok (Some {| RateLimiterStatus.totalCalls := 0;
                 RateLimiterStatus.successes := 0;
                 RateLimiterStatus.errors := 0;
                 RateLimiterStatus.avgResponseTime := 0;
                 RateLimiterStatus.hourlyBreakdown := [];
                 RateLimiterStatus.successRate := None;
                 RateLimiterStatus.errorRate := None |}), w).
Proof.
  intros Hdown Hlim. split.
  - unfold RateLimiterStatus.getStatus, try_catch. rewrite Hlim.
    assert (RateLimiterStatus.getRemainingRequests limits apiName userId w
            = (Ok (Some (Finite (inject_Z (Z.max 0 (RateLimiter.max l - 0))))), w)) as Er.
    { unfold RateLimiterStatus.getRemainingRequests, try_catch. rewrite Hlim.
      now rewrite (bind_ok _ _ _ _ _ (get_down _ _ Hdown)). }
    assert (RateLimiterStatus.getResetTime apiName userId w = (Ok None, w)) as Et.
    { unfold RateLimiterStatus.getResetTime, try_catch.
      now rewrite (bind_ok _ _ _ _ _ (ttl_down _ _ Hdown)). }
    now rewrite (bind_ok _ _ _ _ _ Er), (bind_ok _ _ _ _ _ Et).
  - unfold RateLimiterStatus.getApiStats, try_catch.
    now rewrite (bind_ok _ _ _ _ _ (hours_loop_down _ _ _ _ Hdown _ _ _)).
Qed.

Lemma X29_store_down_reads_as_unused_witness :
  RateLimiterStatus.getStatus RateLimiter.limits "aemet" "global" sample_world_disconnected
  = (Ok (Some {| RateLimiterStatus.limit := 500;
                 RateLimiterStatus.remaining := Some (Finite (inject_Z (Z.max 0 (500 - 0))));
                 RateLimiterStatus.resetTime := None;
                 RateLimiterStatus.windowSeconds := 3600 |}), sample_world_disconnected) /\
  RateLimiterStatus.getApiStats "aemet" 24 sample_world_disconnected
  = (Ok (Some {| RateLimiterStatus.totalCalls := 0;
                 RateLimiterStatus.successes := 0;
                 RateLimiterStatus.errors := 0;
                 RateLimiterStatus.avgResponseTime := 0;
                 RateLimiterStatus.hourlyBreakdown := [];
                 RateLimiterStatus.successRate := None;
                 RateLimiterStatus.errorRate := None |}), sample_world_disconnected).
Proof.
  apply (X29_store_down_reads_as_unused RateLimiter.limits "aemet" "global"
           {| RateLimiter.max := 500; RateLimiter.window := 3600 |} 24
           sample_world_disconnected).
  - left. reflexivity.
  - reflexivity.
Defined.

(** ** The route response as a whole *)

Lemma getWeatherForPoint_frame (point : Waypoint) (timestamp : Z) (w w' : World)
    (o : outcome FusedRecord.t) :
  getWeatherForPoint point timestamp w = (o, w') ->
  env w' = env w /\ now w' = now w /\
  forall fused p, o = Ok fused -> In p (FusedRecord.sources fused) -> apiKey (env w) p = true.
Proof.
  intros H.
  destruct (getWeatherForPoint_outcome point timestamp w)
    as (collected & w1 & Hcollect & [[_ Hthrown] | (Hne & f & Hmerge & Hok)]).
  - rewrite Hthrown in H. injection H as <- <-.
    pose proof (collect_changes _ _ _ _ _ _ _ Hcollect) as (Henv & _ & _ & _ & Hnow & _).
    split; [exact Henv|]. split; [exact Hnow|]. intros fused p [=].
  - rewrite Hok in H. injection H as <- <-.
    pose proof (collect_changes _ _ _ _ _ _ _ Hcollect) as (Henv & _ & _ & _ & Hnow & _).
    split; [exact Henv|]. split; [exact Hnow|].
    intros fused p [= <-] Hp.
    destruct (collect_added _ _ _ _ _ _ _ Hcollect) as (added & Hadded & _ & Hkeys).
    cbn [app] in Hadded. subst added.
    destruct (Array_sort collected) as [|first others] eqn:E.
    { unfold mergeWeatherData in Hmerge. rewrite E in Hmerge. discriminate Hmerge. }
    destruct (mergeWeatherData_spec collected first others E) as (f' & Hf' & _ & _ & Hsources).
    rewrite Hmerge in Hf'. injection Hf' as <-.
    rewrite Hsources, <- E in Hp. apply in_map_iff in Hp as (s & <- & Hs).
    apply Hkeys. eapply Permutation_in; [apply Array_sort_perm | exact Hs].
Qed.

Lemma route_entries_frame (t : Z) (w w' : World) (waypoints : list Waypoint)
    (entries : list WeatherResult.t) :
  route_entries t w waypoints entries w' ->
  length entries = length waypoints /\
  env w' = env w /\ now w' = now w /\
  forall result weather p,
    In result entries -> WeatherResult.weather result = Some weather ->
    In p (FusedRecord.sources weather) -> apiKey (env w) p = true.
Proof.
  induction 1 as [w | w w1 w2 waypoint rest estimatedTime weatherData results _ Hpoint _ IH
                    | w w1 w2 waypoint rest estimatedTime results _ Hpoint _ IH].
  - repeat split. intros result weather p [].
  - destruct (getWeatherForPoint_frame _ _ _ _ _ Hpoint) as (Henv & Hnow & Hkeys).
    destruct IH as (Hlen & Henv' & Hnow' & Hall).
    split; [cbn [length]; now rewrite Hlen|].
    split; [congruence|]. split; [congruence|].
    intros result weather p [<- | Hin] Hw Hp.
    + cbn [WeatherResult.weather] in Hw. injection Hw as <-.
      now apply (Hkeys weatherData).
    + rewrite <- Henv. now apply (Hall result weather).
  - destruct (getWeatherForPoint_frame _ _ _ _ _ Hpoint) as (Henv & Hnow & _).
    destruct IH as (Hlen & Henv' & Hnow' & Hall).
    split; [cbn [length]; now rewrite Hlen|].
    split; [congruence|]. split; [congruence|].
    intros result weather p [<- | Hin] Hw Hp.
    + discriminate Hw.
    + rewrite <- Henv. now apply (Hall result weather).
Qed.

(** X30.  A route request with at least one waypoint, the estimated time of
    every waypoint being a valid date, is answered 200 with one result per
    waypoint; its [sources] has no duplicates and lists only providers whose
    API key is set; there are at most four risks for each waypoint. *)
Theorem X30_route_response (first : Waypoint) (rest : list Waypoint) (w : World) :
  Forall (valid_time (now w)) (first :: rest) ->
  exists results risks sources processedAt w',
    weather_for_route (WaypointsArray (first :: rest)) w
    = ({| status := 200; body := RouteBody results risks sources processedAt |}, w') /\
    length results = S (length rest) /\
    (length risks <= 4 * S (length rest))%nat /\
    List.NoDup sources /\
    (forall p, In p sources -> apiKey (env w) p = true).
Proof.
  intros Hvalid.
  destruct (waypoints_loop_entries (now w) (first :: rest) Hvalid [] w)
    as (entries & w' & E & Hentries).
  cbn [app] in E.
  destruct (route_entries_frame _ _ _ _ _ Hentries) as (Hlen & Henv & Hnow & Hkeys).
  exists entries, (identifyRisks entries), (getUsedSources entries), (now w'), w'.
  split.
  { unfold weather_for_route, getWeatherForWaypoints. now rewrite E. }
  split; [exact Hlen|]. split.
  { pose proof (identifyRisks_from_length entries 0) as H1.
    pose proof (validResults_of_length entries) as H2.
    unfold identifyRisks. cbn [length] in Hlen. lia. }
  destruct (getUsedSources_from entries []) as [Hnd Hin].
  split; [apply Hnd; constructor|].
  intros p Hp. unfold getUsedSources in Hp. apply Hin in Hp as [[] | (r & f & Hr & Hw & Hpf)].
  now apply (Hkeys r f).
Qed.

Lemma X30_route_response_witness :
  exists results risks sources processedAt w',
    weather_for_route (WaypointsArray [sample_point; sample_point_nearby]) sample_world
    = ({| status := 200; body := RouteBody results risks sources processedAt |}, w') /\
    length results = 2%nat /\
    (length risks <= 8)%nat /\
    List.NoDup sources /\
    (forall p, In p sources -> apiKey (env sample_world) p = true).
Proof.
  apply (X30_route_response sample_point [sample_point_nearby] sample_world).
  repeat constructor; eexists; vm_compute; reflexivity.
Defined.
